(** * Collaborative editing core of isolated-block-editor

    A shallow embedding of the synchronisation engine found under
    [src/components/collaborative-editing/use-yjs]:

    - [Diff]    the order-list diff consumed by the tree codec
                ([algorithms/diff.js], [simpleDiffArray]);
    - [Codec]   the tree codec ([algorithms/yjs.js]): [updateBlocksDoc],
                [updateCommentsDoc], [updatePostDoc], [blocksDocToArray],
                [postDocToObject];
    - [Wire]    the textual byte-array encoding ([encodeArray], [decodeArray]);
    - [Session] the per-client document session ([createDocument] in
                [yjs-doc.js], in the version that owns the undo manager
                and takes [getSelection] and [setSelection]);
    - [YjsDoc]  [createDocument] in the version found beside [index.js],
                which takes the four options [initYDoc] passes and has
                no undo manager;
    - [Editor]  the wiring of [initYDoc] in [index.js] on a [YjsDoc]
                session: the options handed to [createDocument], the
                branch on [isFirstInChannel] and the callback
                [applyChangesToYjs].

    The replicated primitives (Yjs maps and arrays) are modelled by finite
    maps and lists; every mutating call on them is recorded in a write log so
    that write suppression can be stated. Each module of definitions is
    followed, further down, by a module of properties ([DiffProps],
    [WireProps], [SessionProps], [EditorProps], [CodecProps]) and these by
    further invariants and exchanges ([CodecMore], [SessionMore],
    [SessionStates], [WireMore], [EditorMore]). *)

From Stdlib Require Import ZArith NArith Lia.
From Stdlib.Strings Require Import Ascii String Byte.
From stdpp Require Import gmap strings list.

Set Warnings "-register-all".

(* ===================================================================== *)
(** * The diff engine *)
(* ===================================================================== *)

Module Diff.

(** The value returned by [simpleDiffArray]; the codec reads the fields
    [index], [remove] and [insert] (yjs.js, lines 38-41). *)
Record arrayDiff := ArrayDiff {
  index : nat;
  remove : nat;
  insert : list string;
}.

(** Modelled from the spec: the length of the largest common prefix of
    the Diff Engine contract ([algorithms/diff.js] is not among the source
    files), the number of leading positions at which the two sequences
    agree. *)
Fixpoint common_prefix (a b : list string) : nat :=
  match a, b with
  | x :: a', y :: b' => if decide (x = y) then S (common_prefix a' b') else 0
  | _, _ => 0
  end.

(** Modelled from the spec: the length of the largest common suffix, the
    number of trailing positions at which the two sequences agree. *)
Definition common_suffix (a b : list string) : nat :=
  common_prefix (reverse a) (reverse b).

(** Modelled from the spec: [algorithms/diff.js] is not among the source
    files, so [simpleDiffArray] follows the contract of the Diff Engine:
    the largest common prefix and, independently, the largest common suffix
    that does not overlap the prefix; [index] is the prefix length, [remove]
    counts the elements of the old sequence between prefix and suffix, and
    [insert] holds the elements of the new sequence between prefix and
    suffix. *)
Definition simpleDiffArray (a b : list string) : arrayDiff :=
  let left := common_prefix a b in
  let right := common_suffix (drop left a) (drop left b) in
  {| index := left;
     remove := length a - left - right;
     insert := take (length b - left - right) (drop left b) |}.

(** Modelled from the spec: applying an edit as the guarantee of the Diff
    Engine words it, [remove(index, removeCount)] followed by
    [insert(index, insert)]. *)
Definition apply_diff (d : arrayDiff) (a : list string) : list string :=
  take (index d) a ++ insert d ++ drop (index d + remove d) a.

End Diff.

(* ===================================================================== *)
(** * JavaScript results *)
(* ===================================================================== *)

(** Outcome of a call that may throw. [OutOfFuel] is only produced by the
    fuel-bounded recursion that models [blocksDocToArray]. *)
Inductive res (X : Type) : Type :=
| Ok (x : X)
| Throw (e : string)
| OutOfFuel.
Arguments Ok {X} x.
Arguments Throw {X} e.
Arguments OutOfFuel {X}.

#[global] Instance res_ret : MRet res := @Ok.
#[global] Instance res_bind : MBind res := λ X Y k r,
  match r with
  | Ok x => k x
  | Throw e => Throw e
  | OutOfFuel => OutOfFuel
  end.

(** [Array.prototype.map] with a callback that may throw: elements are
    visited left to right and the first exception aborts the traversal. *)
Fixpoint res_map {X Y : Type} (f : X → res Y) (l : list X) : res (list Y) :=
  match l with
  | [] => Ok []
  | x :: l' => y ← f x; ys ← res_map f l'; Ok (y :: ys)
  end.

(* ===================================================================== *)
(** * The tree codec *)
(* ===================================================================== *)

Module Codec.
Import Diff.

(** Primitive values held by comment and reply fields. Numbers are
    restricted to integers (timestamps and offsets). On this fragment the
    strict comparison [!==] is plain disequality. *)
Inductive jsval :=
| JUndefined
| JString (s : string)
| JNumber (z : Z).

#[global] Instance jsval_eq_dec : EqDecision jsval.
Proof. solve_decision. Defined.

Section Blocks.
Context {A : Type} `{EqDecision A}.

(** A block without its [innerBlocks]: the object called [block] after the
    destructuring [{ innerBlocks, ...block } = _block]. The attribute
    mapping is kept abstract; [isEqual] is decidable equality on it. *)
Record blockProps := BlockProps {
  clientId : string;
  attributes : A;
}.

#[global] Instance blockProps_eq_dec : EqDecision blockProps.
Proof. solve_decision. Defined.

(** A block as handed to the codec by the editor. *)
Inductive block :=
| Block (props : blockProps) (innerBlocks : list block).

Definition props (b : block) : blockProps :=
  match b with Block p _ => p end.
Definition innerBlocks (b : block) : list block :=
  match b with Block _ bs => bs end.
Definition blockId (b : block) : string := clientId (props b).

(** A block as produced by [blocksDocToArray]: the spread of
    [byClientId.get(id)], which is [None] when the content map has no
    entry, plus the decoded [innerBlocks]. *)
Inductive decoded :=
| Decoded (content : option blockProps) (inner : list decoded).

Fixpoint to_decoded (b : block) : decoded :=
  match b with
  | Block p bs => Decoded (Some p) (map to_decoded bs)
  end.

(** The replicated map [yDocBlocks]: an order list per parent id under
    the key 'order' and the flat content map under 'byClientId'. *)
Record blocksDoc := BlocksDoc {
  order : option (gmap string (list string));
  byClientId : option (gmap string blockProps);
}.

(** Mutating calls on the replicated block collections. *)
Inductive blockWrite :=
| OrderMapCreate
| OrderListCreate (parent : string)
| ByClientIdCreate
| ContentDelete (id : string)
| OrderDelete (parent : string) (index len : nat)
| OrderInsert (parent : string) (index : nat) (ids : list string)
| ContentSet (id : string) (p : blockProps).

#[global] Instance blockWrite_eq_dec : EqDecision blockWrite.
Proof. solve_decision. Defined.

(** [Array.prototype.slice(start, end)] for non-negative arguments. *)
Definition js_slice {X : Type} (start stop : nat) (l : list X) : list X :=
  take (stop - start) (drop start l).

(** [Y.Array.delete(index, length)] and [Y.Array.insert(index, content)].
    Both raise when the range exceeds the array; the codec only calls them
    with the range computed by [simpleDiffArray] on the same array, which
    lies within it ([DiffProps.simpleDiffArray_in_range]). *)
Definition yarray_delete {X : Type} (i len : nat) (l : list X) : list X :=
  take i l ++ drop (i + len) l.
Definition yarray_insert {X : Type} (i : nat) (xs l : list X) : list X :=
  take i l ++ xs ++ drop i l.

(** The part of [updateBlocksDoc] that precedes its loop (lines 22-41):
    lazily create the collections, diff the order list against the new
    child ids, delete content of ids in [currentOrder.slice(index, remove)]
    that the diff does not insert, then splice the order list. *)
Definition updateOrder (clientId : string) (ids : list string) (d : blocksDoc)
  : blocksDoc * list blockWrite :=
  let '(om, w1) := match order d with
                   | Some om => (om, [])
                   | None => (∅, [OrderMapCreate])
                   end in
  let '(currentOrder, w2) := match om !! clientId with
                             | Some l => (l, [])
                             | None => ([], [OrderListCreate clientId])
                             end in
  let '(bc, w3) := match byClientId d with
                   | Some bc => (bc, [])
                   | None => (∅, [ByClientIdCreate])
                   end in
  let orderDiff := simpleDiffArray currentOrder ids in
  let doomed := filter (λ c, c ∉ insert orderDiff)
                  (js_slice (index orderDiff) (remove orderDiff) currentOrder) in
  let bc' := foldl (λ m c, delete c m) bc doomed in
  let newOrder :=
    yarray_insert (index orderDiff) (insert orderDiff)
      (yarray_delete (index orderDiff) (remove orderDiff) currentOrder) in
  (BlocksDoc (Some (<[clientId := newOrder]> om)) (Some bc'),
   w1 ++ w2 ++ w3 ++ map ContentDelete doomed
      ++ [OrderDelete clientId (index orderDiff) (remove orderDiff);
          OrderInsert clientId (index orderDiff) (insert orderDiff)]).

(** Lines 45-47: write the block's content unless an equal value is
    stored. *)
Definition setContent (p : blockProps) (d : blocksDoc)
  : blocksDoc * list blockWrite :=
  let bc := default ∅ (byClientId d) in
  if decide (bc !! clientId p = Some p) then (d, [])
  else (BlocksDoc (order d) (Some (<[clientId p := p]> bc)),
        [ContentSet (clientId p) p]).

(** A [for ... of] loop whose body updates the store and logs writes. *)
Definition for_each {X S W : Type} (body : X → S → S * list W)
  : list X → S → S * list W :=
  fix each xs s :=
    match xs with
    | [] => (s, [])
    | x :: xs' =>
        let '(s', w') := body x s in
        let '(s'', w'') := each xs' s' in
        (s'', w' ++ w'')
    end.

(** One iteration of the loop of [updateBlocksDoc] (lines 44-49), with the
    recursive call [updateBlocksDoc(yDocBlocks, innerBlocks, clientId)]
    unfolded into [updateOrder] followed by the loop over the children, so
    that the recursion is structural on the block;
    [CodecProps.updateBlock_unfold] states it with the call folded back. *)
Fixpoint updateBlock (b : block) (d : blocksDoc) : blocksDoc * list blockWrite :=
  match b with
  | Block p inner =>
      let '(d1, w1) := setContent p d in
      let '(d2, w2) := updateOrder (clientId p) (map blockId inner) d1 in
      let '(d3, w3) := for_each updateBlock inner d2 in
      (d3, w1 ++ w2 ++ w3)
  end.

(** The loop [for (const _block of blocks)]. *)
Definition updateBlocks : list block → blocksDoc → blocksDoc * list blockWrite :=
  for_each updateBlock.

(** [updateBlocksDoc(yDocBlocks, blocks, clientId = '')]. *)
Definition updateBlocksDoc (d : blocksDoc) (blocks : list block) (clientId : string)
  : blocksDoc * list blockWrite :=
  let '(d1, w1) := updateOrder clientId (map blockId blocks) d in
  let '(d2, w2) := updateBlocks blocks d1 in
  (d2, w1 ++ w2).

(** [blocksDocToArray(yDocBlocks, clientId = '')]. The source recurses on
    the store, which may be cyclic, so the model is bounded by [fuel]. *)
Fixpoint blocksDocToArray (fuel : nat) (yDocBlocks : option blocksDoc)
    (clientId : string) : res (list decoded) :=
  match fuel with
  | 0 => OutOfFuel
  | S fuel' =>
      match yDocBlocks with
      | None => Ok []
      | Some d =>
          match order d with
          | None => Throw "TypeError"
          | Some om =>
              match om !! clientId with
              | None => Ok []
              | Some ord =>
                  res_map (λ c,
                    match byClientId d with
                    | None => Throw "TypeError"
                    | Some bc =>
                        inner ← blocksDocToArray fuel' yDocBlocks c;
                        Ok (Decoded (bc !! c) inner)
                    end) ord
              end
          end
      end
  end.

End Blocks.

(** ** Comments *)

(** A reply and a comment as handed to the codec. [_id] is the key; the
    other fields are read by name in the field loops of the source. *)
Record reply := Reply {
  reply_id : string;
  reply_content : jsval;
  reply_createdAt : jsval;
  reply_authorId : jsval;
  reply_authorName : jsval;
}.

Record comment := Comment {
  comment_id : string;
  comment_type : jsval;
  comment_content : jsval;
  comment_createdAt : jsval;
  comment_status : jsval;
  comment_start : jsval;
  comment_end : jsval;
  comment_authorId : jsval;
  comment_authorName : jsval;
  comment_replies : list reply;
}.

(** [reply[ field ]] and [comment[ field ]]. *)
Definition reply_field (r : reply) (field : string) : jsval :=
  if decide (field = "content") then reply_content r
  else if decide (field = "createdAt") then reply_createdAt r
  else if decide (field = "authorId") then reply_authorId r
  else if decide (field = "authorName") then reply_authorName r
  else JUndefined.

Definition comment_field (c : comment) (field : string) : jsval :=
  if decide (field = "type") then comment_type c
  else if decide (field = "content") then comment_content c
  else if decide (field = "createdAt") then comment_createdAt c
  else if decide (field = "status") then comment_status c
  else if decide (field = "start") then comment_start c
  else if decide (field = "end") then comment_end c
  else if decide (field = "authorId") then comment_authorId c
  else if decide (field = "authorName") then comment_authorName c
  else JUndefined.

Definition replyFields : list string :=
  ["content"; "createdAt"; "authorId"; "authorName"].
Definition commentFields : list string :=
  ["type"; "content"; "createdAt"; "status"; "start"; "end"; "authorId"; "authorName"].

(** The replicated map of one reply or of the plain fields of one comment:
    [get] of a missing key is [undefined]. *)
Definition field_get (m : gmap string jsval) (field : string) : jsval :=
  default JUndefined (m !! field).

(** The replicated map of one comment. Every comment map is created at
    line 64 and receives its 'replies' map at line 75 of the same call, so
    the nested map is a plain component. *)
Record commentDoc := CommentDoc {
  comment_doc_fields : gmap string jsval;
  comment_doc_replies : gmap string (gmap string jsval);
}.

Inductive replyWrite :=
| ReplyCreate (id : string)
| ReplyFieldSet (id field : string) (v : jsval).

Inductive commentWrite :=
| CommentCreate (id : string)
| CommentFieldSet (id field : string) (v : jsval)
| RepliesCreate (id : string)
| InReplies (id : string) (w : replyWrite).

#[global] Instance replyWrite_eq_dec : EqDecision replyWrite.
Proof. solve_decision. Defined.
#[global] Instance commentWrite_eq_dec : EqDecision commentWrite.
Proof. solve_decision. Defined.

(** The field loops of lines 68-72 and 96-100: write a field when the
    map is new or holds a value that differs ([!==]) from the source
    object's. The writes are returned as (field, value) pairs. *)
Fixpoint setFields (fields : list string) (isNewDoc : bool) (src : string → jsval)
    (m : gmap string jsval) : gmap string jsval * list (string * jsval) :=
  match fields with
  | [] => (m, [])
  | field :: fields' =>
      if isNewDoc || bool_decide (field_get m field ≠ src field) then
        let '(m', w) := setFields fields' isNewDoc src (<[field := src field]> m) in
        (m', (field, src field) :: w)
      else setFields fields' isNewDoc src m
  end.

(** [updateCommentRepliesDoc(repliesDoc, replies = [])]. *)
Fixpoint updateCommentRepliesDoc (repliesDoc : gmap string (gmap string jsval))
    (replies : list reply) : gmap string (gmap string jsval) * list replyWrite :=
  match replies with
  | [] => (repliesDoc, [])
  | r :: replies' =>
      let currentReplyDoc := repliesDoc !! reply_id r in
      let isNewDoc := bool_decide (currentReplyDoc = None) in
      let w0 := if isNewDoc then [ReplyCreate (reply_id r)] else [] in
      let '(m, wf) := setFields replyFields isNewDoc (reply_field r)
                        (default ∅ currentReplyDoc) in
      let '(repliesDoc', w) :=
        updateCommentRepliesDoc (<[reply_id r := m]> repliesDoc) replies' in
      (repliesDoc',
       w0 ++ map (λ fv, ReplyFieldSet (reply_id r) fv.1 fv.2) wf ++ w)
  end.

(** [updateCommentsDoc(commentsDoc, comments = [])]. *)
Fixpoint updateCommentsDoc (commentsDoc : gmap string commentDoc)
    (comments : list comment) : gmap string commentDoc * list commentWrite :=
  match comments with
  | [] => (commentsDoc, [])
  | c :: comments' =>
      let id := comment_id c in
      let currentDoc := commentsDoc !! id in
      let isNewDoc := bool_decide (currentDoc = None) in
      let w0 := if isNewDoc then [CommentCreate id] else [] in
      let cur := default (CommentDoc ∅ ∅) currentDoc in
      let '(m, wf) := setFields commentFields isNewDoc (comment_field c)
                        (comment_doc_fields cur) in
      let w1 := if isNewDoc then [RepliesCreate id] else [] in
      let '(rs, wr) := updateCommentRepliesDoc (comment_doc_replies cur)
                         (comment_replies c) in
      let '(commentsDoc', w) :=
        updateCommentsDoc (<[id := CommentDoc m rs]> commentsDoc) comments' in
      (commentsDoc',
       w0 ++ map (λ fv, CommentFieldSet id fv.1 fv.2) wf ++ w1
          ++ map (InReplies id) wr ++ w)
  end.

(** ** The post *)

Section Post.
Context {A : Type} `{EqDecision A}.

(** The object handed to [updatePostDoc]. The callers pass
    [{ title: '', blocks }] and [{ blocks }], so every member may be
    [undefined]. *)
Record post := Post {
  post_title : option string;
  post_blocks : option (list (block (A:=A)));
  post_comments : option (list comment);
}.

(** The replicated map stored under the key 'post' of the document. *)
Record postDoc := PostDoc {
  doc_title : option string;
  doc_blocks : option (blocksDoc (A:=A));
  doc_comments : option (gmap string commentDoc);
}.

(** The document before any write. *)
Definition emptyDoc : postDoc := PostDoc None None None.

Inductive write :=
| TitleSet (t : option string)
| BlocksCreate
| InBlocks (w : blockWrite (A:=A))
| CommentsCreate
| InComments (w : commentWrite).

#[global] Instance write_eq_dec : EqDecision write.
Proof. solve_decision. Defined.

(** [updatePostDoc(doc, newPost)]. *)
Definition updatePostDoc (doc : postDoc) (newPost : post) : postDoc * list write :=
  let '(t, w1) :=
    if decide (doc_title doc ≠ post_title newPost)
    then (post_title newPost, [TitleSet (post_title newPost)])
    else (doc_title doc, []) in
  let '(b0, w2) := match doc_blocks doc with
                   | Some b => (b, [])
                   | None => (BlocksDoc None None, [BlocksCreate])
                   end in
  let '(b, w3) := updateBlocksDoc b0 (default [] (post_blocks newPost)) "" in
  let '(c0, w4) := match doc_comments doc with
                   | Some c => (c, [])
                   | None => (∅, [CommentsCreate])
                   end in
  let '(c, w5) := updateCommentsDoc c0 (default [] (post_comments newPost)) in
  (PostDoc t (Some b) (Some c),
   w1 ++ w2 ++ map InBlocks w3 ++ w4 ++ map InComments w5).

(** A write that changes nothing in the replicated store: deleting zero
    elements from an order list or inserting an empty sequence into it. *)
Definition void_write (w : write) : bool :=
  match w with
  | InBlocks (OrderDelete _ _ 0) => true
  | InBlocks (OrderInsert _ _ []) => true
  | _ => false
  end.

(** The object returned by [postDocToObject], restricted to its [title]
    and [blocks] members. The [comments] member ([commentsDocToArray])
    depends on the property enumeration order of plain objects and on a
    numeric sort of arbitrary field values; it is left out of the model. *)
Record postObject := PostObject {
  title : string;
  blocks : list (decoded (A:=A));
}.

(** [postDoc.get( 'title' ) || '']: [undefined] and the empty string both
    yield the empty string. *)
Definition title_or_empty (t : option string) : string := default "" t.

(** [postDocToObject(doc)]; [fuel] bounds the recursion of
    [blocksDocToArray]. *)
Definition postDocToObject (fuel : nat) (doc : postDoc) : res postObject :=
  bs ← blocksDocToArray fuel (doc_blocks doc) "";
  Ok (PostObject (title_or_empty (doc_title doc)) bs).

End Post.
End Codec.

(* ===================================================================== *)
(** * The textual byte-array encoding *)
(* ===================================================================== *)

Module Wire.

(** [ToUint8(ToNumber(s))] for the strings that fall outside the fragment
    evaluated below (signs, fractions, exponents, hexadecimal literals,
    white space, digit strings too long to be exact as a double, and text
    that is not numeric). The conversion belongs to the language runtime
    and is taken as given. *)
Class NumberConversion := toUint8Other : string → Byte.byte.

Definition byte_of_N (n : N) : Byte.byte :=
  default Byte.x00 (Byte.of_N (n mod 256)).

Definition digit_of_N (n : N) : ascii :=
  ascii_of_N (48 + n mod 10).

(** Decimal rendering of an element of a [Uint8Array]. *)
Definition byte_to_string (b : Byte.byte) : string :=
  let n := Byte.to_N b in
  if (n <? 10)%N then String (digit_of_N n) ""
  else if (n <? 100)%N then String (digit_of_N (n / 10)) (String (digit_of_N n) "")
  else String (digit_of_N (n / 100))
         (String (digit_of_N (n / 10)) (String (digit_of_N n) "")).

(** [Array.prototype.join] with separator [","]. *)
Fixpoint join_comma (pieces : list string) : string :=
  match pieces with
  | [] => ""
  | [p] => p
  | p :: ps => p +:+ "," +:+ join_comma ps
  end.

(** [const encodeArray = ( array ) => array.toString()]. *)
Definition encodeArray (array : list Byte.byte) : string :=
  join_comma (map byte_to_string array).

(** [String.prototype.split( ',' )]: the result always has at least one
    piece; the empty string splits into one empty piece. *)
Fixpoint split_comma (s : string) : list string :=
  match s with
  | EmptyString => [""]
  | String c s' =>
      if decide (c = ","%char) then "" :: split_comma s'
      else match split_comma s' with
           | p :: ps => String c p :: ps
           | [] => [String c ""]
           end
  end.

Definition is_digit (c : ascii) : bool :=
  let n := N_of_ascii c in (48 <=? n)%N && (n <=? 57)%N.

Fixpoint all_digits (s : string) : bool :=
  match s with
  | EmptyString => true
  | String c s' => is_digit c && all_digits s'
  end.

Fixpoint decimal_value (acc : N) (s : string) : N :=
  match s with
  | EmptyString => acc
  | String c s' => decimal_value (10 * acc + (N_of_ascii c - 48)) s'
  end.

Section Decode.
Context `{NumberConversion}.

(** Conversion of one piece when a [Uint8Array] is built from an array of
    strings: the empty string is 0, a string of at most 15 decimal digits
    is its value modulo 256. *)
Definition piece_to_uint8 (s : string) : Byte.byte :=
  if decide (s = "") then Byte.x00
  else if all_digits s && bool_decide (String.length s ≤ 15)
       then byte_of_N (decimal_value 0 s)
       else toUint8Other s.

(** [const decodeArray = ( string ) => new Uint8Array( string.split( ',' ) )]. *)
Definition decodeArray (s : string) : list Byte.byte :=
  map piece_to_uint8 (split_comma s).

End Decode.
End Wire.

(* ===================================================================== *)
(** * The document session *)
(* ===================================================================== *)

Module Session.
Import Wire.

(** The connection state: ['off'], ['connecting'], ['on']. *)
Inductive connState := Off | Connecting | On.

#[global] Instance connState_eq_dec : EqDecision connState.
Proof. solve_decision. Defined.

(** A caret position of the editor and the selection it delimits
    ([EditorSelection], with members [start] and [end]). *)
Record caret := Caret {
  caret_clientId : string;
  caret_attributeKey : string;
  caret_offset : Z;
}.

Record EditorSelection := Selection {
  sel_start : option caret;
  sel_end : option caret;
}.

(** The 'doc' payload exchanged between sessions. A member that is absent
    from the object is [None]; an absent [protocol] or [messageType]
    behaves like any string other than the expected ones. *)
Record message := Message {
  protocol : string;
  messageType : string;
  origin : option string;
  destination : option string;
  isReply : option bool;
  stateVector : option string;
  update : option string;
}.

(** The attribution of a transaction: a value passed as origin (a message's
    [origin] member or this client's identity) or the undo manager. *)
Inductive txOrigin :=
| OriginValue (o : option string)
| OriginUndoManager.

#[global] Instance txOrigin_eq_dec : EqDecision txOrigin.
Proof. solve_decision. Defined.

(** Truthiness of an optional string and of an optional flag. *)
Definition truthy_string (o : option string) : bool :=
  match o with
  | Some s => bool_decide (s ≠ "")
  | None => false
  end.
Definition truthy_flag (o : option bool) : bool := default false o.

(** Direction of an undo-manager event ([event.type]). *)
Inductive direction := Undo | Redo.

Section Primitive.
Variables ydoc change : Type.

(** An entry of an undo or redo stack: the primitive layer's record of the
    change and the ['caret-location'] member of its [meta] map. *)
Record stackItem := StackItem {
  item_change : change;
  caret_location : option EditorSelection;
}.

(** [undoManager.undoStack] and [undoManager.redoStack], in array order:
    the top of a stack is its last element. *)
Record UndoManager := Manager {
  undoStack : list stackItem;
  redoStack : list stackItem;
}.

(** What a call of [undo()] or [redo()] on the primitive undo manager did:
    the stacks and the document afterwards, the update event of its
    transaction if the document changed, whether a reverse item was
    pushed on the opposite stack (['stack-item-added']), and the popped
    item reported by ['stack-item-popped'], if any. *)
Record popOutcome := PopOutcome {
  pop_manager : UndoManager;
  pop_doc : ydoc;
  pop_update : option (list Byte.byte);
  pop_added : bool;
  pop_item : option stackItem;
}.

(** The replicated-data layer the session drives, taken as given. *)
Class Primitives := {
  newDoc : ydoc;
  encodeStateVector : ydoc → list Byte.byte;
  encodeStateAsUpdate : ydoc → list Byte.byte → list Byte.byte;
  applyUpdate : ydoc → list Byte.byte → ydoc;
  (** the update event of a transaction that took the document from the
      first state to the second; [None] when nothing changed *)
  transactionUpdate : ydoc → ydoc → option (list Byte.byte);
  (** the undo manager after a tracked transaction, and whether it pushed
      a new item on the undo stack *)
  captureTransaction : UndoManager → ydoc → ydoc → UndoManager * bool;
  popUndo : UndoManager → ydoc → popOutcome;
  popRedo : UndoManager → ydoc → popOutcome;
}.

End Primitive.

Arguments StackItem {change} _ _.
Arguments item_change {change} _.
Arguments caret_location {change} _.
Arguments Manager {change} _ _.
Arguments undoStack {change} _.
Arguments redoStack {change} _.
Arguments PopOutcome {ydoc change} _ _ _ _ _.
Arguments pop_manager {ydoc change} _.
Arguments pop_doc {ydoc change} _.
Arguments pop_update {ydoc change} _.
Arguments pop_added {ydoc change} _.
Arguments pop_item {ydoc change} _.
Arguments newDoc {ydoc change _}.
Arguments encodeStateVector {ydoc change _} _.
Arguments encodeStateAsUpdate {ydoc change _} _ _.
Arguments applyUpdate {ydoc change _} _ _.
Arguments transactionUpdate {ydoc change _} _ _.
Arguments captureTransaction {ydoc change _} _ _ _.
Arguments popUndo {ydoc change _} _ _.
Arguments popRedo {ydoc change _} _ _.

(** The options of [createDocument] that are functions of the document:
    [identity], [applyDataChanges] and [getData].
    [sendMessage], [getSelection] and [setSelection] act on the world
    outside the session and appear as effects and as the editor's
    selection below. *)
Record options (ydoc D G : Type) := Options {
  identity : string;
  opt_applyDataChanges : ydoc → D → ydoc;
  opt_getData : ydoc → res G;
}.
Arguments Options {ydoc D G} _ _ _.
Arguments identity {ydoc D G} _.
Arguments opt_applyDataChanges {ydoc D G} _ _ _.
Arguments opt_getData {ydoc D G} _ _.

(** What a call makes visible outside the session. Listeners are
    identified by numbers and are observers: they do not call back into
    the session. *)
Inductive effect (G : Type) :=
| Sent (m : message)
| RemoteData (listener : nat) (data : G)
| StateChanged (listener : nat) (st : connState)
| SelectionSet (sel : EditorSelection).
Arguments Sent {G} m.
Arguments RemoteData {G} listener data.
Arguments StateChanged {G} listener st.
Arguments SelectionSet {G} sel.

(** The variables closed over by [createDocument], together with the
    editor's current selection as read by [getSelection]. *)
Record session (ydoc change : Type) := SessionState {
  doc : ydoc;
  state : connState;
  undoManager : option (UndoManager change);
  listeners : list nat;
  stateListeners : list nat;
  editorSelection : EditorSelection;
}.
Arguments SessionState {ydoc change} _ _ _ _ _ _.
Arguments doc {ydoc change} _.
Arguments state {ydoc change} _.
Arguments undoManager {ydoc change} _.
Arguments listeners {ydoc change} _.
Arguments stateListeners {ydoc change} _.
Arguments editorSelection {ydoc change} _.

(** The result of a call: the session afterwards, the effects in order,
    and the exception that left the call, if any. *)
Record outcome (ydoc change G : Type) := Outcome {
  next : session ydoc change;
  emitted : list (effect G);
  thrown : option string;
}.
Arguments Outcome {ydoc change G} _ _ _.
Arguments next {ydoc change G} _.
Arguments emitted {ydoc change G} _.
Arguments thrown {ydoc change G} _.

Section Document.
Context {ydoc change D G : Type} `{!Primitives ydoc change} `{!NumberConversion}.
Variable opts : options ydoc D G.

(** [const doc = new yjs.Doc(); let state = 'off'; let undoManager;
    let listeners = []; let stateListeners = [setupUndoManagerOnReady]].
    [stateListeners] holds the listeners added after the built-in one. *)
Definition initial (sel : EditorSelection) : session ydoc change :=
  SessionState newDoc Off None [] [] sel.

Definition with_doc (d : ydoc) (s : session ydoc change) : session ydoc change :=
  SessionState d (state s) (undoManager s) (listeners s) (stateListeners s)
    (editorSelection s).
Definition with_undoManager (um : option (UndoManager change))
    (s : session ydoc change) : session ydoc change :=
  SessionState (doc s) (state s) um (listeners s) (stateListeners s)
    (editorSelection s).
Definition with_editorSelection (sel : EditorSelection)
    (s : session ydoc change) : session ydoc change :=
  SessionState (doc s) (state s) (undoManager s) (listeners s) (stateListeners s) sel.

(** Apply [f] to the last element of an array. *)
Fixpoint alter_last {X : Type} (f : X → X) (l : list X) : list X :=
  match l with
  | [] => []
  | [x] => [f x]
  | x :: l' => x :: alter_last f l'
  end.

(** The ['stack-item-added'] handler: attach the current selection to the
    new item. *)
Definition onStackItemAdded (selection : EditorSelection)
    (item : stackItem change) : stackItem change :=
  StackItem (item_change item) (Some selection).

(** The ['stack-item-popped'] handler: the selection handed to
    [setSelection], if any. [um] is the undo manager at the time of the
    event, [item] is [event.stackItem]. *)
Definition onStackItemPopped (type : direction) (item : stackItem change)
    (um : option (UndoManager change)) : option EditorSelection :=
  let selectionReferenceItem :=
    match type with
    | Undo => um ≫= (λ m, last (undoStack m))
    | Redo => Some item
    end in
  let selection := selectionReferenceItem ≫= caret_location in
  match selection with
  | Some sel => match sel_start sel with Some _ => Some sel | None => None end
  | None => None
  end.

(** [setupUndoManagerOnReady], the first state listener. *)
Definition setupUndoManagerOnReady (newState : connState)
    (um : option (UndoManager change)) : option (UndoManager change) :=
  match newState, um with
  | On, None => Some (Manager [] [])
  | _, _ => um
  end.

(** [setState(newState)]. *)
Definition setState (newState : connState) (s : session ydoc change)
  : session ydoc change * list (effect G) :=
  (SessionState (doc s) newState (setupUndoManagerOnReady newState (undoManager s))
     (listeners s) (stateListeners s) (editorSelection s),
   map (λ l, StateChanged l newState) (stateListeners s)).

Definition syncUpdateMessage (u : list Byte.byte) : message :=
  Message "yjs1" "syncUpdate" None None None None (Some (encodeArray u)).

(** The message sent by [sync(destination, isReply)]. *)
Definition syncMessage (s : session ydoc change) (dest : option string)
    (reply : option bool) : message :=
  Message "yjs1" "sync1" (Some (identity opts)) dest reply
    (Some (encodeArray (encodeStateVector (doc s)))) None.

(** The message sent in answer to a ['sync1'] carrying [sv]. *)
Definition sync2Message (s : session ydoc change) (sv : string)
    (dest : option string) : message :=
  Message "yjs1" "sync2" None dest None None
    (Some (encodeArray (encodeStateAsUpdate (doc s) (decodeArray sv)))).

(** The handler registered with [doc.on( 'update', ... )]: the effects and
    the exception raised by [getData], if any. *)
Definition onUpdate (s : session ydoc change) (u : list Byte.byte) (o : txOrigin)
  : list (effect G) * option string :=
  let isLocalOrigin :=
    bool_decide (o = OriginValue (Some (identity opts)))
    || bool_decide (o = OriginUndoManager) in
  let sent := if isLocalOrigin && bool_decide (state s = On)
              then [Sent (syncUpdateMessage u)] else [] in
  if decide (o = OriginValue (Some (identity opts))) then (sent, None)
  else match opt_getData opts (doc s) with
       | Ok newData => (sent ++ map (λ l, RemoteData l newData) (listeners s), None)
       | Throw e => (sent, Some e)
       | OutOfFuel => (sent, Some "RangeError")
       end.

(** The end of a transaction with origin [o] that took the document from
    [before] to [doc s]: the undo manager, which tracks this client's
    identity, captures it and its ['stack-item-added'] handler runs; then
    the update event, if any, is dispatched. *)
Definition afterTransaction (o : txOrigin) (before : ydoc) (s : session ydoc change)
  : outcome ydoc change G :=
  let um :=
    match undoManager s with
    | Some um =>
        if decide (o = OriginValue (Some (identity opts))) then
          let '(um1, added) := captureTransaction um before (doc s) in
          Some (if added
                then Manager (alter_last (onStackItemAdded (editorSelection s))
                                (undoStack um1)) (redoStack um1)
                else um1)
        else Some um
    | None => None
    end in
  let s1 := with_undoManager um s in
  match transactionUpdate before (doc s) with
  | None => Outcome s1 [] None
  | Some u => let '(e, x) := onUpdate s1 u o in Outcome s1 e x
  end.

(** [applyDataChanges(data)]. *)
Definition applyDataChanges (data : D) (s : session ydoc change)
  : outcome ydoc change G :=
  if decide (state s ≠ On) then Outcome s [] (Some "wrong state")
  else afterTransaction (OriginValue (Some (identity opts))) (doc s)
         (with_doc (opt_applyDataChanges opts (doc s) data) s).

(** [connect()]. *)
Definition connect (s : session ydoc change) : outcome ydoc change G :=
  if decide (state s = On) then Outcome s [] (Some "wrong state")
  else let '(s1, e1) := setState Connecting s in
       Outcome s1 (e1 ++ [Sent (syncMessage s1 None None)]) None.

(** [disconnect()]. *)
Definition disconnect (s : session ydoc change) : outcome ydoc change G :=
  let '(s1, e1) := setState Off s in Outcome s1 e1 None.

(** [startSharing(data)]. *)
Definition startSharing (data : D) (s : session ydoc change)
  : outcome ydoc change G :=
  if decide (state s = On) then Outcome s [] (Some "wrong state")
  else let '(s1, e1) := setState On s in
       let o := applyDataChanges data s1 in
       Outcome (next o) (e1 ++ emitted o) (thrown o).

(** [yjs.applyUpdate( doc, decodeArray( content.update ), origin )]. A
    message without [update] makes [decodeArray] fail on [undefined]. *)
Definition applyRemoteUpdate (m : message) (s : session ydoc change)
  : outcome ydoc change G :=
  match update m with
  | None => Outcome s [] (Some "TypeError")
  | Some u =>
      afterTransaction (OriginValue (origin m)) (doc s)
        (with_doc (applyUpdate (doc s) (decodeArray u)) s)
  end.

(** [receiveMessage({ protocol, messageType, origin, ...content })]. *)
Definition receiveMessage (m : message) (s : session ydoc change)
  : outcome ydoc change G :=
  if decide (protocol m ≠ "yjs1") then Outcome s [] (Some "wrong protocol")
  else if decide (messageType m = "sync1") then
    if truthy_string (destination m)
       && bool_decide (destination m ≠ Some (identity opts))
    then Outcome s [] None
    else match stateVector m with
         | None => Outcome s [] (Some "TypeError")
         | Some sv =>
             Outcome s
               (Sent (sync2Message s sv (origin m))
                :: (if negb (truthy_flag (isReply m))
                    then [Sent (syncMessage s (origin m) (Some true))]
                    else []))
               None
         end
  else if decide (messageType m = "sync2") then
    if decide (destination m ≠ Some (identity opts)) then Outcome s [] None
    else let o := applyRemoteUpdate m s in
         match thrown o with
         | Some _ => o
         | None => let '(s1, e1) := setState On (next o) in
                   Outcome s1 (emitted o ++ e1) None
         end
  else if decide (messageType m = "syncUpdate") then applyRemoteUpdate m s
  else Outcome s [] None.

(** [onRemoteDataChange(listener)] and the disposer it returns. *)
Definition onRemoteDataChange (l : nat) (s : session ydoc change)
  : session ydoc change :=
  SessionState (doc s) (state s) (undoManager s) (listeners s ++ [l])
    (stateListeners s) (editorSelection s).
Definition removeRemoteDataChange (l : nat) (s : session ydoc change)
  : session ydoc change :=
  SessionState (doc s) (state s) (undoManager s)
    (filter (λ l', l' ≠ l) (listeners s)) (stateListeners s) (editorSelection s).

(** [onStateChange(listener)] and the disposer it returns. *)
Definition onStateChange (l : nat) (s : session ydoc change)
  : session ydoc change :=
  SessionState (doc s) (state s) (undoManager s) (listeners s)
    (stateListeners s ++ [l]) (editorSelection s).
Definition removeStateChange (l : nat) (s : session ydoc change)
  : session ydoc change :=
  SessionState (doc s) (state s) (undoManager s) (listeners s)
    (filter (λ l', l' ≠ l) (stateListeners s)) (editorSelection s).

(** [getState()]. *)
Definition getState (s : session ydoc change) : connState := state s.

(** [undoManager.hasUndo()]: [( undoManager?.undoStack.length ?? 0 ) > 1]. *)
Definition hasUndo (s : session ydoc change) : bool :=
  bool_decide (1 < default 0 (length ∘ undoStack <$> undoManager s)).

(** [undoManager.hasRedo()]: [!! undoManager?.redoStack.length]. *)
Definition hasRedo (s : session ydoc change) : bool :=
  match undoManager s with
  | Some um => bool_decide (length (redoStack um) ≠ 0)
  | None => false
  end.

(** The events of one [undo()] or [redo()] of the primitive undo manager,
    dispatched to the handlers of the session: ['stack-item-added'] for
    the reverse item, the update event, then ['stack-item-popped']. *)
Definition dispatchPop (type : direction) (o : popOutcome ydoc change)
    (s : session ydoc change) : outcome ydoc change G :=
  let m := pop_manager o in
  let um :=
    if pop_added o then
      match type with
      | Undo => Manager (undoStack m)
                  (alter_last (onStackItemAdded (editorSelection s)) (redoStack m))
      | Redo => Manager
                  (alter_last (onStackItemAdded (editorSelection s)) (undoStack m))
                  (redoStack m)
      end
    else m in
  let s1 := with_undoManager (Some um) (with_doc (pop_doc o) s) in
  let '(e1, x) := match pop_update o with
                  | Some u => onUpdate s1 u OriginUndoManager
                  | None => ([], None)
                  end in
  match x, pop_item o with
  | None, Some item =>
      match onStackItemPopped type item (Some um) with
      | Some sel => Outcome (with_editorSelection sel s1) (e1 ++ [SelectionSet sel]) None
      | None => Outcome s1 e1 None
      end
  | _, _ => Outcome s1 e1 x
  end.

(** [undoManager.undo()]: [undoManager?.undo()]. *)
Definition undo (s : session ydoc change) : outcome ydoc change G :=
  match undoManager s with
  | Some um => dispatchPop Undo (popUndo um (doc s)) s
  | None => Outcome s [] None
  end.

(** [undoManager.redo()]: [undoManager?.redo()]. *)
Definition redo (s : session ydoc change) : outcome ydoc change G :=
  match undoManager s with
  | Some um => dispatchPop Redo (popRedo um (doc s)) s
  | None => Outcome s [] None
  end.

(** The calls a client of the session can make, and the user moving the
    caret in the editor. *)
Inductive call :=
| ApplyDataChanges (data : D)
| Connect
| Disconnect
| StartSharing (data : D)
| ReceiveMessage (m : message)
| OnRemoteDataChange (l : nat)
| RemoveRemoteDataChange (l : nat)
| OnStateChange (l : nat)
| RemoveStateChange (l : nat)
| CallUndo
| CallRedo
| MoveCaret (sel : EditorSelection).

Definition perform (c : call) (s : session ydoc change) : outcome ydoc change G :=
  match c with
  | ApplyDataChanges data => applyDataChanges data s
  | Connect => connect s
  | Disconnect => disconnect s
  | StartSharing data => startSharing data s
  | ReceiveMessage m => receiveMessage m s
  | OnRemoteDataChange l => Outcome (onRemoteDataChange l s) [] None
  | RemoveRemoteDataChange l => Outcome (removeRemoteDataChange l s) [] None
  | OnStateChange l => Outcome (onStateChange l s) [] None
  | RemoveStateChange l => Outcome (removeStateChange l s) [] None
  | CallUndo => undo s
  | CallRedo => redo s
  | MoveCaret sel => Outcome (with_editorSelection sel s) [] None
  end.

(** A history of calls, with the connection state observed after each.
    A call that throws leaves the session as it was when the exception
    was raised. *)
Fixpoint history (cs : list call) (s : session ydoc change)
  : session ydoc change * list connState :=
  match cs with
  | [] => (s, [state s])
  | c :: cs' =>
      let '(s', sts) := history cs' (next (perform c s)) in
      (s', state s :: sts)
  end.

End Document.
End Session.

(* ===================================================================== *)
(** * The document session without undo manager *)
(* ===================================================================== *)

(** [createDocument] as it stands in
    [src/components/collaborative-editing/use-yjs/yjs-doc.js], beside
    [index.js]: it takes the four options [identity],
    [applyDataChanges], [getData] and [sendMessage], closes over [doc],
    [state], [listeners] and [stateListeners], and has neither an undo
    manager nor a selection. Its update handler, [setState], [sync] and
    the methods below read as in the version modelled by [Session]. The
    methods modelled are those [initYDoc] and its callback
    [applyChangesToYjs] call. *)
Module YjsDoc.
Import Wire Session.

(** The variables closed over by [createDocument]. *)
Record document (ydoc : Type) := DocumentState {
  doc : ydoc;
  state : connState;
  listeners : list nat;
  stateListeners : list nat;
}.
Arguments DocumentState {ydoc} _ _ _ _.
Arguments doc {ydoc} _.
Arguments state {ydoc} _.
Arguments listeners {ydoc} _.
Arguments stateListeners {ydoc} _.

(** The result of a call: the session afterwards, the effects in order,
    and the exception that left the call, if any. *)
Record result (ydoc G : Type) := Result {
  next : document ydoc;
  emitted : list (effect G);
  thrown : option string;
}.
Arguments Result {ydoc G} _ _ _.
Arguments next {ydoc G} _.
Arguments emitted {ydoc G} _.
Arguments thrown {ydoc G} _.

Section Document.
Context {ydoc change D G : Type} `{!Primitives ydoc change} `{!NumberConversion}.
Variable opts : options ydoc D G.

(** [const doc = new yjs.Doc(); let state = 'off'; let listeners = [];
    let stateListeners = []]. *)
Definition initial : document ydoc := DocumentState newDoc Off [] [].

Definition with_doc (d : ydoc) (s : document ydoc) : document ydoc :=
  DocumentState d (state s) (listeners s) (stateListeners s).

(** [setState(newState)]. *)
Definition setState (newState : connState) (s : document ydoc)
  : document ydoc * list (effect G) :=
  (DocumentState (doc s) newState (listeners s) (stateListeners s),
   map (λ l, StateChanged l newState) (stateListeners s)).

(** The message sent by [sync(destination, isReply)]. *)
Definition syncMessage (s : document ydoc) (dest : option string)
    (reply : option bool) : message :=
  Message "yjs1" "sync1" (Some (identity opts)) dest reply
    (Some (encodeArray (encodeStateVector (doc s)))) None.

(** The handler registered with [doc.on( 'update', ... )]: the effects and
    the exception raised by [getData], if any. *)
Definition onUpdate (s : document ydoc) (u : list Byte.byte) (o : txOrigin)
  : list (effect G) * option string :=
  let isLocalOrigin :=
    bool_decide (o = OriginValue (Some (identity opts)))
    || bool_decide (o = OriginUndoManager) in
  let sent := if isLocalOrigin && bool_decide (state s = On)
              then [Sent (syncUpdateMessage u)] else [] in
  if decide (o = OriginValue (Some (identity opts))) then (sent, None)
  else match opt_getData opts (doc s) with
       | Ok newData => (sent ++ map (λ l, RemoteData l newData) (listeners s), None)
       | Throw e => (sent, Some e)
       | OutOfFuel => (sent, Some "RangeError")
       end.

(** The end of a transaction with origin [o] that took the document from
    [before] to [doc s]: the update event, if any, is dispatched. *)
Definition afterTransaction (o : txOrigin) (before : ydoc) (s : document ydoc)
  : result ydoc G :=
  match transactionUpdate before (doc s) with
  | None => Result s [] None
  | Some u => let '(e, x) := onUpdate s u o in Result s e x
  end.

(** [applyDataChanges(data)]. *)
Definition applyDataChanges (data : D) (s : document ydoc) : result ydoc G :=
  if decide (state s ≠ On) then Result s [] (Some "wrong state")
  else afterTransaction (OriginValue (Some (identity opts))) (doc s)
         (with_doc (opt_applyDataChanges opts (doc s) data) s).

(** [connect()]. *)
Definition connect (s : document ydoc) : result ydoc G :=
  if decide (state s = On) then Result s [] (Some "wrong state")
  else let '(s1, e1) := setState Connecting s in
       Result s1 (e1 ++ [Sent (syncMessage s1 None None)]) None.

(** [startSharing(data)]. *)
Definition startSharing (data : D) (s : document ydoc) : result ydoc G :=
  if decide (state s = On) then Result s [] (Some "wrong state")
  else let '(s1, e1) := setState On s in
       let o := applyDataChanges data s1 in
       Result (next o) (e1 ++ emitted o) (thrown o).

(** [getState()]. *)
Definition getState (s : document ydoc) : connState := state s.

End Document.
End YjsDoc.

(* ===================================================================== *)
(** * The editor-facing wiring *)
(* ===================================================================== *)

Module Editor.
Import Codec Session Wire YjsDoc.

(** The 'post' map of a document as the codec sees it: its content, and
    the document after a transaction body performed the given writes and
    left the map with the given content. *)
Class PostMap (A ydoc : Type) `{EqDecision A} := {
  postMap : ydoc → postDoc (A:=A);
  commitPost : ydoc → postDoc (A:=A) → list (write (A:=A)) → ydoc;
}.

Section InitYDoc.
Context {A ydoc change : Type} `{EqDecision A}.
Context `{!Primitives ydoc change} `{!NumberConversion} `{!PostMap A ydoc}.
Variable identity : string.
Variable fuel : nat.

(** The options [initYDoc] passes to [createDocument]:
    [applyDataChanges: updatePostDoc] and [getData: postDocToObject]
    (and [sendMessage], which appears as the effect [Sent]). It passes
    no [getSelection] and no [setSelection]: the [createDocument] that
    takes exactly these options is the one of [YjsDoc], and the session
    [initYDoc] obtains is a [YjsDoc.document]. *)
Definition documentOptions : options ydoc (post (A:=A)) (postObject (A:=A)) :=
  Options identity
    (λ doc newPost,
       let '(p, w) := updatePostDoc (postMap doc) newPost in commitPost doc p w)
    (λ doc, postDocToObject fuel (postMap doc)).

(** [applyChangesToYjs(blocks)], the callback through which the editor
    submits its local changes. *)
Definition applyChangesToYjs (blocks : list (block (A:=A)))
    (s : document ydoc) : result ydoc (postObject (A:=A)) :=
  if decide (getState s ≠ On) then Result s [] None
  else applyDataChanges documentOptions (Post None (Some blocks) None) s.

(** The branch taken once the transport has connected: the first client
    of a channel shares the editor's blocks,
    [doc.startSharing( { title: '', blocks: getBlocks() } )]; any other
    client calls [doc.connect()]. *)
Definition enterChannel (isFirstInChannel : bool) (blocks : list (block (A:=A)))
    (s : document ydoc) : result ydoc (postObject (A:=A)) :=
  if isFirstInChannel
  then startSharing documentOptions (Post (Some "") (Some blocks) None) s
  else connect documentOptions s.

End InitYDoc.
End Editor.

(* ===================================================================== *)
(** * Properties of the diff engine *)
(* ===================================================================== *)

Module DiffProps.
Import Diff.

Lemma common_prefix_le_l a b : common_prefix a b ≤ length a.
Proof.
  revert b. induction a as [|x a IH]; intros [|y b]; simpl; try lia.
  case_decide; [specialize (IH b)|]; lia.
Qed.

Lemma common_prefix_le_r a b : common_prefix a b ≤ length b.
Proof.
  revert b. induction a as [|x a IH]; intros [|y b]; simpl; try lia.
  case_decide; [specialize (IH b)|]; lia.
Qed.

Lemma common_prefix_take a b :
  take (common_prefix a b) a = take (common_prefix a b) b.
Proof.
  revert b. induction a as [|x a IH]; intros [|y b]; simpl; try done.
  case_decide; simpl; [|done]. subst. by rewrite IH.
Qed.

Lemma common_prefix_refl a : common_prefix a a = length a.
Proof. induction a as [|x a IH]; simpl; [done|]. rewrite decide_True; auto. Qed.

Lemma common_prefix_nil_l b : common_prefix [] b = 0.
Proof. done. Qed.

Lemma common_suffix_le_l a b : common_suffix a b ≤ length a.
Proof.
  unfold common_suffix. etrans; [apply common_prefix_le_l|]. by rewrite length_reverse.
Qed.

Lemma common_suffix_le_r a b : common_suffix a b ≤ length b.
Proof.
  unfold common_suffix. etrans; [apply common_prefix_le_r|]. by rewrite length_reverse.
Qed.

(** The last [common_suffix a b] elements of [a] and of [b] coincide. *)
Lemma common_suffix_drop a b :
  drop (length a - common_suffix a b) a = drop (length b - common_suffix a b) b.
Proof.
  pose proof (common_prefix_take (reverse a) (reverse b)) as Ht.
  fold (common_suffix a b) in Ht. rewrite !take_reverse in Ht.
  apply (f_equal reverse) in Ht. by rewrite !reverse_involutive in Ht.
Qed.

(** The range removed by the diff lies within the old sequence. *)
Lemma simpleDiffArray_in_range a b :
  index (simpleDiffArray a b) + remove (simpleDiffArray a b) ≤ length a.
Proof.
  unfold simpleDiffArray; simpl.
  pose proof (common_prefix_le_l a b). lia.
Qed.

(** Diff correctness: removing and inserting as the diff says turns the
    old sequence into the new one. *)
Lemma simpleDiffArray_correct a b : apply_diff (simpleDiffArray a b) a = b.
Proof.
  unfold apply_diff, simpleDiffArray; simpl.
  set (l := common_prefix a b).
  set (r := common_suffix (drop l a) (drop l b)).
  pose proof (common_suffix_drop (drop l a) (drop l b)) as Hd. fold r in Hd.
  rewrite !length_drop, !drop_drop in Hd.
  rewrite Hd. unfold l at 1. rewrite common_prefix_take. fold l.
  rewrite <- drop_drop, take_drop. apply take_drop.
Qed.

(** Re-diffing an unchanged sequence: nothing is removed or inserted. *)
Lemma simpleDiffArray_same a :
  simpleDiffArray a a = ArrayDiff (length a) 0 [].
Proof.
  unfold simpleDiffArray. rewrite common_prefix_refl.
  rewrite drop_all. unfold common_suffix; simpl.
  f_equal; [lia|]. by rewrite Nat.sub_diag.
Qed.

(** Diffing against the empty order list inserts everything at 0. *)
Lemma simpleDiffArray_nil_l b : simpleDiffArray [] b = ArrayDiff 0 0 b.
Proof.
  unfold simpleDiffArray; simpl. unfold common_suffix; simpl.
  f_equal. rewrite Nat.sub_0_r, Nat.sub_0_r. apply firstn_all.
Qed.

(** C7 (amended). With a first element that differs from the new first
    element and a last element that differs from the new last element,
    the diff of [b1,b2,b3] against [b2,b3,b1] has an empty prefix and an
    empty suffix: index 0, three removals, and the whole new sequence
    inserted. *)
Theorem simpleDiffArray_rotation (b1 b2 b3 : string) :
  b1 ≠ b2 → b3 ≠ b1 →
  simpleDiffArray [b1; b2; b3] [b2; b3; b1] = ArrayDiff 0 3 [b2; b3; b1].
Proof.
  intros H12 H31. unfold simpleDiffArray. simpl.
  rewrite decide_False by done. simpl.
  unfold common_suffix. simpl. rewrite decide_False by done. done.
Qed.

Lemma simpleDiffArray_rotation_witness :
  simpleDiffArray ["b1"; "b2"; "b3"] ["b2"; "b3"; "b1"]
  = ArrayDiff 0 3 ["b2"; "b3"; "b1"].
Proof. apply (simpleDiffArray_rotation "b1" "b2" "b3"); discriminate. Defined.

(** C7 (as stated, refuted). On [b1,b2,b3] and [b2,b3,b1] the diff is not
    [{index: 0, remove: 1, insert: [b2, b3]}]; that edit would not even
    produce the new sequence. *)
Lemma simpleDiffArray_rotation_not_minimal :
  simpleDiffArray ["b1"; "b2"; "b3"] ["b2"; "b3"; "b1"]
    ≠ ArrayDiff 0 1 ["b2"; "b3"]
  ∧ apply_diff (ArrayDiff 0 1 ["b2"; "b3"]) ["b1"; "b2"; "b3"]
    ≠ ["b2"; "b3"; "b1"].
Proof. split; vm_compute; discriminate. Qed.

End DiffProps.

(* ===================================================================== *)
(** * Properties of the textual byte-array encoding *)
(* ===================================================================== *)

Module WireProps.
Import Wire.

Fixpoint comma_free (s : string) : bool :=
  match s with
  | EmptyString => true
  | String c s' => negb (bool_decide (c = ","%char)) && comma_free s'
  end.

Lemma split_comma_comma_free p : comma_free p = true → split_comma p = [p].
Proof.
  induction p as [|c p IH]; simpl; [done|].
  intros [Hc Hp]%andb_true_iff. apply negb_true_iff, bool_decide_eq_false in Hc.
  rewrite decide_False by done. by rewrite IH.
Qed.

Lemma split_comma_app p rest :
  comma_free p = true →
  split_comma (p +:+ "," +:+ rest) = p :: split_comma rest.
Proof.
  induction p as [|c p IH]; simpl; [done|].
  intros [Hc Hp]%andb_true_iff. apply negb_true_iff, bool_decide_eq_false in Hc.
  rewrite decide_False by done. by rewrite IH.
Qed.

(** Splitting undoes joining, provided there is at least one piece and
    no piece contains a comma. *)
Lemma split_join pieces :
  pieces ≠ [] → Forall (λ p, comma_free p = true) pieces →
  split_comma (join_comma pieces) = pieces.
Proof.
  induction pieces as [|p ps IH]; [done|]. intros _ Hall.
  apply Forall_cons in Hall as [Hp Hps].
  destruct ps as [|q ps]; simpl.
  - by apply split_comma_comma_free.
  - rewrite split_comma_app by done. f_equal. by apply IH.
Qed.

Lemma byte_to_string_comma_free b : comma_free (byte_to_string b) = true.
Proof. destruct b; reflexivity. Qed.

Section Decode.
Context `{NumberConversion}.

(** The decimal rendering of a byte converts back to that byte. *)
Lemma piece_to_uint8_byte_to_string b : piece_to_uint8 (byte_to_string b) = b.
Proof. destruct b; reflexivity. Qed.

(** C10. [decodeArray] after [encodeArray] returns every non-empty byte
    sequence unchanged, but not the empty one: it is encoded as the empty
    string, which decodes to the one-element sequence [0]. *)
Theorem decodeArray_encodeArray :
  (∀ array, array ≠ [] → decodeArray (encodeArray array) = array)
  ∧ encodeArray [] = ""
  ∧ decodeArray "" = [Byte.x00]
  ∧ decodeArray (encodeArray []) ≠ [].
Proof.
  split; [|done].
  intros array Hne. unfold decodeArray, encodeArray.
  rewrite split_join.
  - rewrite map_map. rewrite <- (map_id array) at 2.
    apply map_ext. intros b. apply piece_to_uint8_byte_to_string.
  - by destruct array.
  - apply Forall_map, Forall_forall. intros b _. apply byte_to_string_comma_free.
Qed.

End Decode.

Lemma decodeArray_encodeArray_witness :
  @decodeArray (λ _, Byte.x00) (encodeArray [Byte.x07; Byte.xff]) = [Byte.x07; Byte.xff].
Proof.
  apply (proj1 (@decodeArray_encodeArray (λ _, Byte.x00))). discriminate.
Defined.

End WireProps.

(* ===================================================================== *)
(** * Properties of the document session *)
(* ===================================================================== *)

Module SessionProps.
Import Wire Session.

Section Document.
Context {ydoc change D G : Type} `{!Primitives ydoc change} `{!NumberConversion}.
Variable opts : options ydoc D G.

Implicit Types (s : session ydoc change) (m : message).

(** ** State transitions and the undo manager *)

Lemma setState_state st s : state (setState (G:=G) st s).1 = st.
Proof. done. Qed.

Lemma setState_doc st s : doc (setState (G:=G) st s).1 = doc s.
Proof. done. Qed.

Lemma afterTransaction_state o before s :
  state (next (afterTransaction opts o before s)) = state s.
Proof.
  unfold afterTransaction. destruct (transactionUpdate before (doc s)); [|done].
  by destruct (onUpdate _ _ _ _).
Qed.

Lemma afterTransaction_doc o before s :
  doc (next (afterTransaction opts o before s)) = doc s.
Proof.
  unfold afterTransaction. destruct (transactionUpdate before (doc s)); [|done].
  by destruct (onUpdate _ _ _ _).
Qed.

Lemma afterTransaction_no_manager o before s :
  undoManager s = None →
  undoManager (next (afterTransaction opts o before s)) = None.
Proof.
  intros Hum. unfold afterTransaction. rewrite Hum.
  destruct (transactionUpdate before (doc s)); [|done].
  by destruct (onUpdate _ _ _ _).
Qed.

Lemma applyDataChanges_state data s :
  state (next (applyDataChanges opts data s)) = state s.
Proof.
  unfold applyDataChanges. case_decide; [done|]. by rewrite afterTransaction_state.
Qed.

Lemma applyRemoteUpdate_state m s :
  state (next (applyRemoteUpdate opts m s)) = state s.
Proof.
  unfold applyRemoteUpdate. destruct (update m); [|done].
  by rewrite afterTransaction_state.
Qed.

Lemma applyRemoteUpdate_no_manager m s :
  undoManager s = None →
  undoManager (next (applyRemoteUpdate opts m s)) = None.
Proof.
  intros Hum. unfold applyRemoteUpdate. destruct (update m); [|done].
  by apply afterTransaction_no_manager.
Qed.

(** The doc-level method refuses a change outside ['on'] with an
    exception; only the editor-facing wrapper is silent. *)
Lemma applyDataChanges_wrong_state data s :
  state s ≠ On →
  applyDataChanges opts data s = Outcome s [] (Some "wrong state").
Proof. intros Hst. unfold applyDataChanges. by rewrite decide_True. Qed.

(** A call that does not end in state ['on'] does not construct the undo
    manager. *)
Lemma perform_no_manager c s :
  undoManager s = None →
  state (next (perform opts c s)) ≠ On →
  undoManager (next (perform opts c s)) = None.
Proof.
  intros Hum. destruct c; simpl; try done.
  - unfold applyDataChanges. case_decide; [done|].
    intros _. by apply afterTransaction_no_manager.
  - unfold connect. by case_decide.
  - unfold startSharing. case_decide; [done|]. simpl.
    by rewrite applyDataChanges_state.
  - unfold receiveMessage.
    destruct (decide (protocol m ≠ "yjs1")); [done|].
    destruct (decide (messageType m = "sync1")).
    { destruct (_ && _); [done|]. by destruct (stateVector m). }
    destruct (decide (messageType m = "sync2")).
    { destruct (decide (destination m ≠ _)); [done|].
      destruct (thrown (applyRemoteUpdate opts m s)) eqn:Hth; [|done].
      intros _. by apply applyRemoteUpdate_no_manager. }
    destruct (decide (messageType m = "syncUpdate")); [|done].
    intros _. by apply applyRemoteUpdate_no_manager.
  - unfold undo. by rewrite Hum.
  - unfold redo. by rewrite Hum.
Qed.

Lemma history_no_manager cs s :
  undoManager s = None →
  On ∉ (history opts cs s).2 →
  undoManager (history opts cs s).1 = None.
Proof.
  revert s. induction cs as [|c cs IH]; intros s Hum Hon; simpl in *; [done|].
  destruct (history opts cs (next (perform opts c s))) as [s' sts] eqn:Hh.
  simpl in *. apply not_elem_of_cons in Hon as [_ Hsts].
  specialize (IH (next (perform opts c s))). rewrite Hh in IH. simpl in IH.
  apply IH; [|done]. apply perform_no_manager; [done|].
  intros Heq. apply Hsts.
  destruct cs; simpl in Hh.
  - injection Hh as <- <-. rewrite Heq. set_solver.
  - destruct (history opts cs _) as [s'' sts'']. injection Hh as <- <-.
    rewrite Heq. set_solver.
Qed.

(** C9. After any history of calls on a fresh session during which the
    connection state was never ['on'], [hasUndo()] and [hasRedo()] answer
    false, and [undo()] and [redo()] return normally, leaving the session
    (document and connection state included) as it was and emitting
    nothing. *)
Theorem undo_manager_inert_before_on cs sel :
  On ∉ (history opts cs (initial sel)).2 →
  let s := (history opts cs (initial sel)).1 in
  hasUndo s = false ∧ hasRedo s = false
  ∧ undo opts s = Outcome s [] None
  ∧ redo opts s = Outcome s [] None.
Proof.
  intros Hon s.
  assert (undoManager s = None) as Hum by (by apply history_no_manager).
  unfold hasUndo, hasRedo, undo, redo. rewrite Hum. done.
Qed.

(** ** Receiving messages *)

(** C5 (amended). A message whose protocol tag is not ['yjs1'] makes
    [receiveMessage] throw ['wrong protocol'] to its caller; the session
    (document, connection state, listeners, undo manager) is unchanged and
    nothing is emitted, so later calls behave as if the message had not
    arrived. *)
Theorem receiveMessage_wrong_protocol m s :
  protocol m ≠ "yjs1" →
  receiveMessage opts m s = Outcome s [] (Some "wrong protocol").
Proof. intros Hp. unfold receiveMessage. by rewrite decide_True. Qed.

(** A ['sync1'] message is addressed elsewhere when its destination is a
    non-empty string other than this client's identity. *)
Definition addressed_elsewhere (m : message) : Prop :=
  ∃ d, destination m = Some d ∧ d ≠ "" ∧ d ≠ identity opts.

Lemma addressed_elsewhere_test m :
  truthy_string (destination m) && bool_decide (destination m ≠ Some (identity opts))
  = true ↔ addressed_elsewhere m.
Proof.
  unfold addressed_elsewhere, truthy_string. split.
  - intros [Ht Hd]%andb_true_iff. destruct (destination m) as [d|]; [|done].
    apply bool_decide_eq_true in Ht, Hd. exists d. split_and!; congruence.
  - intros (d & -> & Hne & Hid). apply andb_true_iff.
    split; apply bool_decide_eq_true; congruence.
Qed.

(** C4 (amended). For a ['sync1'] message carrying a state vector: if its
    destination is a non-empty string different from this client's
    identity, nothing is emitted; otherwise (no destination, the empty
    string, or this client) exactly one ['sync2'] addressed to the sender
    is emitted, carrying the update computed against the sender's state
    vector, followed by this client's own ['sync1'] addressed to the
    sender with the reply flag set exactly when the incoming request's
    [isReply] is not truthy. In both cases the session is unchanged. *)
Theorem receiveMessage_sync1 m s sv :
  protocol m = "yjs1" → messageType m = "sync1" → stateVector m = Some sv →
  let o := receiveMessage opts m s in
  let response :=
    Message "yjs1" "sync2" None (origin m) None None
      (Some (encodeArray (encodeStateAsUpdate (doc s) (decodeArray sv)))) in
  let request :=
    Message "yjs1" "sync1" (Some (identity opts)) (origin m) (Some true)
      (Some (encodeArray (encodeStateVector (doc s)))) None in
  next o = s ∧ thrown o = None
  ∧ (addressed_elsewhere m → emitted o = [])
  ∧ (¬ addressed_elsewhere m →
     emitted o = Sent response
                 :: (if truthy_flag (isReply m) then [] else [Sent request])).
Proof.
  intros Hp Ht Hsv o response request. subst o. unfold receiveMessage.
  rewrite decide_False by (intros Hn; by apply Hn). rewrite decide_True by done.
  destruct (truthy_string _ && _) eqn:Htest.
  - apply addressed_elsewhere_test in Htest. by split_and!.
  - rewrite Hsv. simpl. split_and!; try done.
    + intros Hel%addressed_elsewhere_test. congruence.
    + intros _. by destruct (truthy_flag (isReply m)).
Qed.

(** ** Restoring the selection *)


End Document.

(** ** A minimal primitive layer, for concrete instances *)

(** A document that is a counter of applied updates; its undo manager
    never captures anything and its number conversion is constant. *)
#[local] Instance counterPrimitives : Primitives nat unit := {|
  newDoc := 0;
  encodeStateVector := λ d, [];
  encodeStateAsUpdate := λ d sv, [];
  applyUpdate := λ d u, S d;
  transactionUpdate := λ before after,
    if decide (before = after) then None else Some [];
  captureTransaction := λ um before after, (um, false);
  popUndo := λ um d, PopOutcome um d None false None;
  popRedo := λ um d, PopOutcome um d None false None;
|}.

#[local] Instance zeroConversion : NumberConversion := λ _, Byte.x00.

Definition counterOptions : options nat unit nat :=
  Options "me" (λ d _, S d) (λ d, Ok d).

Definition noSelection : EditorSelection := Selection None None.

Definition caretAt (id : string) (n : Z) : EditorSelection :=
  Selection (Some (Caret id "content" n)) (Some (Caret id "content" n)).

Lemma undo_manager_inert_before_on_witness :
  let s := (history counterOptions
              [Connect; ReceiveMessage (Message "yjs1" "syncUpdate" None None None None (Some "1"));
               CallUndo; Disconnect] (initial noSelection)).1 in
  hasUndo s = false ∧ hasRedo s = false
  ∧ undo counterOptions s = Outcome s [] None
  ∧ redo counterOptions s = Outcome s [] None.
Proof.
  apply (undo_manager_inert_before_on counterOptions
           [Connect; ReceiveMessage (Message "yjs1" "syncUpdate" None None None None (Some "1"));
            CallUndo; Disconnect] noSelection).
  vm_compute. intros Hin. repeat (apply elem_of_cons in Hin as [Hin|Hin]; [discriminate|]).
  by apply elem_of_nil in Hin.
Defined.

Lemma receiveMessage_wrong_protocol_witness :
  receiveMessage counterOptions
    (Message "yjs2" "syncUpdate" None None None None (Some "1")) (initial noSelection)
  = Outcome (initial noSelection) [] (Some "wrong protocol").
Proof.
  apply (receiveMessage_wrong_protocol counterOptions
           (Message "yjs2" "syncUpdate" None None None None (Some "1"))
           (initial noSelection)).
  simpl. discriminate.
Defined.

(** C5 (as stated, refuted). A message tagged ['yjs2'] is not dropped
    silently: [receiveMessage] leaves with an exception. *)
Lemma receiveMessage_wrong_protocol_throws :
  thrown (receiveMessage counterOptions
            (Message "yjs2" "syncUpdate" None None None None (Some "1"))
            (initial noSelection))
  = Some "wrong protocol".
Proof. reflexivity. Qed.

Lemma receiveMessage_sync1_witness :
  let m := Message "yjs1" "sync1" (Some "peer") None None (Some "0") None in
  let s := initial noSelection in
  let o := receiveMessage counterOptions m s in
  let response :=
    Message "yjs1" "sync2" None (origin m) None None
      (Some (encodeArray (encodeStateAsUpdate (doc s) (decodeArray "0")))) in
  let request :=
    Message "yjs1" "sync1" (Some (identity counterOptions)) (origin m) (Some true)
      (Some (encodeArray (encodeStateVector (doc s)))) None in
  next o = s ∧ thrown o = None
  ∧ (addressed_elsewhere counterOptions m → emitted o = [])
  ∧ (¬ addressed_elsewhere counterOptions m →
     emitted o = Sent response
                 :: (if truthy_flag (isReply m) then [] else [Sent request])).
Proof.
  apply (receiveMessage_sync1 counterOptions
           (Message "yjs1" "sync1" (Some "peer") None None (Some "0") None)
           (initial noSelection) "0"); reflexivity.
Defined.

(** C4 (as stated, refuted). A ['sync1'] whose destination is the empty
    string carries a destination different from the identity ["me"], yet
    it is answered: a ['sync2'] and this client's own ['sync1'] are
    emitted. *)
Lemma receiveMessage_sync1_empty_destination :
  let m := Message "yjs1" "sync1" (Some "peer") (Some "") None (Some "0") None in
  destination m ≠ Some (identity counterOptions)
  ∧ emitted (receiveMessage counterOptions m (initial noSelection))
    = [Sent (Message "yjs1" "sync2" None (Some "peer") None None (Some ""));
       Sent (Message "yjs1" "sync1" (Some "me") (Some "peer") (Some true) (Some "") None)].
Proof. split; [discriminate|reflexivity]. Qed.


End SessionProps.

(* ===================================================================== *)
(** * Properties of the editor-facing wiring *)
(* ===================================================================== *)

Module EditorProps.
Import Codec Wire Session YjsDoc Editor.

(** The broadcast of a transaction's update, if it produced one. *)
Definition broadcast {G : Type} (update : option (list Byte.byte))
  : list (effect G) :=
  match update with
  | Some u => [Sent (syncUpdateMessage u)]
  | None => []
  end.

Section Document.
Context {ydoc change D G : Type} `{!Primitives ydoc change} `{!NumberConversion}.
Variable opts : options ydoc D G.

(** A transaction of this client in the session without undo manager:
    [getData] is not called, so nothing is thrown; the update, if any, is
    broadcast when the session is on. *)
Lemma document_transaction_local before (d : document ydoc) :
  let o := YjsDoc.afterTransaction opts (OriginValue (Some (identity opts)))
             before d in
  YjsDoc.next o = d
  ∧ YjsDoc.thrown o = None
  ∧ YjsDoc.emitted o
    = if bool_decide (YjsDoc.state d = On)
      then broadcast (transactionUpdate before (YjsDoc.doc d)) else [].
Proof.
  unfold YjsDoc.afterTransaction.
  destruct (transactionUpdate before (YjsDoc.doc d)); simpl;
    [|by destruct (bool_decide _)].
  unfold YjsDoc.onUpdate. rewrite decide_True by done.
  rewrite (bool_decide_eq_true_2 (OriginValue (Some (identity opts))
                                  = OriginValue (Some (identity opts)))) by done.
  simpl. by destruct (bool_decide (YjsDoc.state d = On)).
Qed.

(** [applyDataChanges] of the session without undo manager, while on. *)
Lemma document_applyDataChanges_on (data : D) (d : document ydoc) :
  YjsDoc.state d = On →
  let o := YjsDoc.applyDataChanges opts data d in
  let after := opt_applyDataChanges opts (YjsDoc.doc d) data in
  YjsDoc.doc (YjsDoc.next o) = after
  ∧ YjsDoc.state (YjsDoc.next o) = On
  ∧ YjsDoc.thrown o = None
  ∧ YjsDoc.emitted o = broadcast (transactionUpdate (YjsDoc.doc d) after).
Proof.
  intros Hon. cbv zeta. unfold YjsDoc.applyDataChanges.
  rewrite decide_False by (intros Hn; by apply Hn).
  destruct (document_transaction_local (YjsDoc.doc d)
              (YjsDoc.with_doc (opt_applyDataChanges opts (YjsDoc.doc d) data) d))
    as (-> & -> & ->).
  simpl. rewrite Hon. by rewrite bool_decide_eq_true_2.
Qed.

(** [applyDataChanges] of the session that owns the undo manager, while
    on. *)
Lemma session_applyDataChanges_on (data : D) (s : session ydoc change) :
  Session.state s = On →
  let o := Session.applyDataChanges opts data s in
  let after := opt_applyDataChanges opts (Session.doc s) data in
  Session.doc (Session.next o) = after
  ∧ Session.state (Session.next o) = On
  ∧ Session.thrown o = None
  ∧ Session.emitted o = broadcast (transactionUpdate (Session.doc s) after).
Proof.
  intros Hon. cbv zeta. unfold Session.applyDataChanges.
  rewrite decide_False by (intros Hn; by apply Hn).
  rewrite SessionProps.afterTransaction_doc, SessionProps.afterTransaction_state.
  split; [done|]. split; [done|].
  unfold Session.afterTransaction. simpl.
  destruct (transactionUpdate (Session.doc s) _) as [u|]; [|done].
  unfold Session.onUpdate. simpl. rewrite decide_True by done.
  rewrite bool_decide_eq_true_2 by done. rewrite Hon. simpl. done.
Qed.

End Document.

Section InitYDoc.
Context {A ydoc change D G : Type} `{EqDecision A}.
Context `{!Primitives ydoc change} `{!NumberConversion} `{!PostMap A ydoc}.
Variable opts : options ydoc D G.
Variable identity : string.
Variable fuel : nat.

(** C3 (amended). Submitting a local change to the session with
    [applyDataChanges] while the connection state is not ['on'] is not a
    silent no-op: in both versions of [createDocument] the call throws
    ['wrong state'] to its caller, leaving the session (document and
    connection state included) as it was and emitting nothing. Only the
    editor's callback [applyChangesToYjs], which asks [getState()] first,
    returns silently in that case, with the session unchanged and nothing
    emitted. When the state is ['on'], [applyDataChanges] runs the
    supplied change function on the document as one transaction whose
    origin is this client's identity: the state stays ['on'], nothing is
    thrown, and the only effect is the broadcast of that transaction's
    update, if it produced one; through [applyChangesToYjs] the change
    function is the tree codec's [updatePostDoc] applied to
    [{ blocks }]. *)
Theorem applyDataChanges_gated (data : D) (blocks : list (block (A:=A)))
    (s : session ydoc change) (d : document ydoc) :
  (Session.state s ≠ On →
   Session.applyDataChanges opts data s = Outcome s [] (Some "wrong state"))
  ∧ (YjsDoc.state d ≠ On →
     YjsDoc.applyDataChanges opts data d = Result d [] (Some "wrong state")
     ∧ applyChangesToYjs identity fuel blocks d = Result d [] None)
  ∧ (Session.state s = On →
     let o := Session.applyDataChanges opts data s in
     let after := opt_applyDataChanges opts (Session.doc s) data in
     Session.doc (Session.next o) = after
     ∧ Session.state (Session.next o) = On
     ∧ Session.thrown o = None
     ∧ Session.emitted o = broadcast (transactionUpdate (Session.doc s) after))
  ∧ (YjsDoc.state d = On →
     (let o := YjsDoc.applyDataChanges opts data d in
      let after := opt_applyDataChanges opts (YjsDoc.doc d) data in
      YjsDoc.doc (YjsDoc.next o) = after
      ∧ YjsDoc.state (YjsDoc.next o) = On
      ∧ YjsDoc.thrown o = None
      ∧ YjsDoc.emitted o = broadcast (transactionUpdate (YjsDoc.doc d) after))
     ∧ (let o := applyChangesToYjs identity fuel blocks d in
        let encoded :=
          updatePostDoc (postMap (YjsDoc.doc d)) (Post None (Some blocks) None) in
        let after := commitPost (YjsDoc.doc d) encoded.1 encoded.2 in
        YjsDoc.doc (YjsDoc.next o) = after
        ∧ YjsDoc.state (YjsDoc.next o) = On
        ∧ YjsDoc.emitted o = broadcast (transactionUpdate (YjsDoc.doc d) after))).
Proof.
  split_and!.
  - apply SessionProps.applyDataChanges_wrong_state.
  - intros Hst. unfold applyChangesToYjs, YjsDoc.applyDataChanges, getState.
    by rewrite !decide_True.
  - apply session_applyDataChanges_on.
  - intros Hon. split; [by apply document_applyDataChanges_on|].
    cbv zeta. unfold applyChangesToYjs, getState.
    rewrite decide_False by (intros Hn; by apply Hn).
    destruct (document_applyDataChanges_on (documentOptions identity fuel)
                (Post None (Some blocks) None) d Hon) as (-> & -> & _ & ->).
    simpl. by destruct (updatePostDoc _ _).
Qed.

End InitYDoc.

(** A document that is just its 'post' map, for concrete instances. *)
#[local] Instance plainPrimitives : Primitives (postDoc (A:=nat)) unit := {|
  newDoc := emptyDoc;
  encodeStateVector := λ d, [];
  encodeStateAsUpdate := λ d sv, [];
  applyUpdate := λ d u, d;
  transactionUpdate := λ before after, None;
  captureTransaction := λ um before after, (um, false);
  popUndo := λ um d, PopOutcome um d None false None;
  popRedo := λ um d, PopOutcome um d None false None;
|}.

#[local] Instance plainPostMap : PostMap nat (postDoc (A:=nat)) := {|
  postMap := λ d, d;
  commitPost := λ d p w, p;
|}.

#[local] Existing Instance SessionProps.zeroConversion.

(** Options whose change function sets the title. *)
Definition titleOptions : options (postDoc (A:=nat)) string string :=
  Options "me" (λ d t, PostDoc (Some t) (doc_blocks d) (doc_comments d))
    (λ d, Ok (default "" (doc_title d))).

Lemma applyDataChanges_gated_witness :
  Session.applyDataChanges titleOptions "t"
    (Session.initial SessionProps.noSelection)
  = Outcome (Session.initial SessionProps.noSelection) [] (Some "wrong state").
Proof.
  apply (proj1 (applyDataChanges_gated (A:=nat) titleOptions "me" 8 "t"
                  [Block (BlockProps "b1" 0) []]
                  (Session.initial SessionProps.noSelection) YjsDoc.initial)).
  simpl. discriminate.
Defined.

(** C3 (as stated, refuted). On a fresh session, whose state is ['off'],
    submitting a local change with [applyDataChanges] raises
    ['wrong state'] to the caller, in the version of [createDocument]
    that owns the undo manager and in the one [initYDoc] is written
    against, there with the very options [initYDoc] passes. *)
Lemma applyDataChanges_not_silent :
  Session.state (Session.initial (ydoc:=postDoc (A:=nat)) (change:=unit)
                   SessionProps.noSelection) ≠ On
  ∧ Session.thrown
      (Session.applyDataChanges titleOptions "t"
         (Session.initial SessionProps.noSelection))
    = Some "wrong state"
  ∧ YjsDoc.state (YjsDoc.initial (ydoc:=postDoc (A:=nat)) (change:=unit)) ≠ On
  ∧ YjsDoc.thrown
      (YjsDoc.applyDataChanges (documentOptions (A:=nat) "me" 8)
         (Post None (Some [Block (BlockProps "b1" 0) []]) None) YjsDoc.initial)
    = Some "wrong state".
Proof. split_and!; [discriminate|reflexivity|discriminate|reflexivity]. Qed.

End EditorProps.

(* ===================================================================== *)
(** * Properties of the tree codec *)
(* ===================================================================== *)

Module CodecProps.
Import Diff Codec DiffProps.

Section Blocks.
Context {A : Type} `{EqDecision A}.

Implicit Types (b : block (A:=A)) (bs : list (block (A:=A))).
Implicit Types (p : blockProps (A:=A)) (d : blocksDoc (A:=A)).
Implicit Types (om : gmap string (list string)).
Implicit Types (bc : gmap string (blockProps (A:=A))).

(** ** Trees *)

(** Every block of a tree, in the order the codec visits them, with the
    ids of its children. *)
Fixpoint block_nodes b : list (blockProps (A:=A) * list string) :=
  match b with
  | Block p inner => (p, map blockId inner) :: flat_map block_nodes inner
  end.
Definition forest_nodes bs : list (blockProps (A:=A) * list string) :=
  flat_map block_nodes bs.

(** The ids of all blocks of a tree, at any depth. *)
Definition forest_ids bs : list string :=
  map (λ n, clientId n.1) (forest_nodes bs).

(** Nesting depth of a tree; the empty tree has depth 0. *)
Fixpoint block_depth b : nat :=
  match b with
  | Block _ inner => S (foldr (λ b' n, block_depth b' `max` n) 0 inner)
  end.
Definition forest_depth bs : nat := foldr (λ b n, block_depth b `max` n) 0 bs.

(** A tree the codec can represent: the ids of its blocks are pairwise
    distinct across the whole tree, and none is the empty string, which
    is the key of the root order list. *)
Definition well_formed bs : Prop :=
  NoDup (forest_ids bs) ∧ "" ∉ forest_ids bs.

(** The weaker condition that no two children of the same parent share an
    id. *)
Fixpoint siblings_unique_block b : bool :=
  match b with
  | Block _ inner =>
      bool_decide (NoDup (map blockId inner)) && forallb siblings_unique_block inner
  end.
Definition siblings_unique bs : bool :=
  bool_decide (NoDup (map blockId bs)) && forallb siblings_unique_block bs.

Lemma block_ind' (P : block (A:=A) → Prop) :
  (∀ p inner, Forall P inner → P (Block p inner)) → ∀ b, P b.
Proof.
  intros HP. fix IH 1. intros [p inner]. apply HP.
  induction inner as [|b inner IHin]; constructor; [apply IH|apply IHin].
Qed.

Lemma forest_nodes_cons b bs :
  forest_nodes (b :: bs) = block_nodes b ++ forest_nodes bs.
Proof. done. Qed.

Lemma block_nodes_unfold p inner :
  block_nodes (Block p inner) = (p, map blockId inner) :: forest_nodes inner.
Proof. done. Qed.

Lemma forest_ids_cons b bs :
  forest_ids (b :: bs) = forest_ids [b] ++ forest_ids bs.
Proof.
  unfold forest_ids. rewrite !forest_nodes_cons. simpl.
  by rewrite app_nil_r, map_app.
Qed.

Lemma forest_ids_block p inner :
  forest_ids [Block p inner] = clientId p :: forest_ids inner.
Proof. unfold forest_ids. simpl. by rewrite app_nil_r. Qed.

Lemma forest_depth_cons b bs :
  forest_depth (b :: bs) = block_depth b `max` forest_depth bs.
Proof. done. Qed.

Lemma block_depth_unfold p inner :
  block_depth (Block p inner) = S (forest_depth inner).
Proof. done. Qed.

(** ** The store represents a tree *)

(** The order map and the content map hold, for every block of the tree,
    its content and the order list of its children. *)
Definition represents om bc bs : Prop :=
  Forall (λ n, bc !! clientId n.1 = Some n.1 ∧ om !! clientId n.1 = Some n.2)
    (forest_nodes bs).

Lemma represents_cons om bc b bs :
  represents om bc (b :: bs) ↔ represents om bc [b] ∧ represents om bc bs.
Proof.
  unfold represents. rewrite !forest_nodes_cons. simpl.
  rewrite app_nil_r. apply Forall_app.
Qed.

Lemma represents_block om bc p inner :
  represents om bc [Block p inner] ↔
  bc !! clientId p = Some p ∧ om !! clientId p = Some (map blockId inner)
  ∧ represents om bc inner.
Proof.
  unfold represents. simpl. rewrite app_nil_r, Forall_cons. simpl. tauto.
Qed.

(** Maps that agree on the ids of a tree represent it alike. *)
Lemma represents_agree om bc om' bc' bs :
  (∀ k, k ∈ forest_ids bs → om' !! k = om !! k ∧ bc' !! k = bc !! k) →
  represents om bc bs → represents om' bc' bs.
Proof.
  unfold represents, forest_ids. intros Hag Hrep.
  apply Forall_forall. intros n Hn.
  rewrite Forall_forall in Hrep. specialize (Hrep n Hn).
  destruct (Hag (clientId n.1)) as [-> ->]; [|done].
  apply list_elem_of_fmap. by exists n.
Qed.

End Blocks.

(** ** The encoder, step by step *)

Section Encoder.
Context {A : Type} `{EqDecision A}.

Implicit Types (b : block (A:=A)) (bs : list (block (A:=A))).
Implicit Types (p : blockProps (A:=A)) (d : blocksDoc (A:=A)).
Implicit Types (om : gmap string (list string)).
Implicit Types (bc : gmap string (blockProps (A:=A))).

(** The loop body of [updateBlocksDoc] as the source writes it: the
    content write followed by the recursive call on the inner blocks. *)
Lemma updateBlock_unfold p inner d :
  updateBlock (Block p inner) d
  = let '(d1, w1) := setContent p d in
    let '(d2, w2) := updateBlocksDoc d1 inner (clientId p) in
    (d2, w1 ++ w2).
Proof.
  simpl. destruct (setContent p d) as [d1 w1]. unfold updateBlocksDoc.
  destruct (updateOrder (clientId p) (map blockId inner) d1) as [d2 w2].
  fold (updateBlocks inner d2).
  destruct (updateBlocks inner d2). by rewrite app_assoc.
Qed.

Lemma updateBlocks_cons b bs d :
  updateBlocks (b :: bs) d
  = let '(d', w') := updateBlock b d in
    let '(d'', w'') := updateBlocks bs d' in
    (d'', w' ++ w'').
Proof. done. Qed.

Lemma updateBlocks_cons_store b bs d :
  (updateBlocks (b :: bs) d).1 = (updateBlocks bs (updateBlock b d).1).1.
Proof.
  rewrite updateBlocks_cons. destruct (updateBlock b d) as [d1 w1]. simpl.
  by destruct (updateBlocks bs d1).
Qed.

Lemma updateBlocks_single_store b d :
  (updateBlocks [b] d).1 = (updateBlock b d).1.
Proof. by rewrite updateBlocks_cons_store. Qed.

Lemma updateBlock_store p inner d :
  (updateBlock (Block p inner) d).1
  = (updateBlocks inner
       (updateOrder (clientId p) (map blockId inner) (setContent p d).1).1).1.
Proof.
  rewrite updateBlock_unfold. destruct (setContent p d) as [d1 w1].
  unfold updateBlocksDoc. simpl. destruct (updateOrder _ _ d1) as [d2 w2].
  simpl. by destruct (updateBlocks inner d2).
Qed.

(** Deleting content entries leaves the other entries alone. *)
Lemma lookup_foldl_delete bc (doomed : list string) k :
  k ∉ doomed → foldl (λ m c, delete c m) bc doomed !! k = bc !! k.
Proof.
  revert bc. induction doomed as [|c doomed IH]; intros bc Hk; simpl; [done|].
  apply not_elem_of_cons in Hk as [Hne Hk].
  by rewrite IH, lookup_delete_ne.
Qed.

(** Deleting and inserting as the diff says, on the array the diff was
    computed from, stays within the array and yields the new ids. *)
Lemma yarray_splice (cur ids : list string) :
  yarray_insert (index (simpleDiffArray cur ids)) (insert (simpleDiffArray cur ids))
    (yarray_delete (index (simpleDiffArray cur ids))
       (remove (simpleDiffArray cur ids)) cur)
  = ids.
Proof.
  transitivity (apply_diff (simpleDiffArray cur ids) cur);
    [|apply simpleDiffArray_correct].
  unfold yarray_insert, yarray_delete, apply_diff.
  pose proof (common_prefix_le_l cur ids) as Hle.
  change (index (simpleDiffArray cur ids)) with (common_prefix cur ids).
  rewrite take_app_length', drop_app_length'; [done|by rewrite length_take_le..].
Qed.

(** What the first part of [updateBlocksDoc] does to the store: the order
    list of the parent becomes the new ids, and the only content entries
    deleted belong to ids of the old order list. *)
Lemma updateOrder_store cid ids d :
  ∃ doomed,
    (updateOrder cid ids d).1
    = BlocksDoc (Some (<[cid := ids]> (default ∅ (order d))))
        (Some (foldl (λ m c, delete c m) (default ∅ (byClientId d)) doomed))
    ∧ ∀ x, x ∈ doomed → x ∈ default [] (default ∅ (order d) !! cid).
Proof.
  unfold updateOrder.
  set (om0 := default ∅ (order d)). set (bc0 := default ∅ (byClientId d)).
  set (cur := default [] (om0 !! cid)).
  exists (filter (λ c, c ∉ insert (simpleDiffArray cur ids))
            (js_slice (index (simpleDiffArray cur ids))
               (remove (simpleDiffArray cur ids)) cur)).
  split.
  - subst om0 bc0 cur.
    destruct (order d) as [om1|], (byClientId d) as [bc1|];
      cbv beta iota zeta delta [default from_option id];
      (destruct (_ !! cid) as [l|];
       cbv beta iota zeta delta [fst]; by rewrite yarray_splice).
  - intros x [_ Hx]%list_elem_of_filter. unfold js_slice in Hx.
    by apply subseteq_take, subseteq_drop in Hx.
Qed.

(** An order list that does not exist yet is created and filled with the
    new ids; nothing is deleted. *)
Lemma updateOrder_fresh cid ids d :
  default ∅ (order d) !! cid = None →
  (updateOrder cid ids d).1
  = BlocksDoc (Some (<[cid := ids]> (default ∅ (order d))))
      (Some (default ∅ (byClientId d))).
Proof.
  intros Hfresh. destruct (updateOrder_store cid ids d) as (doomed & -> & Hsub).
  rewrite Hfresh in Hsub. destruct doomed as [|x doomed]; [done|].
  specialize (Hsub x (list_elem_of_here _ _)). by apply elem_of_nil in Hsub.
Qed.

(** An order list that already holds the new ids is left as it is: the
    only calls are a deletion of length zero and an empty insertion. *)
Lemma updateOrder_same cid ids om bc :
  om !! cid = Some ids →
  updateOrder cid ids (BlocksDoc (Some om) (Some bc))
  = (BlocksDoc (Some om) (Some bc),
     [OrderDelete cid (length ids) 0; OrderInsert cid (length ids) []]).
Proof.
  intros Hcur. unfold updateOrder. simpl order. simpl byClientId.
  cbv beta iota zeta. rewrite Hcur. cbv beta iota zeta.
  rewrite simpleDiffArray_same. simpl.
  unfold js_slice, yarray_insert, yarray_delete. simpl.
  rewrite Nat.add_0_r, take_drop. simpl. rewrite take_drop.
  by rewrite insert_id.
Qed.

Lemma setContent_same p o bc :
  bc !! clientId p = Some p →
  setContent p (BlocksDoc o (Some bc)) = (BlocksDoc o (Some bc), []).
Proof. intros Hp. unfold setContent. simpl. by rewrite decide_True. Qed.

Lemma setContent_store p d :
  (setContent p d).1
  = BlocksDoc (order d) (Some (<[clientId p := p]> (default ∅ (byClientId d)))).
Proof.
  unfold setContent. case_decide as Hp; [|done]. simpl.
  destruct d as [o [bc|]]; simpl in *.
  - by rewrite insert_id.
  - by rewrite lookup_empty in Hp.
Qed.

(** ** Encoding a tree *)

(** No block of the listed ids has changed parent: whatever id of [ids]
    the store lists in the order list of a block of the tree is a child
    of that block in the tree. *)
Definition unmoved (ids : list string) om bs : Prop :=
  Forall (λ n, ∀ x, x ∈ default [] (om !! clientId n.1) → x ∈ ids → x ∈ n.2)
    (forest_nodes bs).

Lemma unmoved_cons ids om b bs :
  unmoved ids om (b :: bs) ↔ unmoved ids om [b] ∧ unmoved ids om bs.
Proof.
  unfold unmoved. rewrite !forest_nodes_cons. simpl.
  rewrite app_nil_r. apply Forall_app.
Qed.

Lemma unmoved_block ids om p inner :
  unmoved ids om [Block p inner] ↔
  (∀ x, x ∈ default [] (om !! clientId p) → x ∈ ids → x ∈ map blockId inner)
  ∧ unmoved ids om inner.
Proof. unfold unmoved. simpl. rewrite app_nil_r, Forall_cons. done. Qed.

Lemma unmoved_agree ids om om' bs :
  (∀ k, k ∈ forest_ids bs → om' !! k = om !! k) →
  unmoved ids om bs → unmoved ids om' bs.
Proof.
  unfold unmoved, forest_ids. intros Hag Hun.
  apply Forall_forall. intros n Hn.
  rewrite Forall_forall in Hun. specialize (Hun n Hn).
  rewrite Hag; [done|]. apply list_elem_of_fmap. by exists n.
Qed.

Lemma blockId_forest_ids b bs : b ∈ bs → blockId b ∈ forest_ids bs.
Proof.
  induction bs as [|b' bs IH]; intros Hb; [by apply elem_of_nil in Hb|].
  rewrite forest_ids_cons. apply elem_of_app.
  apply elem_of_cons in Hb as [->|Hb]; [left|right; by apply IH].
  destruct b' as [p inner]. rewrite forest_ids_block. apply list_elem_of_here.
Qed.

Lemma children_forest_ids bs x : x ∈ map blockId bs → x ∈ forest_ids bs.
Proof.
  intros (b & -> & Hb)%list_elem_of_fmap. by apply blockId_forest_ids.
Qed.

(** What encoding the blocks [bs] does to a store, where [ids] are the
    ids of the whole tree being encoded: the result represents [bs]; order
    lists of other parents are untouched, and so is the content of the
    blocks of the tree that lie outside [bs]. *)
Definition installs bs : Prop :=
  ∀ ids om bc,
    NoDup (forest_ids bs) →
    (∀ k, k ∈ forest_ids bs → k ∈ ids) →
    unmoved ids om bs →
    ∃ om' bc',
      (updateBlocks bs (BlocksDoc (Some om) (Some bc))).1
      = BlocksDoc (Some om') (Some bc')
      ∧ (∀ k, k ∉ forest_ids bs → om' !! k = om !! k)
      ∧ (∀ k, k ∈ ids → k ∉ forest_ids bs → bc' !! k = bc !! k)
      ∧ represents om' bc' bs.

Lemma installs_forest bs : Forall (λ b, installs [b]) bs → installs bs.
Proof.
  induction bs as [|b bs IH]; intros Hall ids om bc Hnd Hids Hun.
  - exists om, bc. split_and!; [done|done|done|]. by apply Forall_nil.
  - apply Forall_cons in Hall as [Hb Hbs].
    rewrite forest_ids_cons in Hnd, Hids.
    apply NoDup_app in Hnd as (Hnd1 & Hdisj & Hnd2).
    apply unmoved_cons in Hun as [Hun1 Hun2].
    destruct (Hb ids om bc) as (om1 & bc1 & Hrun1 & Hfo1 & Hfc1 & Hrep1);
      [done| |done|].
    { intros k Hk. apply Hids, elem_of_app. by left. }
    destruct (IH Hbs ids om1 bc1) as (om2 & bc2 & Hrun2 & Hfo2 & Hfc2 & Hrep2);
      [done|..].
    { intros k Hk. apply Hids, elem_of_app. by right. }
    { eapply unmoved_agree; [|exact Hun2].
      intros k Hk. apply Hfo1. intros Hk1. by apply (Hdisj k). }
    exists om2, bc2. split_and!.
    + rewrite updateBlocks_cons_store, <- updateBlocks_single_store.
      by rewrite Hrun1, Hrun2.
    + intros k Hk. rewrite forest_ids_cons in Hk.
      apply not_elem_of_app in Hk as [Hk1 Hk2].
      by rewrite Hfo2, Hfo1.
    + intros k Hin Hk. rewrite forest_ids_cons in Hk.
      apply not_elem_of_app in Hk as [Hk1 Hk2].
      by rewrite Hfc2, Hfc1.
    + apply represents_cons. split; [|done].
      eapply represents_agree; [|exact Hrep1].
      intros k Hk.
      assert (k ∉ forest_ids bs) as Hk2 by (intros Hk2; by apply (Hdisj k)).
      split; [by apply Hfo2|]. apply Hfc2; [|done].
      apply Hids, elem_of_app. by left.
Qed.

Lemma installs_block b : installs [b].
Proof.
  induction b as [p inner IH] using block_ind'.
  intros ids om bc Hnd Hids Hun.
  rewrite forest_ids_block in Hnd, Hids.
  apply NoDup_cons in Hnd as [Hp Hnd].
  apply unmoved_block in Hun as [Hkids Hun].
  pose proof (installs_forest inner IH) as Hinner.
  destruct (updateOrder_store (clientId p) (map blockId inner)
              (BlocksDoc (Some om) (Some (<[clientId p := p]> bc))))
    as (doomed & Hord & Hdoomed).
  simpl in Hord, Hdoomed.
  (* no block of the tree outside [inner] loses its content here *)
  assert (∀ k, k ∈ ids → k ∉ forest_ids inner → k ∉ doomed) as Hkept.
  { intros k Hin Hk Hd. apply Hk, children_forest_ids, Hkids; [|done].
    by apply Hdoomed. }
  destruct (Hinner ids (<[clientId p := map blockId inner]> om)
              (foldl (λ m c, delete c m) (<[clientId p := p]> bc) doomed))
    as (om' & bc' & Hrun & Hfo & Hfc & Hrep); [done|..].
  { intros k Hk. apply Hids, elem_of_cons. by right. }
  { eapply unmoved_agree; [|exact Hun].
    intros k Hk. apply lookup_insert_ne. intros Heq. apply Hp. by rewrite Heq. }
  assert (clientId p ∈ ids) as Hpin by (apply Hids, list_elem_of_here).
  exists om', bc'. split_and!.
  - rewrite updateBlocks_single_store, updateBlock_store, setContent_store.
    simpl. by rewrite Hord.
  - intros k Hk. rewrite forest_ids_block in Hk.
    apply not_elem_of_cons in Hk as [Hne Hk].
    by rewrite Hfo, lookup_insert_ne.
  - intros k Hin Hk. rewrite forest_ids_block in Hk.
    apply not_elem_of_cons in Hk as [Hne Hk].
    rewrite Hfc, lookup_foldl_delete, lookup_insert_ne by auto. done.
  - apply represents_block. split_and!; [| |done].
    + rewrite Hfc, lookup_foldl_delete by auto. apply lookup_insert_eq.
    + rewrite Hfo by done. apply lookup_insert_eq.
Qed.

Lemma installs_all bs : installs bs.
Proof. apply installs_forest, Forall_forall. intros b _. apply installs_block. Qed.

(** The whole of [updateBlocksDoc] on a tree with pairwise distinct ids
    none of which has changed parent: the store afterwards represents the
    tree, with the order list of the parent [cid] holding its root ids. *)
Lemma updateBlocksDoc_represents d bs cid :
  NoDup (forest_ids bs) → cid ∉ forest_ids bs →
  (∀ x, x ∈ default [] (default ∅ (order d) !! cid) → x ∈ forest_ids bs →
        x ∈ map blockId bs) →
  unmoved (forest_ids bs) (default ∅ (order d)) bs →
  ∃ om bc,
    (updateBlocksDoc d bs cid).1 = BlocksDoc (Some om) (Some bc)
    ∧ om !! cid = Some (map blockId bs)
    ∧ represents om bc bs.
Proof.
  intros Hnd Hcid Hroot Hun.
  destruct (updateOrder_store cid (map blockId bs) d) as (doomed & Hord & Hdoomed).
  destruct (installs_all bs (forest_ids bs)
              (<[cid := map blockId bs]> (default ∅ (order d)))
              (foldl (λ m c, delete c m) (default ∅ (byClientId d)) doomed))
    as (om & bc & Hrun & Hfo & _ & Hrep); [done|done|..].
  { eapply unmoved_agree; [|exact Hun].
    intros k Hk. apply lookup_insert_ne. intros Heq. apply Hcid. by rewrite Heq. }
  exists om, bc. split_and!; [| |done].
  - unfold updateBlocksDoc. destruct (updateOrder _ _ _) as [d1 w1].
    simpl in Hord. subst d1. by destruct (updateBlocks bs _).
  - rewrite Hfo by done. apply lookup_insert_eq.
Qed.

End Encoder.


(** ** Re-encoding a tree the store already represents *)

Section Settled.
Context {A : Type} `{EqDecision A}.

Implicit Types (b : block (A:=A)) (bs : list (block (A:=A))).
Implicit Types (p : blockProps (A:=A)) (d : blocksDoc (A:=A)).
Implicit Types (om : gmap string (list string)).
Implicit Types (bc : gmap string (blockProps (A:=A))).

(** The calls on an order list that change nothing. *)
Definition void_block_write (w : blockWrite (A:=A)) : bool :=
  match w with
  | OrderDelete _ _ 0 => true
  | OrderInsert _ _ [] => true
  | _ => false
  end.

Lemma void_write_InBlocks (w : blockWrite (A:=A)) :
  void_write (InBlocks w) = void_block_write w.
Proof. by destruct w as [| | | | ? ? []| ? ? []|]. Qed.

(** Encoding a tree into a store that represents it leaves the store as
    it is and only issues void calls. *)
Definition settled bs : Prop :=
  ∀ om bc,
    represents om bc bs →
    ∃ w, updateBlocks bs (BlocksDoc (Some om) (Some bc))
         = (BlocksDoc (Some om) (Some bc), w)
         ∧ Forall (λ x, void_block_write x = true) w.

Lemma settled_forest bs : Forall (λ b, settled [b]) bs → settled bs.
Proof.
  induction bs as [|b bs IH]; intros Hall om bc Hrep.
  - exists []. by split.
  - apply Forall_cons in Hall as [Hb Hbs].
    apply represents_cons in Hrep as [Hrep1 Hrep2].
    destruct (Hb om bc Hrep1) as (w1 & Hrun1 & Hv1).
    destruct (IH Hbs om bc Hrep2) as (w2 & Hrun2 & Hv2).
    exists (w1 ++ w2). split; [|by apply Forall_app].
    rewrite updateBlocks_cons. rewrite updateBlocks_cons in Hrun1.
    destruct (updateBlock b _) as [d1 w1']. simpl in Hrun1.
    injection Hrun1 as -> Hw. rewrite app_nil_r in Hw. subst w1'.
    by rewrite Hrun2.
Qed.

Lemma settled_block b : settled [b].
Proof.
  induction b as [p inner IH] using block_ind'.
  intros om bc (Hp & Hord & Hrep)%represents_block.
  destruct (settled_forest inner IH om bc Hrep) as (w & Hrun & Hv).
  exists ([OrderDelete (clientId p) (length (map blockId inner)) 0;
           OrderInsert (clientId p) (length (map blockId inner)) []] ++ w).
  split; [|by repeat constructor].
  rewrite updateBlocks_cons, updateBlock_unfold, setContent_same by done.
  unfold updateBlocksDoc. rewrite updateOrder_same by done.
  rewrite Hrun. simpl. by rewrite app_nil_r.
Qed.

Lemma settled_all bs : settled bs.
Proof. apply settled_forest, Forall_forall. intros b _. apply settled_block. Qed.

(** ** Decoding a tree the store represents *)

Lemma represents_elem om bc b bs :
  represents om bc bs → b ∈ bs → represents om bc [b].
Proof.
  induction bs as [|b' bs IH]; intros Hrep Hb; [by apply elem_of_nil in Hb|].
  apply represents_cons in Hrep as [Hb' Hbs].
  apply elem_of_cons in Hb as [->|Hb]; [done|by apply IH].
Qed.

Lemma block_depth_elem b bs : b ∈ bs → block_depth b ≤ forest_depth bs.
Proof.
  induction bs as [|b' bs IH]; intros Hb; [by apply elem_of_nil in Hb|].
  rewrite forest_depth_cons.
  apply elem_of_cons in Hb as [->|Hb]; [lia|]. specialize (IH Hb). lia.
Qed.

(** Mapping the decoder's callback over the ids of a level whose blocks
    decode to themselves. *)
Lemma res_map_level (f : string → res (decoded (A:=A))) bs :
  (∀ b, b ∈ bs → f (blockId b) = Ok (to_decoded b)) →
  res_map f (map blockId bs) = Ok (map to_decoded bs).
Proof.
  induction bs as [|b bs IH]; intros Hf; simpl; [done|].
  rewrite Hf by apply list_elem_of_here. simpl.
  rewrite IH; [done|]. intros b' Hb'. apply Hf. by apply list_elem_of_further.
Qed.

(** With fuel exceeding the depth of the tree, decoding the order list of
    its parent in a store that represents it yields the tree. *)
Lemma blocksDocToArray_represents fuel :
  ∀ bs om bc cid,
    represents om bc bs →
    om !! cid = Some (map blockId bs) →
    forest_depth bs < fuel →
    blocksDocToArray fuel (Some (BlocksDoc (Some om) (Some bc))) cid
    = Ok (map to_decoded bs).
Proof.
  induction fuel as [|fuel IH]; intros bs om bc cid Hrep Hord Hfuel; [lia|].
  simpl. rewrite Hord. apply res_map_level.
  intros [p inner] Hb.
  pose proof (block_depth_elem _ _ Hb) as Hdepth.
  rewrite block_depth_unfold in Hdepth.
  apply (represents_elem _ _ _ _ Hrep) in Hb.
  apply represents_block in Hb as (Hp & Hin & Hrepin).
  unfold blockId. simpl props. rewrite (IH inner om bc) by (done || lia).
  simpl. by rewrite Hp.
Qed.

(** Encoding a well-formed tree into the empty block store yields a store
    that represents it, with the root order list under the empty key. *)
Lemma updateBlocksDoc_empty_represents bs :
  well_formed bs →
  ∃ om bc,
    (updateBlocksDoc (BlocksDoc None None) bs "").1 = BlocksDoc (Some om) (Some bc)
    ∧ om !! "" = Some (map blockId bs)
    ∧ represents om bc bs.
Proof.
  intros [Hnd Hroot]. apply updateBlocksDoc_represents; [done|done|..].
  - simpl. intros x Hx. by apply elem_of_nil in Hx.
  - apply Forall_forall. intros n _ x Hx. simpl in Hx.
    rewrite lookup_empty in Hx. by apply elem_of_nil in Hx.
Qed.

End Settled.


(** ** Comments *)

(** The map holds the source object's value for each of the fields. *)
Definition fields_hold (m : gmap string jsval) (src : string → jsval)
    (fields : list string) : Prop :=
  ∀ f, f ∈ fields → field_get m f = src f.

Lemma field_get_insert (m : gmap string jsval) f g v :
  field_get (<[g := v]> m) f = if decide (g = f) then v else field_get m f.
Proof. unfold field_get. rewrite lookup_insert. by case_decide. Qed.

Lemma setFields_settled fields src m :
  fields_hold m src fields → setFields fields false src m = (m, []).
Proof.
  induction fields as [|f fields IH]; intros Hh; simpl; [done|].
  rewrite bool_decide_eq_false_2.
  - apply IH. intros g Hg. apply Hh. by apply list_elem_of_further.
  - intros Hne. apply Hne, Hh, list_elem_of_here.
Qed.

Lemma setFields_preserves fields isNewDoc src m f :
  field_get m f = src f →
  field_get (setFields fields isNewDoc src m).1 f = src f.
Proof.
  revert m. induction fields as [|g fields IH]; intros m Hf; simpl; [done|].
  destruct (isNewDoc || bool_decide _).
  - specialize (IH (<[g := src g]> m)).
    destruct (setFields fields isNewDoc src (<[g:=src g]> m)) as [m' w].
    simpl in *. apply IH. rewrite field_get_insert. case_decide; congruence.
  - by apply IH.
Qed.

Lemma setFields_holds fields isNewDoc src m :
  fields_hold (setFields fields isNewDoc src m).1 src fields.
Proof.
  revert m. induction fields as [|g fields IH]; intros m f Hf;
    [by apply elem_of_nil in Hf|].
  simpl. apply elem_of_cons in Hf as [->|Hf].
  - destruct (isNewDoc || bool_decide _) eqn:Htest.
    + pose proof (setFields_preserves fields isNewDoc src (<[g := src g]> m) g)
        as Hp.
      destruct (setFields fields isNewDoc src (<[g:=src g]> m)) as [m' w].
      simpl in *. apply Hp. rewrite field_get_insert. by rewrite decide_True.
    + apply orb_false_iff in Htest as [_ Htest].
      apply bool_decide_eq_false in Htest.
      apply setFields_preserves. by destruct (decide (field_get m g = src g)).
  - destruct (isNewDoc || bool_decide _).
    + specialize (IH (<[g := src g]> m) f Hf).
      by destruct (setFields fields isNewDoc src (<[g:=src g]> m)).
    + by apply IH.
Qed.

#[local] Opaque replyFields commentFields.

(** The replies map holds every reply of the list. *)
Definition represents_replies (rd : gmap string (gmap string jsval))
    (rs : list reply) : Prop :=
  ∀ r, r ∈ rs →
    ∃ m, rd !! reply_id r = Some m ∧ fields_hold m (reply_field r) replyFields.

Lemma updateCommentRepliesDoc_settled rd rs :
  represents_replies rd rs → updateCommentRepliesDoc rd rs = (rd, []).
Proof.
  induction rs as [|r rs IH]; intros Hrep; simpl; [done|].
  destruct (Hrep r) as (m & Hm & Hh); [apply list_elem_of_here|].
  rewrite Hm. simpl.
  rewrite setFields_settled by done. rewrite insert_id by done.
  rewrite IH; [done|]. intros r' Hr'. apply Hrep. by apply list_elem_of_further.
Qed.

Lemma updateCommentRepliesDoc_frame rd rs k :
  k ∉ map reply_id rs → (updateCommentRepliesDoc rd rs).1 !! k = rd !! k.
Proof.
  revert rd. induction rs as [|r rs IH]; intros rd Hk; simpl; [done|].
  apply not_elem_of_cons in Hk as [Hne Hk].
  destruct (setFields replyFields _ _ _) as [m wf].
  specialize (IH (<[reply_id r := m]> rd) Hk).
  destruct (updateCommentRepliesDoc (<[reply_id r:=m]> rd) rs) as [rd' w].
  simpl in *. by rewrite IH, lookup_insert_ne.
Qed.

Lemma updateCommentRepliesDoc_represents rd rs :
  NoDup (map reply_id rs) →
  represents_replies (updateCommentRepliesDoc rd rs).1 rs.
Proof.
  revert rd. induction rs as [|r rs IH]; intros rd Hnd r' Hr';
    [by apply elem_of_nil in Hr'|].
  simpl in Hnd. apply NoDup_cons in Hnd as [Hr Hnd]. simpl.
  pose proof (setFields_holds replyFields (bool_decide (rd !! reply_id r = None))
                (reply_field r) (default ∅ (rd !! reply_id r))) as Hh.
  destruct (setFields replyFields _ _ _) as [m wf]. simpl in Hh.
  pose proof (updateCommentRepliesDoc_frame (<[reply_id r := m]> rd) rs
                (reply_id r) Hr) as Hfr.
  specialize (IH (<[reply_id r := m]> rd) Hnd).
  destruct (updateCommentRepliesDoc (<[reply_id r:=m]> rd) rs) as [rd' w].
  simpl in *. apply elem_of_cons in Hr' as [->|Hr'].
  - exists m. by rewrite Hfr, lookup_insert_eq.
  - by apply IH.
Qed.

(** The comments map holds every comment of the list, with its replies. *)
Definition represents_comments (cd : gmap string commentDoc)
    (cs : list comment) : Prop :=
  ∀ c, c ∈ cs →
    ∃ doc, cd !! comment_id c = Some doc
           ∧ fields_hold (comment_doc_fields doc) (comment_field c) commentFields
           ∧ represents_replies (comment_doc_replies doc) (comment_replies c).

(** Comment ids are pairwise distinct, and so are the reply ids within
    each comment. *)
Definition comments_well_formed (cs : list comment) : Prop :=
  NoDup (map comment_id cs)
  ∧ ∀ c, c ∈ cs → NoDup (map reply_id (comment_replies c)).

Lemma updateCommentsDoc_settled cd cs :
  represents_comments cd cs → updateCommentsDoc cd cs = (cd, []).
Proof.
  induction cs as [|c cs IH]; intros Hrep; simpl; [done|].
  destruct (Hrep c) as (doc & Hdoc & Hh & Hrs); [apply list_elem_of_here|].
  rewrite Hdoc. simpl.
  rewrite setFields_settled by done.
  rewrite updateCommentRepliesDoc_settled by done.
  replace (CommentDoc (comment_doc_fields doc) (comment_doc_replies doc))
    with doc by (by destruct doc).
  rewrite insert_id by done.
  rewrite IH; [done|]. intros c' Hc'. apply Hrep. by apply list_elem_of_further.
Qed.

Lemma updateCommentsDoc_frame cd cs k :
  k ∉ map comment_id cs → (updateCommentsDoc cd cs).1 !! k = cd !! k.
Proof.
  revert cd. induction cs as [|c cs IH]; intros cd Hk; simpl; [done|].
  apply not_elem_of_cons in Hk as [Hne Hk].
  destruct (setFields commentFields _ _ _) as [m wf].
  destruct (updateCommentRepliesDoc _ _) as [rs wr].
  specialize (IH (<[comment_id c := CommentDoc m rs]> cd) Hk).
  destruct (updateCommentsDoc _ cs) as [cd' w].
  simpl in *. by rewrite IH, lookup_insert_ne.
Qed.

Lemma updateCommentsDoc_represents cd cs :
  comments_well_formed cs →
  represents_comments (updateCommentsDoc cd cs).1 cs.
Proof.
  intros [Hnd Hreplies]. revert cd Hnd Hreplies.
  induction cs as [|c cs IH]; intros cd Hnd Hreplies c' Hc';
    [by apply elem_of_nil in Hc'|].
  simpl in Hnd. apply NoDup_cons in Hnd as [Hc Hnd]. simpl.
  set (cur := default (CommentDoc ∅ ∅) (cd !! comment_id c)).
  pose proof (setFields_holds commentFields (bool_decide (cd !! comment_id c = None))
                (comment_field c) (comment_doc_fields cur)) as Hh.
  destruct (setFields commentFields _ _ _) as [m wf]. simpl in Hh.
  pose proof (updateCommentRepliesDoc_represents (comment_doc_replies cur)
                (comment_replies c)) as Hrs.
  destruct (updateCommentRepliesDoc _ _) as [rs wr]. simpl in Hrs.
  pose proof (updateCommentsDoc_frame (<[comment_id c := CommentDoc m rs]> cd) cs
                (comment_id c) Hc) as Hfr.
  specialize (IH (<[comment_id c := CommentDoc m rs]> cd) Hnd).
  destruct (updateCommentsDoc _ cs) as [cd' w].
  simpl in *. apply elem_of_cons in Hc' as [->|Hc'].
  - exists (CommentDoc m rs). rewrite Hfr, lookup_insert_eq.
    split_and!; [done|done|]. apply Hrs, Hreplies, list_elem_of_here.
  - apply IH; [|done]. intros c0 Hc0. apply Hreplies. by apply list_elem_of_further.
Qed.


(** ** The post: round trip and write suppression *)

Section Post.
Context {A : Type} `{EqDecision A}.

Implicit Types (P : post (A:=A)).

(** The tree of a post has pairwise distinct, non-empty block ids, its
    comments have pairwise distinct ids, and so have the replies of each
    comment. *)
Definition post_well_formed P : Prop :=
  well_formed (default [] (post_blocks P))
  ∧ comments_well_formed (default [] (post_comments P)).

(** The order lists of a document, none if they were never created. *)
Definition order_lists (doc : postDoc (A:=A)) : gmap string (list string) :=
  default ∅ (doc_blocks doc ≫= order).

(** No block of the tree has changed parent with respect to the
    document: whatever block of the tree the document lists under the
    root or under a block of the tree is listed there under its parent in
    the tree. The empty document satisfies this for every tree. *)
Definition parents_kept (doc : postDoc (A:=A)) (bs : list (block (A:=A))) : Prop :=
  (∀ x, x ∈ default [] (order_lists doc !! "") → x ∈ forest_ids bs →
        x ∈ map blockId bs)
  ∧ unmoved (forest_ids bs) (order_lists doc) bs.

Lemma parents_kept_empty bs : parents_kept emptyDoc bs.
Proof.
  split.
  - intros x Hx. by apply elem_of_nil in Hx.
  - apply Forall_forall. intros n _ x Hx. by apply elem_of_nil in Hx.
Qed.

(** The document reached by encoding a post. *)
Lemma updatePostDoc_store doc0 P :
  well_formed (default [] (post_blocks P)) →
  parents_kept doc0 (default [] (post_blocks P)) →
  ∃ om bc,
    (updatePostDoc doc0 P).1
    = PostDoc (post_title P) (Some (BlocksDoc (Some om) (Some bc)))
        (Some (updateCommentsDoc (default ∅ (doc_comments doc0))
                 (default [] (post_comments P))).1)
    ∧ om !! "" = Some (map blockId (default [] (post_blocks P)))
    ∧ represents om bc (default [] (post_blocks P)).
Proof.
  intros [Hnd Hroot] [Hk0 Hk].
  destruct (updateBlocksDoc_represents
              (default (BlocksDoc None None) (doc_blocks doc0))
              (default [] (post_blocks P)) "")
    as (om & bc & Hrun & Hord & Hrep); [done|done|..].
  { unfold order_lists in Hk0. by destruct (doc_blocks doc0). }
  { unfold order_lists in Hk. by destruct (doc_blocks doc0). }
  exists om, bc. split_and!; [|done..].
  unfold updatePostDoc.
  assert (∀ t : option string,
            (if decide (doc_title doc0 ≠ t)
             then (t, [TitleSet (A:=A) t]) else (doc_title doc0, [])).1 = t) as Ht.
  { intros t. case_decide as Hne; [done|]. simpl.
    by destruct (decide (doc_title doc0 = t)). }
  specialize (Ht (post_title P)). destruct (if decide _ then _ else _) as [t w1].
  simpl in Ht. subst t.
  destruct (doc_blocks doc0) as [b0|]; simpl in Hrun |- *;
    destruct (updateBlocksDoc _ _ _) as [b w3]; simpl in Hrun; subst b;
    destruct (doc_comments doc0) as [c0|]; simpl;
    by destruct (updateCommentsDoc _ _).
Qed.

(** Round trip through any document in which no block of the tree has
    changed parent. *)
Lemma postDocToObject_updatePostDoc_any doc0 P fuel :
  well_formed (default [] (post_blocks P)) →
  parents_kept doc0 (default [] (post_blocks P)) →
  forest_depth (default [] (post_blocks P)) < fuel →
  postDocToObject fuel (updatePostDoc doc0 P).1
  = Ok (PostObject (default "" (post_title P))
          (map to_decoded (default [] (post_blocks P)))).
Proof.
  intros Hwf Hkept Hfuel.
  destruct (updatePostDoc_store doc0 P Hwf Hkept) as (om & bc & -> & Hroot & Hrep).
  unfold postDocToObject. simpl.
  by rewrite (blocksDocToArray_represents fuel _ om bc "" Hrep Hroot Hfuel).
Qed.

(** C1 (amended). For every post whose block ids are pairwise distinct
    across the whole tree and different from the empty string, encoding it
    into the empty document with [updatePostDoc] and decoding the result
    with [postDocToObject] (given fuel beyond the depth of the tree)
    yields the title, or the empty string for a missing title, and a tree
    equal to the encoded one, attributes included. *)
Theorem postDocToObject_updatePostDoc P fuel :
  well_formed (default [] (post_blocks P)) →
  forest_depth (default [] (post_blocks P)) < fuel →
  postDocToObject fuel (updatePostDoc emptyDoc P).1
  = Ok (PostObject (default "" (post_title P))
          (map to_decoded (default [] (post_blocks P)))).
Proof.
  intros Hwf Hfuel.
  apply postDocToObject_updatePostDoc_any; [done| |done].
  apply parents_kept_empty.
Qed.

(** C6 (amended). For every well-formed post and every document in which
    no block of the post has changed parent (the empty document among
    them), once the post has been encoded, encoding it again leaves the
    document as it is and performs no write: the only calls on the
    replicated store are order-list deletions of length zero and
    insertions of the empty sequence; in particular no content entry is
    set or deleted and no title, comment or reply field is set. *)
Theorem updatePostDoc_again doc0 P :
  post_well_formed P →
  parents_kept doc0 (default [] (post_blocks P)) →
  let doc := (updatePostDoc doc0 P).1 in
  (updatePostDoc doc P).1 = doc
  ∧ Forall (λ w, void_write w = true) (updatePostDoc doc P).2.
Proof.
  intros [Hwf Hcs] Hkept doc. subst doc.
  destruct (updatePostDoc_store doc0 P Hwf Hkept) as (om & bc & -> & Hroot & Hrep).
  pose proof (updateCommentsDoc_represents (default ∅ (doc_comments doc0)) _ Hcs)
    as Hrepc.
  destruct (settled_all _ om bc Hrep) as (w & Hrun & Hvoid).
  unfold updatePostDoc. simpl.
  rewrite decide_False by (intros Hne; by apply Hne).
  unfold updateBlocksDoc. rewrite updateOrder_same by done. rewrite Hrun.
  rewrite updateCommentsDoc_settled by done. simpl. split; [done|].
  rewrite app_nil_r. repeat constructor.
  apply Forall_map. eapply Forall_impl; [exact Hvoid|].
  intros x Hx. by rewrite void_write_InBlocks.
Qed.

End Post.

(** ** Concrete trees *)

Definition leaf (id : string) (a : nat) : block (A:=nat) :=
  Block (BlockProps id a) [].
Definition node (id : string) (a : nat) (inner : list (block (A:=nat)))
  : block (A:=nat) :=
  Block (BlockProps id a) inner.

(** Two parents, each with a child of id ["x"] but different attributes. *)
Definition sharedChild : list (block (A:=nat)) :=
  [node "p" 0 [leaf "x" 1]; node "q" 0 [leaf "x" 2]].

(** A single block whose id is the key of the root order list. *)
Definition rootNamed : list (block (A:=nat)) := [leaf "" 7].

(** A block ["x"] under ["q"], and the same tree after moving it under
    the earlier sibling ["p"]. *)
Definition beforeMove : list (block (A:=nat)) :=
  [node "p" 1 []; node "q" 2 [leaf "x" 3]].
Definition afterMove : list (block (A:=nat)) :=
  [node "p" 1 [leaf "x" 3]; node "q" 2 []].

(** Two blocks at the root, and the tree after deleting the second. *)
Definition twoBlocks : list (block (A:=nat)) := [leaf "a" 1; leaf "b" 2].
Definition oneBlock : list (block (A:=nat)) := [leaf "a" 1].

Definition blocksOnly (bs : list (block (A:=nat))) : post (A:=nat) :=
  Post (Some "") (Some bs) None.

Lemma afterMove_well_formed : well_formed afterMove.
Proof. apply (bool_decide_unpack _). by vm_compute. Qed.

Lemma postDocToObject_updatePostDoc_witness :
  postDocToObject 3 (updatePostDoc emptyDoc (blocksOnly afterMove)).1
  = Ok (PostObject "" (map to_decoded afterMove)).
Proof.
  apply (postDocToObject_updatePostDoc (blocksOnly afterMove) 3).
  - exact afterMove_well_formed.
  - vm_compute. lia.
Defined.

(** C1 (as stated, refuted). The ids of [sharedChild] and of [rootNamed]
    are unique within every order list, yet neither tree survives the
    round trip: both copies of ["x"] come back with the attributes
    written last, and the block named by the empty string is lost. *)
Lemma postDocToObject_updatePostDoc_not_identity :
  (siblings_unique sharedChild = true
   ∧ postDocToObject 3 (updatePostDoc emptyDoc (blocksOnly sharedChild)).1
     = Ok (PostObject ""
             (map to_decoded [node "p" 0 [leaf "x" 2]; node "q" 0 [leaf "x" 2]]))
   ∧ map to_decoded [node "p" 0 [leaf "x" 2]; node "q" 0 [leaf "x" 2]]
     ≠ map to_decoded sharedChild)
  ∧ (siblings_unique rootNamed = true
     ∧ postDocToObject 3 (updatePostDoc emptyDoc (blocksOnly rootNamed)).1
       = Ok (PostObject "" [])
     ∧ [] ≠ map to_decoded rootNamed).
Proof. split; (split_and!; [by vm_compute|by vm_compute|discriminate]). Qed.

Lemma oneBlock_well_formed : post_well_formed (blocksOnly oneBlock).
Proof.
  split.
  - apply (bool_decide_unpack _). by vm_compute.
  - split; [constructor|]. intros c Hc. by apply elem_of_nil in Hc.
Qed.

Lemma oneBlock_parents_kept :
  parents_kept (updatePostDoc emptyDoc (blocksOnly twoBlocks)).1 oneBlock.
Proof.
  split.
  - intros x _ Hx. exact Hx.
  - apply Forall_cons. split; [|by apply Forall_nil].
    intros x Hx. vm_compute in Hx. by apply elem_of_nil in Hx.
Qed.

Lemma updatePostDoc_again_witness :
  let doc0 := (updatePostDoc emptyDoc (blocksOnly twoBlocks)).1 in
  let doc := (updatePostDoc doc0 (blocksOnly oneBlock)).1 in
  (updatePostDoc doc (blocksOnly oneBlock)).1 = doc
  ∧ Forall (λ w, void_write w = true) (updatePostDoc doc (blocksOnly oneBlock)).2.
Proof.
  apply (updatePostDoc_again (updatePostDoc emptyDoc (blocksOnly twoBlocks)).1
           (blocksOnly oneBlock)).
  - exact oneBlock_well_formed.
  - exact oneBlock_parents_kept.
Defined.

(** C6 (as stated, refuted). Re-encoding an unchanged tree does write
    when an id occurs under two parents (the second pass sets the content
    of ["x"] again), when a block is named by the empty string (the
    second pass inserts it into the root order list again), and also for
    a well-formed tree when the store held the moved block under a later
    sibling: the first pass deletes the content of ["x"] after writing
    it, so the second pass writes it again. *)
Lemma updatePostDoc_again_writes :
  (let doc := (updatePostDoc emptyDoc (blocksOnly sharedChild)).1 in
   InBlocks (ContentSet "x" (BlockProps "x" 1))
     ∈ (updatePostDoc doc (blocksOnly sharedChild)).2)
  ∧ (let doc := (updatePostDoc emptyDoc (blocksOnly rootNamed)).1 in
     InBlocks (OrderInsert "" 0 [""])
       ∈ (updatePostDoc doc (blocksOnly rootNamed)).2)
  ∧ (let doc0 := (updatePostDoc emptyDoc (blocksOnly beforeMove)).1 in
     let doc := (updatePostDoc doc0 (blocksOnly afterMove)).1 in
     well_formed afterMove
     ∧ InBlocks (ContentSet "x" (BlockProps "x" 3))
         ∈ (updatePostDoc doc (blocksOnly afterMove)).2).
Proof.
  split_and!; cbv zeta; [| |split; [exact afterMove_well_formed|]];
    apply (bool_decide_unpack _); by vm_compute.
Qed.

(** C2 (the code at the failing input). Deleting the second of two root
    blocks: the diff removes one id at index 1, the code inspects
    [currentOrder.slice( 1, 1 )], which is empty, and the content of the
    removed block ["b"] stays in the content map although no order list
    mentions it any more. *)
Theorem updateBlocksDoc_removed_content_survives :
  let d1 := (updateBlocksDoc (BlocksDoc None None) twoBlocks "").1 in
  let run := updateBlocksDoc d1 oneBlock "" in
  simpleDiffArray ["a"; "b"] ["a"] = ArrayDiff 1 1 []
  ∧ js_slice 1 1 ["a"; "b"] = []
  ∧ (order run.1 ≫= (λ om, om !! "")) = Some ["a"]
  ∧ (order run.1 ≫= (λ om, om !! "a")) = Some []
  ∧ (order run.1 ≫= (λ om, om !! "b")) = Some []
  ∧ (byClientId run.1 ≫= (λ bc, bc !! "b")) = Some (BlockProps "b" 2)
  ∧ ContentDelete "b" ∉ run.2.
Proof.
  cbv zeta. split_and!; try (by vm_compute).
  apply (bool_decide_unpack _). by vm_compute.
Qed.

(** The other half of the invariant also fails: after moving ["x"] from
    ["q"] to the earlier sibling ["p"], the order list of ["p"] mentions
    ["x"] but its content entry has been deleted, and decoding returns a
    block without content. *)
Lemma updateBlocksDoc_moved_content_lost :
  let d1 := (updateBlocksDoc (BlocksDoc None None) beforeMove "").1 in
  let run := updateBlocksDoc d1 afterMove "" in
  (order run.1 ≫= (λ om, om !! "p")) = Some ["x"]
  ∧ (byClientId run.1 ≫= (λ bc, bc !! "x")) = None
  ∧ ContentDelete "x" ∈ run.2
  ∧ blocksDocToArray 3 (Some run.1) ""
    = Ok [Decoded (Some (BlockProps "p" 1)) [Decoded None []];
          Decoded (Some (BlockProps "q" 2)) []].
Proof.
  cbv zeta. split_and!; try (by vm_compute).
  apply (bool_decide_unpack _). by vm_compute.
Qed.

End CodecProps.

(* ===================================================================== *)
(** * Further properties of the tree codec *)
(* ===================================================================== *)

Module CodecMore.
Import Diff Codec DiffProps CodecProps.

Section Blocks.
Context {A : Type} `{EqDecision A}.

Implicit Types (b : block (A:=A)) (bs : list (block (A:=A))).
Implicit Types (p : blockProps (A:=A)) (d : blocksDoc (A:=A)).

(** The order lists and the content map of a store, empty when the
    collection has not been created yet. *)
Definition order_of d : gmap string (list string) := default ∅ (order d).
Definition content_of d : gmap string (blockProps (A:=A)) :=
  default ∅ (byClientId d).

(** The ids whose content the first part of [updateBlocksDoc] deletes:
    those of [currentOrder.slice(index, remove)] that the diff does not
    insert. *)
Definition purged (currentOrder ids : list string) : list string :=
  filter (λ c, c ∉ insert (simpleDiffArray currentOrder ids))
    (js_slice (index (simpleDiffArray currentOrder ids))
       (remove (simpleDiffArray currentOrder ids)) currentOrder).

(** Induction over trees: the empty tree, a block followed by its later
    siblings, and a block over its children. *)
Lemma forest_ind (Q : list (block (A:=A)) → Prop) :
  Q [] →
  (∀ b bs, Q [b] → Q bs → Q (b :: bs)) →
  (∀ p inner, Q inner → Q [Block p inner]) →
  ∀ bs, Q bs.
Proof.
  intros Hnil Hcons Hblock.
  assert (∀ bs, Forall (λ b, Q [b]) bs → Q bs) as Hall.
  { induction bs as [|b bs IH]; intros Hbs; [done|].
    apply Forall_cons in Hbs as [Hb Hbs]. apply Hcons; [done|by apply IH]. }
  intros bs. apply Hall, Forall_forall. intros b _.
  induction b as [p inner IH] using block_ind'. by apply Hblock, Hall.
Qed.

Lemma updateBlocksDoc_store d bs cid :
  (updateBlocksDoc d bs cid).1
  = (updateBlocks bs (updateOrder cid (map blockId bs) d).1).1.
Proof.
  unfold updateBlocksDoc. destruct (updateOrder _ _ _) as [d1 w1]. simpl.
  by destruct (updateBlocks bs d1).
Qed.

Lemma order_of_setContent p d : order_of (setContent p d).1 = order_of d.
Proof. by rewrite setContent_store. Qed.

Lemma content_of_setContent p d :
  content_of (setContent p d).1 = <[clientId p := p]> (content_of d).
Proof. by rewrite setContent_store. Qed.

Lemma order_of_updateOrder cid ids d :
  order_of (updateOrder cid ids d).1 = <[cid := ids]> (order_of d).
Proof. by destruct (updateOrder_store cid ids d) as (doomed & -> & _). Qed.

Lemma content_of_updateOrder cid ids d :
  content_of (updateOrder cid ids d).1
  = foldl (λ m c, delete c m) (content_of d)
      (purged (default [] (order_of d !! cid)) ids).
Proof.
  unfold updateOrder, content_of, order_of, purged.
  destruct (order d) as [om1|], (byClientId d) as [bc1|];
    cbv beta iota zeta delta [default from_option id];
    (destruct (_ !! cid) as [l|]; cbv beta iota zeta delta [fst]; done).
Qed.

Lemma lookup_foldl_delete_elem (bc : gmap string (blockProps (A:=A)))
    (doomed : list string) k :
  k ∈ doomed → foldl (λ m c, delete c m) bc doomed !! k = None.
Proof.
  revert bc. induction doomed as [|c doomed IH]; intros bc Hk; simpl;
    [by apply elem_of_nil in Hk|].
  destruct (decide (k ∈ doomed)) as [Hin|Hout]; [by apply IH|].
  apply elem_of_cons in Hk as [->|Hk]; [|done].
  by rewrite lookup_foldl_delete, lookup_delete_eq.
Qed.

Lemma lookup_foldl_delete_None (bc : gmap string (blockProps (A:=A)))
    (doomed : list string) k :
  bc !! k = None → foldl (λ m c, delete c m) bc doomed !! k = None.
Proof.
  intros Hk. destruct (decide (k ∈ doomed)) as [Hin|Hout].
  - by apply lookup_foldl_delete_elem.
  - by rewrite lookup_foldl_delete.
Qed.

(** Only the order lists of the blocks of the tree are written by the
    loop of [updateBlocksDoc]. *)
Lemma updateBlocks_order_frame bs :
  ∀ d k, k ∉ forest_ids bs → order_of (updateBlocks bs d).1 !! k = order_of d !! k.
Proof.
  induction bs as [|b bs IHb IHbs|p inner IH] using forest_ind; intros d k Hk.
  - done.
  - rewrite forest_ids_cons in Hk. apply not_elem_of_app in Hk as [Hk1 Hk2].
    rewrite updateBlocks_cons_store, <- updateBlocks_single_store.
    by rewrite IHbs, IHb.
  - rewrite forest_ids_block in Hk. apply not_elem_of_cons in Hk as [Hne Hk].
    rewrite updateBlocks_single_store, updateBlock_store, IH by done.
    rewrite order_of_updateOrder, order_of_setContent.
    by apply lookup_insert_ne.
Qed.

(** The loop of [updateBlocksDoc] never creates a content entry for an id
    that is not a block of the tree. *)
Lemma updateBlocks_content_absent bs :
  ∀ d k, k ∉ forest_ids bs → content_of d !! k = None →
         content_of (updateBlocks bs d).1 !! k = None.
Proof.
  induction bs as [|b bs IHb IHbs|p inner IH] using forest_ind; intros d k Hk Hnone.
  - done.
  - rewrite forest_ids_cons in Hk. apply not_elem_of_app in Hk as [Hk1 Hk2].
    rewrite updateBlocks_cons_store, <- updateBlocks_single_store.
    by apply IHbs, IHb.
  - rewrite forest_ids_block in Hk. apply not_elem_of_cons in Hk as [Hne Hk].
    rewrite updateBlocks_single_store, updateBlock_store. apply IH; [done|].
    rewrite content_of_updateOrder. apply lookup_foldl_delete_None.
    rewrite content_of_setContent. by rewrite lookup_insert_ne.
Qed.

(** X1. Whatever the store holds and whatever the tree, as long as the
    parent key is not the id of a block of the tree, [updateBlocksDoc]
    leaves the order list of the parent equal to the ids of the given
    blocks, in their order. *)
Theorem updateBlocksDoc_order_list d bs cid :
  cid ∉ forest_ids bs →
  order_of (updateBlocksDoc d bs cid).1 !! cid = Some (map blockId bs).
Proof.
  intros Hcid. rewrite updateBlocksDoc_store, updateBlocks_order_frame by done.
  rewrite order_of_updateOrder. apply lookup_insert_eq.
Qed.

(** X2. [updateBlocksDoc] never removes or changes the order list of a
    parent that is neither the parent it is called for nor a block of the
    tree: the order lists of deleted blocks stay in the store. *)
Theorem updateBlocksDoc_other_order_lists d bs cid k :
  k ≠ cid → k ∉ forest_ids bs →
  order_of (updateBlocksDoc d bs cid).1 !! k = order_of d !! k.
Proof.
  intros Hne Hk. rewrite updateBlocksDoc_store, updateBlocks_order_frame by done.
  rewrite order_of_updateOrder. by apply lookup_insert_ne.
Qed.

(** An id deleted by the first part of [updateBlocksDoc] comes from the
    range the diff removes. *)
Lemma purged_removed (cur ids : list string) x :
  x ∈ purged cur ids →
  (x ∉ insert (simpleDiffArray cur ids))
  ∧ x ∈ take (remove (simpleDiffArray cur ids))
          (drop (index (simpleDiffArray cur ids)) cur).
Proof.
  unfold purged, js_slice. intros [Hins Hx]%list_elem_of_filter. split; [done|].
  set (i := index (simpleDiffArray cur ids)) in *.
  set (r := remove (simpleDiffArray cur ids)) in *.
  assert (r - i = Nat.min (r - i) r) as Hmin by lia.
  rewrite Hmin, <- take_take in Hx. by apply subseteq_take in Hx.
Qed.

(** With an order list free of duplicates, no id of the new sequence is
    among the deleted ones. *)
Lemma purged_not_new (cur ids : list string) x :
  NoDup cur → x ∈ purged cur ids → x ∉ ids.
Proof.
  intros Hnd [Hins Hmid]%purged_removed Hx.
  set (i := index (simpleDiffArray cur ids)) in *.
  set (r := remove (simpleDiffArray cur ids)) in *.
  rewrite <- (simpleDiffArray_correct cur ids) in Hx. unfold apply_diff in Hx.
  fold i r in Hx. rewrite <- (take_drop i cur) in Hnd.
  apply NoDup_app in Hnd as (_ & Hdisj1 & Hnd).
  rewrite <- (take_drop r (drop i cur)) in Hnd.
  apply NoDup_app in Hnd as (_ & Hdisj2 & _).
  apply elem_of_app in Hx as [Hx|Hx].
  - apply (Hdisj1 x Hx). by apply subseteq_take in Hmid.
  - apply elem_of_app in Hx as [Hx|Hx]; [done|].
    apply (Hdisj2 x Hmid). by rewrite drop_drop.
Qed.

(** When the diff starts at index 0, every id of the old order list that
    the new sequence drops is among the deleted ones. *)
Lemma purged_from_front (cur ids : list string) x :
  common_prefix cur ids = 0 → x ∈ cur → x ∉ ids → x ∈ purged cur ids.
Proof.
  intros Hpre Hcur Hnew. unfold purged, js_slice, simpleDiffArray. simpl.
  rewrite Hpre. simpl. rewrite !Nat.sub_0_r.
  set (right := common_suffix cur ids).
  apply list_elem_of_filter. split.
  - intros Hin. by apply subseteq_take in Hin.
  - rewrite <- (take_drop (length cur - right) cur) in Hcur.
    apply elem_of_app in Hcur as [Hcur|Hcur]; [done|].
    unfold right in Hcur. rewrite common_suffix_drop in Hcur.
    by apply subseteq_drop in Hcur.
Qed.

(** X3. When the order list of the parent has no duplicates, the first
    part of [updateBlocksDoc] (diff, purge, splice) never deletes the
    content of an id that occurs in the new sequence: blocks that are
    merely reordered under their parent keep their content entry. *)
Theorem updateOrder_keeps_new_content cid ids d x :
  NoDup (default [] (order_of d !! cid)) →
  x ∈ ids →
  content_of (updateOrder cid ids d).1 !! x = content_of d !! x.
Proof.
  intros Hnd Hx. rewrite content_of_updateOrder. apply lookup_foldl_delete.
  intros Hp. by apply (purged_not_new _ _ _ Hnd Hp).
Qed.

(** X4. When the new children share no leading id with the order list of
    the parent (the diff starts at index 0), [updateBlocksDoc] purges the
    content of every id of the old order list that is not a block of the
    new tree. *)
Theorem updateBlocksDoc_purges_from_front d bs cid x :
  common_prefix (default [] (order_of d !! cid)) (map blockId bs) = 0 →
  x ∈ default [] (order_of d !! cid) →
  x ∉ forest_ids bs →
  content_of (updateBlocksDoc d bs cid).1 !! x = None.
Proof.
  intros Hpre Hcur Hx. rewrite updateBlocksDoc_store.
  apply updateBlocks_content_absent; [done|].
  rewrite content_of_updateOrder. apply lookup_foldl_delete_elem.
  apply purged_from_front; [done|done|].
  intros Hin. by apply Hx, children_forest_ids.
Qed.

(** ** Writes caused by changed attributes *)

(** The store lists, for every block of the tree, exactly its children:
    the shape of the tree is already in the store, whatever the content
    map holds. *)
Definition shape_stored (om : gmap string (list string)) bs : Prop :=
  Forall (λ n, om !! clientId n.1 = Some n.2) (forest_nodes bs).

(** The blocks of the tree whose stored content is missing or differs
    from the block, in the order the codec visits them. *)
Definition stale (bc : gmap string (blockProps (A:=A))) bs
  : list (blockProps (A:=A) * list string) :=
  filter (λ n, bc !! clientId n.1 ≠ Some n.1) (forest_nodes bs).

(** The calls of a write log that are not void. *)
Definition effective (w : list (blockWrite (A:=A))) : list (blockWrite (A:=A)) :=
  filter (λ x, void_block_write x = false) w.

Lemma stale_agree bc bc' bs :
  (∀ k, k ∈ forest_ids bs → bc' !! k = bc !! k) → stale bc' bs = stale bc bs.
Proof.
  unfold stale, forest_ids. intros Hag.
  induction (forest_nodes bs) as [|n ns IH]; [done|].
  assert (bc' !! clientId n.1 = bc !! clientId n.1) as Hn
    by (apply Hag, list_elem_of_here).
  assert (filter (λ n, bc' !! clientId n.1 ≠ Some n.1) ns
          = filter (λ n, bc !! clientId n.1 ≠ Some n.1) ns) as Hrest.
  { apply IH. intros k Hk. apply Hag. by apply list_elem_of_further. }
  destruct (decide (bc !! clientId n.1 ≠ Some n.1)).
  - rewrite !filter_cons_True by (by rewrite ?Hn). by f_equal.
  - rewrite !filter_cons_False by (by rewrite ?Hn). done.
Qed.

Lemma stale_cons bc b bs :
  stale bc (b :: bs) = stale bc [b] ++ stale bc bs.
Proof.
  unfold stale. rewrite !forest_nodes_cons. simpl.
  by rewrite app_nil_r, filter_app.
Qed.

Lemma stale_block bc p inner :
  stale bc [Block p inner]
  = if decide (bc !! clientId p = Some p) then stale bc inner
    else (p, map blockId inner) :: stale bc inner.
Proof.
  unfold stale. rewrite forest_nodes_cons, block_nodes_unfold.
  simpl (forest_nodes []). rewrite app_nil_r.
  destruct (decide (bc !! clientId p = Some p)) as [Heq|Hne].
  - rewrite filter_cons_False; [done|]. simpl. by intros Hn.
  - by rewrite filter_cons_True.
Qed.

Lemma effective_app w1 w2 : effective (w1 ++ w2) = effective w1 ++ effective w2.
Proof. apply filter_app. Qed.

Lemma shape_stored_cons om b bs :
  shape_stored om (b :: bs) ↔ shape_stored om [b] ∧ shape_stored om bs.
Proof.
  unfold shape_stored. rewrite !forest_nodes_cons. simpl.
  rewrite app_nil_r. apply Forall_app.
Qed.

Lemma updateBlocks_single b d : updateBlocks [b] d = updateBlock b d.
Proof.
  rewrite updateBlocks_cons. destruct (updateBlock b d) as [d1 w1]. simpl.
  by rewrite app_nil_r.
Qed.

(** The loop of [updateBlocksDoc] on a store that already has the shape
    of the tree: the order lists are left alone, the content map changes
    only at the blocks of the tree, and the effective writes are one
    content write per stale block. *)
Lemma updateBlocks_writes_stale bs :
  ∀ om bc,
    NoDup (forest_ids bs) → shape_stored om bs →
    ∃ bc',
      (updateBlocks bs (BlocksDoc (Some om) (Some bc))).1
      = BlocksDoc (Some om) (Some bc')
      ∧ (∀ k, k ∉ forest_ids bs → bc' !! k = bc !! k)
      ∧ effective (updateBlocks bs (BlocksDoc (Some om) (Some bc))).2
        = map (λ n, ContentSet (clientId n.1) n.1) (stale bc bs).
Proof.
  induction bs as [|b bs IHb IHbs|p inner IH] using forest_ind;
    intros om bc Hnd Hshape.
  - exists bc. by split_and!.
  - rewrite forest_ids_cons in Hnd. apply NoDup_app in Hnd as (Hnd1 & Hdisj & Hnd2).
    apply shape_stored_cons in Hshape as [Hs1 Hs2].
    destruct (IHb om bc Hnd1 Hs1) as (bc1 & Hrun1 & Hfr1 & Hw1).
    destruct (IHbs om bc1 Hnd2 Hs2) as (bc2 & Hrun2 & Hfr2 & Hw2).
    exists bc2. split_and!.
    + rewrite updateBlocks_cons_store, <- updateBlocks_single_store.
      by rewrite Hrun1, Hrun2.
    + intros k Hk. rewrite forest_ids_cons in Hk.
      apply not_elem_of_app in Hk as [Hk1 Hk2]. by rewrite Hfr2, Hfr1.
    + rewrite updateBlocks_single in Hrun1, Hw1.
      rewrite updateBlocks_cons.
      destruct (updateBlock b _) as [d1 w1]. simpl in Hrun1, Hw1. subst d1.
      destruct (updateBlocks bs _) as [d2 w2]. simpl in Hw2 |- *.
      rewrite effective_app, Hw1, Hw2, (stale_cons bc b bs), map_app.
      rewrite (stale_agree bc bc1 bs); [done|].
      intros k Hk. apply Hfr1. intros Hk1. by apply (Hdisj k).
  - rewrite forest_ids_block in Hnd. apply NoDup_cons in Hnd as [Hp Hnd].
    unfold shape_stored in Hshape. rewrite forest_nodes_cons in Hshape.
    simpl in Hshape. rewrite app_nil_r in Hshape.
    apply Forall_cons in Hshape as [Hord Hshape]. simpl in Hord.
    destruct (IH om (<[clientId p := p]> bc) Hnd Hshape) as (bc' & Hrun & Hfr & Hw).
    exists bc'. split_and!.
    + rewrite updateBlocks_single_store, updateBlock_store, setContent_store.
      simpl. rewrite updateOrder_same by done. done.
    + intros k Hk. rewrite forest_ids_block in Hk.
      apply not_elem_of_cons in Hk as [Hne Hk].
      by rewrite Hfr, lookup_insert_ne.
    + rewrite (stale_agree bc (<[clientId p := p]> bc) inner) in Hw.
      2:{ intros k Hk. apply lookup_insert_ne. intros Heq. apply Hp. by rewrite Heq. }
      rewrite updateBlocks_single, updateBlock_unfold, stale_block.
      unfold updateBlocksDoc.
      destruct (decide (bc !! clientId p = Some p)) as [Heq|Hne].
      * rewrite setContent_same by done. rewrite updateOrder_same by done.
        rewrite (insert_id bc) in Hw, Hrun by done.
        destruct (updateBlocks inner _) as [d3 w3]. simpl in Hw |- *.
        exact Hw.
      * unfold setContent. simpl byClientId. simpl default. simpl order.
        rewrite decide_False by done. rewrite updateOrder_same by done.
        destruct (updateBlocks inner _) as [d3 w3]. simpl in Hw |- *.
        unfold effective in *. rewrite filter_cons_True by done.
        simpl. by f_equal.
Qed.

(** X9. When the store already has the shape of the tree (the order list
    of the parent and of every block hold the same children) and the ids
    of the tree are pairwise distinct, [updateBlocksDoc] leaves every
    order list as it is and its only effective writes are one content
    write for each block whose stored content is missing or differs, in
    visiting order: changing the attributes of one block costs one
    write. *)
Theorem updateBlocksDoc_writes_stale bs cid om bc :
  NoDup (forest_ids bs) →
  om !! cid = Some (map blockId bs) →
  shape_stored om bs →
  order_of (updateBlocksDoc (BlocksDoc (Some om) (Some bc)) bs cid).1 = om
  ∧ effective (updateBlocksDoc (BlocksDoc (Some om) (Some bc)) bs cid).2
    = map (λ n, ContentSet (clientId n.1) n.1) (stale bc bs).
Proof.
  intros Hnd Hroot Hshape.
  destruct (updateBlocks_writes_stale bs om bc Hnd Hshape) as (bc' & Hrun & _ & Hw).
  unfold updateBlocksDoc. rewrite updateOrder_same by done.
  destruct (updateBlocks bs _) as [d2 w2]. simpl in *. subst d2.
  split; [done|]. by rewrite <- Hw.
Qed.

(** ** Decoding what was encoded always returns *)

(** Both maps of the store exist, as after lines 22-31. *)
Definition created d : Prop := is_Some (order d) ∧ is_Some (byClientId d).

Lemma created_eq d : created d → d = BlocksDoc (Some (order_of d)) (Some (content_of d)).
Proof. destruct d as [[om|] [bc|]]; intros [[? ?] [? ?]]; by simplify_eq/=. Qed.

Lemma created_updateOrder cid ids d : created (updateOrder cid ids d).1.
Proof. destruct (updateOrder_store cid ids d) as (doomed & -> & _). by split. Qed.

Lemma created_setContent p d : created d → created (setContent p d).1.
Proof. intros [Ho _]. rewrite setContent_store. by split. Qed.

Lemma created_updateBlocks bs : ∀ d, created d → created (updateBlocks bs d).1.
Proof.
  induction bs as [|b bs IHb IHbs|p inner IH] using forest_ind; intros d Hd.
  - done.
  - rewrite updateBlocks_cons_store. apply IHbs.
    rewrite <- updateBlocks_single_store. by apply IHb.
  - rewrite updateBlocks_single_store, updateBlock_store.
    apply IH, created_updateOrder.
Qed.

Lemma created_updateBlocksDoc d bs cid : created (updateBlocksDoc d bs cid).1.
Proof.
  rewrite updateBlocksDoc_store. apply created_updateBlocks, created_updateOrder.
Qed.

(** The order lists written for a tree, in the order of the visits: the
    id of each block with the ids of its children. *)
Definition order_writes bs : list (string * list string) :=
  map (λ n, (clientId n.1, n.2)) (forest_nodes bs).

Definition write_orders (om : gmap string (list string))
    (ws : list (string * list string)) : gmap string (list string) :=
  foldl (λ om n, <[n.1 := n.2]> om) om ws.

Lemma order_writes_cons b bs :
  order_writes (b :: bs) = order_writes [b] ++ order_writes bs.
Proof.
  unfold order_writes. rewrite !forest_nodes_cons. simpl.
  by rewrite app_nil_r, map_app.
Qed.

Lemma order_writes_block p inner :
  order_writes [Block p inner]
  = (clientId p, map blockId inner) :: order_writes inner.
Proof. unfold order_writes. simpl. by rewrite app_nil_r. Qed.

Lemma map_fst_order_writes bs : map fst (order_writes bs) = forest_ids bs.
Proof. unfold order_writes, forest_ids. by rewrite map_map. Qed.

(** Every visit overwrites the order list of the visited id. *)
Lemma order_of_updateBlocks bs :
  ∀ d, order_of (updateBlocks bs d).1 = write_orders (order_of d) (order_writes bs).
Proof.
  induction bs as [|b bs IHb IHbs|p inner IH] using forest_ind; intros d.
  - done.
  - rewrite updateBlocks_cons_store, IHbs, <- updateBlocks_single_store, IHb.
    rewrite (order_writes_cons b bs). unfold write_orders. by rewrite foldl_app.
  - rewrite updateBlocks_single_store, updateBlock_store, IH.
    by rewrite order_of_updateOrder, order_of_setContent, order_writes_block.
Qed.

Lemma order_of_updateBlocksDoc d bs cid :
  order_of (updateBlocksDoc d bs cid).1
  = write_orders (order_of d) ((cid, map blockId bs) :: order_writes bs).
Proof.
  by rewrite updateBlocksDoc_store, order_of_updateBlocks, order_of_updateOrder.
Qed.

Lemma write_orders_frame ws : ∀ om k,
  k ∉ map fst ws → write_orders om ws !! k = om !! k.
Proof.
  induction ws as [|n ws IH]; intros om k Hk; [done|].
  simpl in Hk. apply not_elem_of_cons in Hk as [Hne Hk].
  simpl. rewrite IH by done. by apply lookup_insert_ne.
Qed.

(** The last visit of an id decides its order list. *)
Lemma write_orders_last om ws1 n ws2 :
  n.1 ∉ map fst ws2 → write_orders om (ws1 ++ n :: ws2) !! n.1 = Some n.2.
Proof.
  intros Hn. unfold write_orders. rewrite foldl_app. simpl.
  fold (write_orders (<[n.1:=n.2]> (foldl (λ om n, <[n.1:=n.2]> om) om ws1)) ws2).
  rewrite write_orders_frame by done. apply lookup_insert_eq.
Qed.

(** Every id listed by a visit is visited later. *)
Fixpoint children_later (ws : list (string * list string)) : Prop :=
  match ws with
  | [] => True
  | n :: ws' => (∀ c, c ∈ n.2 → c ∈ map fst ws') ∧ children_later ws'
  end.

Lemma children_later_forest bs :
  ∀ rest, children_later rest → children_later (order_writes bs ++ rest).
Proof.
  induction bs as [|b bs IHb IHbs|p inner IH] using forest_ind; intros rest Hrest.
  - done.
  - rewrite (order_writes_cons b bs), <- app_assoc. by apply IHb, IHbs.
  - rewrite order_writes_block. simpl. split; [|by apply IH].
    intros c Hc. rewrite map_app, map_fst_order_writes.
    apply elem_of_app. left. by apply children_forest_ids.
Qed.

Lemma res_map_ok {X Y} (f : X → res Y) (l : list X) :
  (∀ x, x ∈ l → ∃ y, f x = Ok y) → ∃ ys, res_map f l = Ok ys.
Proof.
  induction l as [|x l IH]; intros Hf; [by eexists|].
  destruct (Hf x (list_elem_of_here _ _)) as [y Hy].
  destruct IH as [ys Hys].
  { intros x' Hx'. apply Hf. by apply list_elem_of_further. }
  exists (y :: ys). simpl. by rewrite Hy, Hys.
Qed.

(** Decoding from an id visited in the last [length ws2] visits needs no
    more fuel than that. *)
Lemma blocksDocToArray_visited (om : gmap string (list string))
    (bc : gmap string (blockProps (A:=A))) ws :
  ∀ ws2 ws1 x fuel,
    ws = ws1 ++ ws2 → children_later ws2 →
    x ∈ map fst ws2 → length ws2 ≤ fuel →
    ∃ r, blocksDocToArray fuel
           (Some (BlocksDoc (Some (write_orders om ws)) (Some bc))) x = Ok r.
Proof.
  induction ws2 as [|n ws2 IH]; intros ws1 x fuel Hws Hlater Hx Hfuel.
  - by apply elem_of_nil in Hx.
  - destruct Hlater as [Hn Hlater]. simpl in Hfuel.
    assert (ws = (ws1 ++ [n]) ++ ws2) as Hws' by by rewrite <- app_assoc.
    destruct (decide (x ∈ map fst ws2)) as [Hin|Hout].
    + apply (IH (ws1 ++ [n])); [done..|lia].
    + simpl in Hx. apply elem_of_cons in Hx as [->|Hx]; [|done].
      destruct fuel as [|fuel]; [lia|]. simpl.
      rewrite Hws, write_orders_last by done. rewrite <- Hws.
      apply res_map_ok. intros c Hc.
      destruct (IH (ws1 ++ [n]) c fuel Hws' Hlater (Hn c Hc)) as [r Hr]; [lia|].
      rewrite Hr. by eexists.
Qed.

(** X10. Whatever the tree (ids may repeat or be empty) and whatever the
    store held before, the store written by [updateBlocksDoc] can be
    decoded from the same parent: with fuel beyond the number of blocks
    of the tree, [blocksDocToArray] returns a block list; it neither
    throws nor runs into a cycle of order lists. *)
Theorem blocksDocToArray_updateBlocksDoc_returns d bs cid fuel :
  length (forest_ids bs) < fuel →
  ∃ r, blocksDocToArray fuel (Some (updateBlocksDoc d bs cid).1) cid = Ok r.
Proof.
  intros Hfuel.
  rewrite (created_eq _ (created_updateBlocksDoc d bs cid)).
  rewrite order_of_updateBlocksDoc.
  apply (blocksDocToArray_visited _ _ _ ((cid, map blockId bs) :: order_writes bs) []).
  - done.
  - split.
    + intros c Hc. rewrite map_fst_order_writes. by apply children_forest_ids.
    + rewrite <- (app_nil_r (order_writes bs)). by apply children_later_forest.
  - apply list_elem_of_here.
  - simpl. rewrite <- map_fst_order_writes, length_map in Hfuel. lia.
Qed.

End Blocks.

(** ** Comments *)

(** The field loop on an existing map writes the fields whose stored
    value differs from the source, in the order of the loop. *)
Lemma setFields_writes fields src m :
  NoDup fields →
  (setFields fields false src m).2
  = map (λ f, (f, src f)) (filter (λ f, field_get m f ≠ src f) fields).
Proof.
  revert m. induction fields as [|f fields IH]; intros m Hnd; [done|].
  apply NoDup_cons in Hnd as [Hf Hnd]. cbn [setFields orb].
  destruct (decide (field_get m f ≠ src f)) as [Hne|Heq].
  - rewrite bool_decide_eq_true_2 by done.
    rewrite filter_cons_True by done.
    specialize (IH (<[f := src f]> m) Hnd).
    destruct (setFields fields false src (<[f:=src f]> m)) as [m' w].
    simpl in *. f_equal. rewrite IH. f_equal.
    clear -Hf. induction fields as [|g fields IHg]; [done|].
    apply not_elem_of_cons in Hf as [Hfg Hf].
    assert (field_get (<[f:=src f]> m) g = field_get m g) as Hg.
    { rewrite field_get_insert. by rewrite decide_False. }
    destruct (decide (field_get m g ≠ src g)).
    + rewrite !filter_cons_True by (by rewrite ?Hg). f_equal. by apply IHg.
    + rewrite !filter_cons_False by (by rewrite ?Hg). by apply IHg.
  - rewrite bool_decide_eq_false_2 by done.
    rewrite filter_cons_False by done. by apply IH.
Qed.

Lemma commentFields_NoDup : NoDup commentFields.
Proof. apply (bool_decide_unpack _). by vm_compute. Qed.

#[local] Opaque replyFields commentFields.

Lemma updateCommentRepliesDoc_kept rd rs k :
  is_Some (rd !! k) → is_Some ((updateCommentRepliesDoc rd rs).1 !! k).
Proof.
  revert rd. induction rs as [|r rs IH]; intros rd Hk; simpl; [done|].
  destruct (setFields replyFields _ _ _) as [m wf].
  specialize (IH (<[reply_id r := m]> rd)).
  destruct (updateCommentRepliesDoc (<[reply_id r:=m]> rd) rs) as [rd' w].
  simpl in *. apply IH. rewrite lookup_insert. by case_decide.
Qed.

Lemma updateCommentsDoc_kept_step cd cs k :
  is_Some (cd !! k) → is_Some ((updateCommentsDoc cd cs).1 !! k).
Proof.
  revert cd. induction cs as [|c cs IH]; intros cd Hk; simpl; [done|].
  destruct (setFields commentFields _ _ _) as [m wf].
  destruct (updateCommentRepliesDoc _ _) as [rs wr].
  specialize (IH (<[comment_id c := CommentDoc m rs]> cd)).
  destruct (updateCommentsDoc _ cs) as [cd' w].
  simpl in *. apply IH. rewrite lookup_insert. by case_decide.
Qed.

(** X5. [updateCommentsDoc] has no garbage collection: a comment that is
    stored but absent from the new list is left exactly as it is, and no
    stored comment ever disappears. *)
Theorem updateCommentsDoc_keeps_comments (cd : gmap string commentDoc)
    (cs : list comment) (k : string) :
  (k ∉ map comment_id cs → (updateCommentsDoc cd cs).1 !! k = cd !! k)
  ∧ (is_Some (cd !! k) → is_Some ((updateCommentsDoc cd cs).1 !! k)).
Proof.
  split.
  - apply updateCommentsDoc_frame.
  - apply updateCommentsDoc_kept_step.
Qed.

(** X6. After [updateCommentsDoc] on comments with pairwise distinct ids
    (and pairwise distinct reply ids within each comment), whatever the
    store held before, every comment of the list is stored under its id
    with each of its eight fields equal to the comment's, and every reply
    of the comment is stored under its id with each of its four fields
    equal to the reply's. *)
Theorem updateCommentsDoc_stores_fields (cd : gmap string commentDoc)
    (cs : list comment) (c : comment) :
  comments_well_formed cs → c ∈ cs →
  ∃ doc,
    (updateCommentsDoc cd cs).1 !! comment_id c = Some doc
    ∧ (∀ f, f ∈ commentFields →
            field_get (comment_doc_fields doc) f = comment_field c f)
    ∧ ∀ r, r ∈ comment_replies c →
        ∃ m, comment_doc_replies doc !! reply_id r = Some m
             ∧ ∀ f, f ∈ replyFields → field_get m f = reply_field r f.
Proof.
  intros Hwf Hc. exact (updateCommentsDoc_represents cd cs Hwf c Hc).
Qed.

(** X7. Updating one stored comment whose replies are unchanged writes
    exactly the fields whose value differs ([!==]) from the stored one,
    in the order of the field loop, and nothing else: no map is created
    and no reply field is written. *)
Theorem updateCommentsDoc_writes_changed_fields (cd : gmap string commentDoc)
    (c : comment) (doc : commentDoc) :
  cd !! comment_id c = Some doc →
  represents_replies (comment_doc_replies doc) (comment_replies c) →
  (updateCommentsDoc cd [c]).2
  = map (λ f, CommentFieldSet (comment_id c) f (comment_field c f))
      (filter (λ f, field_get (comment_doc_fields doc) f ≠ comment_field c f)
         commentFields).
Proof.
  intros Hdoc Hrs. simpl. rewrite Hdoc. simpl.
  pose proof (setFields_writes commentFields (comment_field c)
                (comment_doc_fields doc) commentFields_NoDup) as Hw.
  destruct (setFields commentFields _ _ _) as [m wf]. simpl in Hw. subst wf.
  rewrite updateCommentRepliesDoc_settled by done. simpl.
  rewrite app_nil_r, map_map. done.
Qed.

Section Post.
Context {A : Type} `{EqDecision A}.


End Post.

(** ** Concrete stores and comments *)

Definition storeOf (bs : list (block (A:=nat))) : blocksDoc (A:=nat) :=
  (updateBlocksDoc (BlocksDoc None None) bs "").1.

(** [afterMove] with the attributes of ["x"] changed. *)
Definition afterEdit : list (block (A:=nat)) :=
  [node "p" 1 [leaf "x" 9]; node "q" 2 []].

Definition aReply : reply :=
  Reply "r1" (JString "yes") (JNumber 2) (JString "u2") (JString "Bob").
Definition aComment : comment :=
  Comment "c1" (JString "note") (JString "hello") (JNumber 1) (JString "open")
    (JNumber 0) (JNumber 5) (JString "u1") (JString "Ann") [aReply].
Definition aCommentResolved : comment :=
  Comment "c1" (JString "note") (JString "hello") (JNumber 1) (JString "resolved")
    (JNumber 0) (JNumber 5) (JString "u1") (JString "Ann") [aReply].
Definition anotherComment : comment :=
  Comment "c2" (JString "note") (JString "bye") (JNumber 3) (JString "open")
    (JNumber 7) (JNumber 9) (JString "u2") (JString "Bob") [].
Definition aCommentDoc : commentDoc :=
  CommentDoc
    (list_to_map [("type", JString "note"); ("content", JString "hello");
                  ("createdAt", JNumber 1); ("status", JString "open");
                  ("start", JNumber 0); ("end", JNumber 5);
                  ("authorId", JString "u1"); ("authorName", JString "Ann")])
    (list_to_map [("r1", list_to_map [("content", JString "yes");
                                      ("createdAt", JNumber 2);
                                      ("authorId", JString "u2");
                                      ("authorName", JString "Bob")])]).

Ltac decide_closed := apply (bool_decide_unpack _); by vm_compute.

#[local] Transparent replyFields commentFields.

Lemma updateBlocksDoc_order_list_witness :
  order_of (updateBlocksDoc (storeOf beforeMove) afterMove "").1 !! ""
  = Some ["p"; "q"].
Proof.
  apply (updateBlocksDoc_order_list (storeOf beforeMove) afterMove "").
  decide_closed.
Defined.

Lemma updateBlocksDoc_other_order_lists_witness :
  order_of (updateBlocksDoc (storeOf beforeMove) twoBlocks "").1 !! "q"
  = order_of (storeOf beforeMove) !! "q".
Proof.
  apply (updateBlocksDoc_other_order_lists (storeOf beforeMove) twoBlocks "" "q").
  - discriminate.
  - decide_closed.
Defined.

Lemma updateOrder_keeps_new_content_witness :
  content_of (updateOrder "" ["q"; "p"] (storeOf beforeMove)).1 !! "q"
  = content_of (storeOf beforeMove) !! "q".
Proof.
  apply (updateOrder_keeps_new_content "" ["q"; "p"] (storeOf beforeMove) "q").
  - decide_closed.
  - decide_closed.
Defined.

Lemma updateBlocksDoc_purges_from_front_witness :
  content_of (updateBlocksDoc (storeOf twoBlocks) [leaf "c" 3] "").1 !! "a" = None.
Proof.
  apply (updateBlocksDoc_purges_from_front (storeOf twoBlocks) [leaf "c" 3] "" "a").
  - by vm_compute.
  - decide_closed.
  - decide_closed.
Defined.


Lemma updateBlocksDoc_writes_stale_witness :
  order_of (updateBlocksDoc
              (BlocksDoc (Some (order_of (storeOf afterMove)))
                 (Some (content_of (storeOf afterMove)))) afterEdit "").1
  = order_of (storeOf afterMove)
  ∧ effective (updateBlocksDoc
                 (BlocksDoc (Some (order_of (storeOf afterMove)))
                    (Some (content_of (storeOf afterMove)))) afterEdit "").2
    = [ContentSet "x" (BlockProps "x" 9)].
Proof.
  assert (stale (content_of (storeOf afterMove)) afterEdit
          = [(BlockProps "x" 9, [])]) as Hstale by (by vm_compute).
  change [ContentSet "x" (BlockProps "x" 9)]
    with (map (λ n : blockProps * list string, ContentSet (clientId n.1) n.1)
            [(BlockProps "x" 9, [])]).
  rewrite <- Hstale.
  apply (updateBlocksDoc_writes_stale afterEdit ""
           (order_of (storeOf afterMove)) (content_of (storeOf afterMove))).
  - decide_closed.
  - by vm_compute.
  - decide_closed.
Defined.

Lemma blocksDocToArray_updateBlocksDoc_returns_witness :
  ∃ r, blocksDocToArray 5
         (Some (updateBlocksDoc (storeOf beforeMove) sharedChild "").1) "" = Ok r.
Proof.
  apply (blocksDocToArray_updateBlocksDoc_returns (storeOf beforeMove) sharedChild "" 5).
  vm_compute. lia.
Defined.

Lemma updateCommentsDoc_keeps_comments_witness :
  (updateCommentsDoc {["c1" := aCommentDoc]} [anotherComment]).1 !! "c1"
  = Some aCommentDoc.
Proof.
  etransitivity.
  - apply (proj1 (updateCommentsDoc_keeps_comments {["c1" := aCommentDoc]}
                    [anotherComment] "c1")).
    decide_closed.
  - by vm_compute.
Defined.

Lemma updateCommentsDoc_stores_fields_witness :
  ∃ doc,
    (updateCommentsDoc ∅ [aComment]).1 !! "c1" = Some doc
    ∧ (∀ f, f ∈ commentFields →
            field_get (comment_doc_fields doc) f = comment_field aComment f)
    ∧ ∀ r, r ∈ comment_replies aComment →
        ∃ m, comment_doc_replies doc !! reply_id r = Some m
             ∧ ∀ f, f ∈ replyFields → field_get m f = reply_field r f.
Proof.
  apply (updateCommentsDoc_stores_fields ∅ [aComment] aComment).
  - split; [decide_closed|].
    intros c Hc. apply list_elem_of_singleton in Hc as ->. decide_closed.
  - apply list_elem_of_here.
Defined.

Lemma updateCommentsDoc_writes_changed_fields_witness :
  (updateCommentsDoc {["c1" := aCommentDoc]} [aCommentResolved]).2
  = [CommentFieldSet "c1" "status" (JString "resolved")].
Proof.
  apply (updateCommentsDoc_writes_changed_fields {["c1" := aCommentDoc]}
           aCommentResolved aCommentDoc).
  - by vm_compute.
  - intros r Hr. apply list_elem_of_singleton in Hr as ->.
    exists (list_to_map [("content", JString "yes"); ("createdAt", JNumber 2);
                         ("authorId", JString "u2"); ("authorName", JString "Bob")]).
    split; [by vm_compute|].
    intros f Hf.
    repeat (apply elem_of_cons in Hf as [->|Hf]; [by vm_compute|]).
    by apply elem_of_nil in Hf.
Defined.


End CodecMore.

(* ===================================================================== *)
(** * The session: invariants and exchanges *)
(* ===================================================================== *)

Module SessionMore.
Import Wire Session WireProps SessionProps.

Section Document.
Context {ydoc change D G : Type} `{!Primitives ydoc change} `{!NumberConversion}.
Variable opts : options ydoc D G.

Implicit Types (s : session ydoc change) (m : message) (c : call (D:=D)).

(** ** What a transaction leaves alone *)

Lemma afterTransaction_listeners o before s :
  listeners (next (afterTransaction opts o before s)) = listeners s.
Proof.
  unfold afterTransaction. destruct (transactionUpdate before (doc s)); [|done].
  by destruct (onUpdate _ _ _ _).
Qed.

Lemma afterTransaction_manager o before s :
  is_Some (undoManager s) →
  is_Some (undoManager (next (afterTransaction opts o before s))).
Proof.
  intros [um Hum]. unfold afterTransaction. rewrite Hum.
  destruct (decide (o = _)); [destruct (captureTransaction _ _ _) as [um1 []]|];
    (destruct (transactionUpdate before (doc s));
     [destruct (onUpdate _ _ _ _)|]; simpl; by eexists).
Qed.

Lemma afterTransaction_remote_manager o before s :
  o ≠ OriginValue (Some (identity opts)) →
  undoManager (next (afterTransaction opts o before s)) = undoManager s.
Proof.
  intros Ho. unfold afterTransaction.
  assert (match undoManager s with
          | Some um =>
              if decide (o = OriginValue (Some (identity opts))) then
                let '(um1, added) := captureTransaction um before (doc s) in
                Some (if added
                      then Manager (alter_last (onStackItemAdded (editorSelection s))
                                      (undoStack um1)) (redoStack um1)
                      else um1)
              else Some um
          | None => None
          end = undoManager s) as ->.
  { destruct (undoManager s); [|done]. by rewrite decide_False. }
  destruct (transactionUpdate before (doc s)); [|by destruct s].
  destruct (onUpdate _ _ _ _). by destruct s.
Qed.

Lemma dispatchPop_manager type po s :
  is_Some (undoManager (next (dispatchPop opts type po s))).
Proof.
  unfold dispatchPop.
  destruct (match pop_update po with Some u => _ | None => _ end) as [e1 x].
  destruct x; [simpl; by eexists|].
  destruct (pop_item po); [|simpl; by eexists].
  destruct (onStackItemPopped _ _ _); simpl; by eexists.
Qed.

Lemma dispatchPop_state type po s :
  state (next (dispatchPop opts type po s)) = state s.
Proof.
  unfold dispatchPop.
  destruct (match pop_update po with Some u => _ | None => _ end) as [e1 x].
  destruct x; [done|]. destruct (pop_item po); [|done].
  by destruct (onStackItemPopped _ _ _).
Qed.

Lemma applyRemoteUpdate_manager m s :
  is_Some (undoManager s) →
  is_Some (undoManager (next (applyRemoteUpdate opts m s))).
Proof.
  intros Hum. unfold applyRemoteUpdate. destruct (update m); [|done].
  by apply afterTransaction_manager.
Qed.

Lemma applyDataChanges_manager data s :
  is_Some (undoManager s) →
  is_Some (undoManager (next (applyDataChanges opts data s))).
Proof.
  intros Hum. unfold applyDataChanges. case_decide; [done|].
  by apply afterTransaction_manager.
Qed.

Lemma setState_On_manager s :
  is_Some (undoManager (setState (G:=G) On s).1).
Proof. simpl. by destruct (undoManager s). Qed.

(** ** The undo manager exists whenever the session is on *)

(** Once constructed, the undo manager is never dropped. *)
Lemma perform_keeps_manager c s :
  is_Some (undoManager s) → is_Some (undoManager (next (perform opts c s))).
Proof.
  intros Hum. pose proof Hum as [um Heq]. destruct c; simpl; try done.
  - by apply applyDataChanges_manager.
  - unfold connect. case_decide; [done|]. simpl. done.
  - unfold startSharing. case_decide; [done|].
    change (is_Some (undoManager
                       (next (applyDataChanges opts data (setState (G:=G) On s).1)))).
    apply applyDataChanges_manager, setState_On_manager.
  - unfold receiveMessage.
    destruct (decide (protocol m ≠ "yjs1")); [done|].
    destruct (decide (messageType m = "sync1")).
    { destruct (_ && _); [done|]. by destruct (stateVector m). }
    destruct (decide (messageType m = "sync2")).
    { destruct (decide (destination m ≠ _)); [done|].
      pose proof (applyRemoteUpdate_manager m s Hum) as [um' Hum'].
      destruct (thrown (applyRemoteUpdate opts m s)); [by eexists|].
      simpl. rewrite Hum'. by eexists. }
    destruct (decide (messageType m = "syncUpdate")); [|done].
    by apply applyRemoteUpdate_manager.
  - unfold undo. rewrite Heq. apply dispatchPop_manager.
  - unfold redo. rewrite Heq. apply dispatchPop_manager.
Qed.

Definition ready s : Prop := state s = On → is_Some (undoManager s).

Lemma perform_ready c s : ready s → ready (next (perform opts c s)).
Proof.
  intros Hr. unfold ready.
  destruct (decide (state s = On)) as [Hon|Hoff].
  { intros _. by apply perform_keeps_manager, Hr. }
  destruct c; simpl; try (intros Hn; by destruct (Hoff Hn)).
  - rewrite applyDataChanges_state. intros Hn. by destruct (Hoff Hn).
  - unfold connect. rewrite decide_False by done. simpl. discriminate.
  - unfold disconnect. simpl. discriminate.
  - unfold startSharing. rewrite decide_False by done. intros _.
    change (is_Some (undoManager
                       (next (applyDataChanges opts data (setState (G:=G) On s).1)))).
    apply applyDataChanges_manager, setState_On_manager.
  - unfold receiveMessage.
    destruct (decide (protocol m ≠ "yjs1")); [intros Hn; by destruct (Hoff Hn)|].
    destruct (decide (messageType m = "sync1")).
    { destruct (_ && _); [intros Hn; by destruct (Hoff Hn)|].
      destruct (stateVector m); intros Hn; by destruct (Hoff Hn). }
    destruct (decide (messageType m = "sync2")).
    { destruct (decide (destination m ≠ _)); [intros Hn; by destruct (Hoff Hn)|].
      destruct (thrown (applyRemoteUpdate opts m s)).
      - rewrite applyRemoteUpdate_state. intros Hn. by destruct (Hoff Hn).
      - intros _. apply (setState_On_manager (next (applyRemoteUpdate opts m s))). }
    destruct (decide (messageType m = "syncUpdate")).
    + rewrite applyRemoteUpdate_state. intros Hn. by destruct (Hoff Hn).
    + intros Hn. by destruct (Hoff Hn).
  - unfold undo. destruct (undoManager s); [|intros Hn; by destruct (Hoff Hn)].
    rewrite dispatchPop_state. intros Hn. by destruct (Hoff Hn).
  - unfold redo. destruct (undoManager s); [|intros Hn; by destruct (Hoff Hn)].
    rewrite dispatchPop_state. intros Hn. by destruct (Hoff Hn).
Qed.

Lemma history_ready cs : ∀ s, ready s → ready (history opts cs s).1.
Proof.
  induction cs as [|c cs IH]; intros s Hr; [done|]. simpl.
  specialize (IH (next (perform opts c s)) (perform_ready c s Hr)).
  by destruct (history opts cs _).
Qed.

(** X13. After any history of calls on a fresh session, a session whose
    connection state is ['on'] has an undo manager: every way of reaching
    ['on'] goes through [setState], whose first listener constructs it,
    and no call drops it afterwards. *)
Theorem on_has_undo_manager (cs : list (call (D:=D))) sel :
  state (history opts cs (initial sel)).1 = On →
  is_Some (undoManager (history opts cs (initial sel)).1).
Proof. apply history_ready. unfold ready. simpl. discriminate. Qed.

(** X14. A call that takes the session from another state to ['on'] is
    [startSharing], or the receipt of a ['sync2'] message of protocol
    ['yjs1'] addressed to this client and carrying an update. Nothing
    else turns a session on: not [connect], not a ['sync1'] or a
    ['syncUpdate'], not a local change, not undo or redo. *)
Theorem turns_on_only c s :
  state s ≠ On → state (next (perform opts c s)) = On →
  (∃ data, c = StartSharing data)
  ∨ (∃ m, c = ReceiveMessage m ∧ protocol m = "yjs1" ∧ messageType m = "sync2"
          ∧ destination m = Some (identity opts) ∧ is_Some (update m)).
Proof.
  intros Hoff. destruct c; simpl; try (intros Hn; by destruct (Hoff Hn)).
  - rewrite applyDataChanges_state. intros Hn. by destruct (Hoff Hn).
  - unfold connect. rewrite decide_False by done. simpl. discriminate.
  - unfold disconnect. simpl. discriminate.
  - intros _. left. by eexists.
  - unfold receiveMessage.
    destruct (decide (protocol m ≠ "yjs1")) as [|Hp];
      [intros Hn; by destruct (Hoff Hn)|].
    apply dec_stable in Hp.
    destruct (decide (messageType m = "sync1")).
    { destruct (_ && _); [intros Hn; by destruct (Hoff Hn)|].
      destruct (stateVector m); intros Hn; by destruct (Hoff Hn). }
    destruct (decide (messageType m = "sync2")) as [Ht|].
    { destruct (decide (destination m ≠ _)) as [|Hd];
        [intros Hn; by destruct (Hoff Hn)|].
      apply dec_stable in Hd.
      destruct (update m) as [u|] eqn:Hu.
      - intros _. right. exists m. rewrite Hu. by split_and!.
      - unfold applyRemoteUpdate. rewrite Hu. simpl.
        intros Hn. by destruct (Hoff Hn). }
    destruct (decide (messageType m = "syncUpdate")).
    + rewrite applyRemoteUpdate_state. intros Hn. by destruct (Hoff Hn).
    + intros Hn. by destruct (Hoff Hn).
  - unfold undo. destruct (undoManager s); [|intros Hn; by destruct (Hoff Hn)].
    rewrite dispatchPop_state. intros Hn. by destruct (Hoff Hn).
  - unfold redo. destruct (undoManager s); [|intros Hn; by destruct (Hoff Hn)].
    rewrite dispatchPop_state. intros Hn. by destruct (Hoff Hn).
Qed.

(** ** Remote updates *)

(** The update handler for a transaction that is neither this client's
    nor the undo manager's: nothing is sent, and the listeners receive
    the data read back from the document. *)
Lemma onUpdate_remote s u o :
  o ≠ OriginValue (Some (identity opts)) → o ≠ OriginUndoManager →
  onUpdate opts s u o
  = match opt_getData opts (doc s) with
    | Ok newData => (map (λ l, RemoteData l newData) (listeners s), None)
    | Throw e => ([], Some e)
    | OutOfFuel => ([], Some "RangeError")
    end.
Proof.
  intros Ho Hu. unfold onUpdate.
  rewrite !bool_decide_eq_false_2 by done. rewrite decide_False by done.
  simpl. by destruct (opt_getData opts (doc s)).
Qed.

Lemma afterTransaction_remote o before s :
  o ≠ OriginValue (Some (identity opts)) → o ≠ OriginUndoManager →
  afterTransaction opts o before s
  = match transactionUpdate before (doc s) with
    | None => Outcome s [] None
    | Some u =>
        match opt_getData opts (doc s) with
        | Ok newData => Outcome s (map (λ l, RemoteData l newData) (listeners s)) None
        | Throw e => Outcome s [] (Some e)
        | OutOfFuel => Outcome s [] (Some "RangeError")
        end
    end.
Proof.
  intros Ho Hu. unfold afterTransaction.
  assert (with_undoManager
            match undoManager s with
            | Some um =>
                if decide (o = OriginValue (Some (identity opts))) then
                  let '(um1, added) := captureTransaction um before (doc s) in
                  Some (if added
                        then Manager (alter_last (onStackItemAdded (editorSelection s))
                                        (undoStack um1)) (redoStack um1)
                        else um1)
                else Some um
            | None => None
            end s = s) as ->.
  { destruct s as [d st [um|] ls sls sel]; simpl; [|done].
    by rewrite decide_False. }
  destruct (transactionUpdate before (doc s)); [|done].
  rewrite onUpdate_remote by done. by destruct (opt_getData opts (doc s)).
Qed.

(** The ['syncUpdate'] case of [receiveMessage] for an origin other than
    this client's identity. *)
Lemma receiveMessage_syncUpdate_remote m s u :
  protocol m = "yjs1" → messageType m = "syncUpdate" → update m = Some u →
  origin m ≠ Some (identity opts) →
  let after := applyUpdate (doc s) (decodeArray u) in
  let o := receiveMessage opts m s in
  doc (next o) = after
  ∧ state (next o) = state s
  ∧ undoManager (next o) = undoManager s
  ∧ (∀ m', Sent m' ∉ emitted o)
  ∧ (∀ upd data,
       transactionUpdate (doc s) after = Some upd →
       opt_getData opts after = Ok data →
       emitted o = map (λ l, RemoteData l data) (listeners s) ∧ thrown o = None).
Proof.
  intros Hp Ht Hu Ho after o. subst o. unfold receiveMessage.
  rewrite decide_False by (intros Hn; by apply Hn).
  rewrite (decide_False (P := messageType m = "sync1")) by (by rewrite Ht).
  rewrite (decide_False (P := messageType m = "sync2")) by (by rewrite Ht).
  rewrite decide_True by done.
  unfold applyRemoteUpdate. rewrite Hu. fold after.
  rewrite afterTransaction_remote by congruence. simpl doc.
  destruct (transactionUpdate (doc s) after) as [upd|].
  - destruct (opt_getData opts after) as [data| |]; simpl; split_and!; try done.
    + intros m' (l & Hl & _)%list_elem_of_fmap. discriminate.
    + intros upd' data' _ [= <-]. done.
    + intros m' Hm'. by apply elem_of_nil in Hm'.
    + intros m' Hm'. by apply elem_of_nil in Hm'.
  - simpl. split_and!; try done. intros m' Hm'. by apply elem_of_nil in Hm'.
Qed.

(** X15. A ['syncUpdate'] whose origin is not this client's identity is
    applied in every connection state, also ['off'] and ['connecting']:
    the document becomes the result of [applyUpdate] on the decoded
    bytes; the connection state and the undo manager (which tracks only
    this client's identity) are untouched; nothing is sent, so a remote
    update is never broadcast again; and when the update changed the
    document and [getData] returns, every remote-data listener is called
    once with the data, in subscription order. *)
Theorem receiveMessage_remote_update m s u :
  protocol m = "yjs1" → messageType m = "syncUpdate" → update m = Some u →
  origin m ≠ Some (identity opts) →
  let after := applyUpdate (doc s) (decodeArray u) in
  let o := receiveMessage opts m s in
  doc (next o) = after
  ∧ state (next o) = state s
  ∧ undoManager (next o) = undoManager s
  ∧ (∀ m', Sent m' ∉ emitted o)
  ∧ (∀ upd data,
       transactionUpdate (doc s) after = Some upd →
       opt_getData opts after = Ok data →
       emitted o = map (λ l, RemoteData l data) (listeners s) ∧ thrown o = None).
Proof. exact (receiveMessage_syncUpdate_remote m s u). Qed.

(** A ['sync2'] addressed to this client, from any state. *)
Lemma receiveMessage_sync2_addressed m s u :
  protocol m = "yjs1" → messageType m = "sync2" →
  destination m = Some (identity opts) → update m = Some u →
  origin m ≠ Some (identity opts) →
  (∀ d, ∃ g, opt_getData opts d = Ok g) →
  let o := receiveMessage opts m s in
  state (next o) = On ∧ thrown o = None
  ∧ (∀ m', Sent m' ∉ emitted o)
  ∧ doc (next o) = applyUpdate (doc s) (decodeArray u).
Proof.
  intros Hp Ht Hd Hu Ho Hg o. subst o. unfold receiveMessage.
  rewrite decide_False by (intros Hn; by apply Hn).
  rewrite (decide_False (P := messageType m = "sync1")) by (by rewrite Ht).
  rewrite decide_True by done.
  rewrite decide_False by (intros Hn; by apply Hn).
  unfold applyRemoteUpdate. rewrite Hu.
  rewrite afterTransaction_remote by congruence. simpl doc.
  destruct (Hg (applyUpdate (doc s) (decodeArray u))) as [g Hgd]. rewrite Hgd.
  destruct (transactionUpdate _ _); simpl; split_and!; try done.
  - intros m' [Hin|Hin]%elem_of_app;
      apply list_elem_of_fmap in Hin as (l' & Hl & _); discriminate.
  - intros m' (l' & Hl & _)%list_elem_of_fmap. discriminate.
Qed.

(** ** Delivery of a local change *)

Lemma decodeArray_encodeArray_bytes (u : list Byte.byte) :
  u ≠ [] → decodeArray (encodeArray u) = u.
Proof.
  intros Hne. unfold decodeArray, encodeArray.
  rewrite split_join.
  - rewrite map_map. rewrite <- (map_id u) at 2.
    apply map_ext. intros b. apply piece_to_uint8_byte_to_string.
  - by destruct u.
  - apply Forall_map, Forall_forall. intros b _. apply byte_to_string_comma_free.
Qed.

(** ** Listeners *)

(** The effects of a history of calls, in order. *)
Fixpoint effects (cs : list (call (D:=D))) (s : session ydoc change)
  : list (effect G) :=
  match cs with
  | [] => []
  | c :: cs' => emitted (perform opts c s) ++ effects cs' (next (perform opts c s))
  end.

Lemma onUpdate_listener s u o l g :
  RemoteData l g ∈ (onUpdate opts s u o).1 → l ∈ listeners s.
Proof.
  unfold onUpdate.
  set (sent := if _ && _ then [Sent (syncUpdateMessage u)] else []).
  assert (RemoteData l g ∉ sent) as Hsent.
  { subst sent. destruct (_ && _); intros Hin.
    - apply list_elem_of_singleton in Hin. discriminate.
    - by apply elem_of_nil in Hin. }
  destruct (decide (o = _)); [done|].
  destruct (opt_getData opts (doc s)); simpl; try done.
  intros [Hin|Hin]%elem_of_app; [done|].
  apply list_elem_of_fmap in Hin as (l' & [= -> _] & Hl'). done.
Qed.

Lemma afterTransaction_listener o before s l g :
  RemoteData l g ∈ emitted (afterTransaction opts o before s) → l ∈ listeners s.
Proof.
  unfold afterTransaction.
  destruct (transactionUpdate before (doc s)).
  - destruct (onUpdate _ _ _ _) as [e x] eqn:He. simpl. intros Hin.
    assert (RemoteData l g ∈ (onUpdate opts
              (with_undoManager
                 match undoManager s with
                 | Some um =>
                     if decide (o = OriginValue (Some (identity opts))) then
                       let '(um1, added) := captureTransaction um before (doc s) in
                       Some (if added
                             then Manager (alter_last
                                             (onStackItemAdded (editorSelection s))
                                             (undoStack um1)) (redoStack um1)
                             else um1)
                     else Some um
                 | None => None
                 end s) l0 o).1) as Hin' by by rewrite He.
    by apply onUpdate_listener in Hin'.
  - simpl. intros Hin. by apply elem_of_nil in Hin.
Qed.

Lemma setState_listener st s l g : RemoteData l g ∉ (setState (G:=G) st s).2.
Proof. simpl. intros (l' & Hl & _)%list_elem_of_fmap. discriminate. Qed.

Lemma applyDataChanges_listener data s l g :
  RemoteData l g ∈ emitted (applyDataChanges opts data s) → l ∈ listeners s.
Proof.
  unfold applyDataChanges. case_decide.
  - simpl. intros Hin. by apply elem_of_nil in Hin.
  - apply afterTransaction_listener.
Qed.

Lemma applyRemoteUpdate_listener m s l g :
  RemoteData l g ∈ emitted (applyRemoteUpdate opts m s) → l ∈ listeners s.
Proof.
  unfold applyRemoteUpdate. destruct (update m).
  - apply afterTransaction_listener.
  - simpl. intros Hin. by apply elem_of_nil in Hin.
Qed.

Lemma applyRemoteUpdate_listeners m s :
  listeners (next (applyRemoteUpdate opts m s)) = listeners s.
Proof.
  unfold applyRemoteUpdate. destruct (update m); [|done].
  by rewrite afterTransaction_listeners.
Qed.

Lemma applyDataChanges_listeners data s :
  listeners (next (applyDataChanges opts data s)) = listeners s.
Proof.
  unfold applyDataChanges. case_decide; [done|].
  by rewrite afterTransaction_listeners.
Qed.

Lemma dispatchPop_listeners type po s :
  listeners (next (dispatchPop opts type po s)) = listeners s.
Proof.
  unfold dispatchPop.
  destruct (match pop_update po with Some u => _ | None => _ end) as [e1 x].
  destruct x; [done|]. destruct (pop_item po); [|done].
  by destruct (onStackItemPopped _ _ _).
Qed.

Lemma dispatchPop_listener type po s l g :
  RemoteData l g ∈ emitted (dispatchPop opts type po s) → l ∈ listeners s.
Proof.
  unfold dispatchPop.
  set (s1 := with_undoManager _ (with_doc (pop_doc po) s)).
  assert (RemoteData l g ∈
            (match pop_update po with
             | Some u => onUpdate opts s1 u OriginUndoManager
             | None => ([], None)
             end).1 → l ∈ listeners s) as Hupd.
  { destruct (pop_update po); simpl.
    - intros Hin. by apply onUpdate_listener in Hin.
    - intros Hin. by apply elem_of_nil in Hin. }
  destruct (match pop_update po with Some u => _ | None => _ end) as [e1 x].
  simpl in Hupd.
  destruct x; [done|]. destruct (pop_item po); [|done].
  destruct (onStackItemPopped _ _ _); [|done]. simpl.
  intros [Hin|Hin]%elem_of_app; [by apply Hupd|].
  apply list_elem_of_singleton in Hin. discriminate.
Qed.

(** A call emits remote data only to subscribed listeners. *)
Lemma perform_listener c s l g :
  RemoteData l g ∈ emitted (perform opts c s) → l ∈ listeners s.
Proof.
  destruct c; simpl; try (intros Hin; by apply elem_of_nil in Hin).
  - apply applyDataChanges_listener.
  - unfold connect. case_decide; simpl.
    + intros Hin. by apply elem_of_nil in Hin.
    + intros [Hin|Hin]%elem_of_app.
      * by apply setState_listener in Hin.
      * apply list_elem_of_singleton in Hin. discriminate.
  - intros Hin. by apply (setState_listener Off s) in Hin.
  - unfold startSharing. case_decide.
    + simpl. intros Hin. by apply elem_of_nil in Hin.
    + change (RemoteData l g ∈ (setState (G:=G) On s).2
                ++ emitted (applyDataChanges opts data (setState (G:=G) On s).1)
              → l ∈ listeners s).
      intros [Hin|Hin]%elem_of_app.
      * by apply setState_listener in Hin.
      * by apply applyDataChanges_listener in Hin.
  - unfold receiveMessage.
    destruct (decide (protocol m ≠ "yjs1"));
      [simpl; intros Hin; by apply elem_of_nil in Hin|].
    destruct (decide (messageType m = "sync1")).
    { destruct (_ && _); [simpl; intros Hin; by apply elem_of_nil in Hin|].
      destruct (stateVector m); simpl.
      - intros [Hin|Hin]%elem_of_cons; [discriminate|].
        destruct (negb _); [|by apply elem_of_nil in Hin].
        apply list_elem_of_singleton in Hin. discriminate.
      - intros Hin. by apply elem_of_nil in Hin. }
    destruct (decide (messageType m = "sync2")).
    { destruct (decide (destination m ≠ _));
        [simpl; intros Hin; by apply elem_of_nil in Hin|].
      destruct (thrown (applyRemoteUpdate opts m s)).
      - apply applyRemoteUpdate_listener.
      - change (RemoteData l g ∈ emitted (applyRemoteUpdate opts m s)
                  ++ (setState (G:=G) On (next (applyRemoteUpdate opts m s))).2
                → l ∈ listeners s).
        intros [Hin|Hin]%elem_of_app.
        + by apply applyRemoteUpdate_listener in Hin.
        + by apply setState_listener in Hin. }
    destruct (decide (messageType m = "syncUpdate")).
    + apply applyRemoteUpdate_listener.
    + simpl. intros Hin. by apply elem_of_nil in Hin.
  - unfold undo. destruct (undoManager s).
    + apply dispatchPop_listener.
    + simpl. intros Hin. by apply elem_of_nil in Hin.
  - unfold redo. destruct (undoManager s).
    + apply dispatchPop_listener.
    + simpl. intros Hin. by apply elem_of_nil in Hin.
Qed.

(** Only [onRemoteDataChange] subscribes a listener. *)
Lemma perform_listeners c s l :
  l ∈ listeners (next (perform opts c s)) →
  l ∈ listeners s ∨ c = OnRemoteDataChange l.
Proof.
  destruct c; simpl; try (by left).
  - rewrite applyDataChanges_listeners. by left.
  - unfold connect. case_decide; by left.
  - unfold startSharing. case_decide; [by left|].
    change (l ∈ listeners (next (applyDataChanges opts data (setState (G:=G) On s).1))
            → l ∈ listeners s ∨ StartSharing (D:=D) data = OnRemoteDataChange l).
    rewrite applyDataChanges_listeners. by left.
  - unfold receiveMessage.
    destruct (decide (protocol m ≠ "yjs1")); [by left|].
    destruct (decide (messageType m = "sync1")).
    { destruct (_ && _); [by left|]. destruct (stateVector m); by left. }
    destruct (decide (messageType m = "sync2")).
    { destruct (decide (destination m ≠ _)); [by left|].
      destruct (thrown (applyRemoteUpdate opts m s)).
      - rewrite applyRemoteUpdate_listeners. by left.
      - change (l ∈ listeners (next (applyRemoteUpdate opts m s))
                → l ∈ listeners s ∨ ReceiveMessage (D:=D) m = OnRemoteDataChange l).
        rewrite applyRemoteUpdate_listeners. by left. }
    destruct (decide (messageType m = "syncUpdate")); [|by left].
    rewrite applyRemoteUpdate_listeners. by left.
  - intros [Hin|Hin]%elem_of_app; [by left|].
    apply list_elem_of_singleton in Hin as ->. by right.
  - intros [_ Hin]%list_elem_of_filter. by left.
  - unfold undo. destruct (undoManager s); [|by left].
    rewrite dispatchPop_listeners. by left.
  - unfold redo. destruct (undoManager s); [|by left].
    rewrite dispatchPop_listeners. by left.
Qed.

Lemma effects_unsubscribed cs l :
  OnRemoteDataChange l ∉ cs →
  ∀ s, l ∉ listeners s → ∀ g, RemoteData l g ∉ effects cs s.
Proof.
  induction cs as [|c cs IH]; intros Hcs s Hl g Hin; simpl in Hin.
  - by apply elem_of_nil in Hin.
  - apply not_elem_of_cons in Hcs as [Hc Hcs].
    apply elem_of_app in Hin as [Hin|Hin].
    + by apply perform_listener in Hin.
    + apply (IH Hcs (next (perform opts c s))) in Hin; [done|].
      intros [Hl'|Hl']%perform_listeners; [done|]. by subst c.
Qed.

(** X18. Disposal of a remote-data listener is final: once the disposer
    returned by [onRemoteDataChange] has run, no later call (local
    change, message, undo, redo, state change) hands data to that
    listener, until it is subscribed again. *)
Theorem disposed_listener_silent cs l s g :
  OnRemoteDataChange l ∉ cs →
  RemoteData l g ∉ effects cs (removeRemoteDataChange l s).
Proof.
  intros Hcs. apply effects_unsubscribed; [done|].
  simpl. intros [Hne _]%list_elem_of_filter. by apply Hne.
Qed.

(** ** The caret recorded with an undo step *)

Lemma alter_last_snoc {X} (f : X → X) (l : list X) (x : X) :
  alter_last f (l ++ [x]) = l ++ [f x].
Proof.
  induction l as [|y l IH]; [done|]. simpl. rewrite IH.
  by destruct (l ++ [x]) eqn:Hl; [destruct l|].
Qed.

(** X19. A local change made while ['on'] that the undo manager records
    as a new step gets the editor's selection at that moment attached to
    the step on top of the undo stack, every step below being left as it
    is; a change that the undo manager merges into the previous step
    leaves the recorded selections alone. *)
Theorem applyDataChanges_records_selection data s um um1 added :
  state s = On → undoManager s = Some um →
  captureTransaction um (doc s) (opt_applyDataChanges opts (doc s) data)
  = (um1, added) →
  (added = false → undoManager (next (applyDataChanges opts data s)) = Some um1)
  ∧ (∀ below top,
       added = true → undoStack um1 = below ++ [top] →
       undoManager (next (applyDataChanges opts data s))
       = Some (Manager
                 (below ++ [StackItem (item_change top) (Some (editorSelection s))])
                 (redoStack um1))).
Proof.
  intros Hon Hum Hcap.
  assert (undoManager (next (applyDataChanges opts data s))
          = Some (if added
                  then Manager (alter_last (onStackItemAdded (editorSelection s))
                                  (undoStack um1)) (redoStack um1)
                  else um1)) as ->.
  { unfold applyDataChanges. rewrite decide_False by (intros Hn; by apply Hn).
    unfold afterTransaction. simpl undoManager. simpl doc. simpl editorSelection.
    rewrite Hum, decide_True, Hcap by done.
    destruct (transactionUpdate _ _); [|done]. by destruct (onUpdate _ _ _ _). }
  split.
  - by intros ->.
  - intros below top -> Hstack. by rewrite Hstack, alter_last_snoc.
Qed.

(** X20. [undo()] puts the caret back where it was when the step that is
    now on top of the undo stack was recorded: when the primitive undo
    manager popped an item and the update handler did not throw, the
    selection attached to the new top of the undo stack, if it has a
    start position, is handed to [setSelection] as the last effect of
    the call. [redo()] does the same with the selection attached to the
    popped item itself. *)
Theorem undo_redo_restore_selection s um item sel :
  undoManager s = Some um → is_Some (sel_start sel) →
  (pop_item (popUndo um (doc s)) = Some item →
   thrown (undo opts s) = None →
   (∃ below top, undoStack (pop_manager (popUndo um (doc s))) = below ++ [top]
                 ∧ caret_location top = Some sel) →
   last (emitted (undo opts s)) = Some (SelectionSet sel)
   ∧ editorSelection (next (undo opts s)) = sel)
  ∧ (pop_item (popRedo um (doc s)) = Some item →
     thrown (redo opts s) = None →
     caret_location item = Some sel →
     last (emitted (redo opts s)) = Some (SelectionSet sel)
     ∧ editorSelection (next (redo opts s)) = sel).
Proof.
  intros Hum [c Hc]. split.
  - intros Hitem Hx (below & top & Hstack & Htop).
    unfold undo in *. rewrite Hum in *. unfold dispatchPop in *.
    rewrite Hitem in *.
    destruct (match pop_update _ with Some u => _ | None => _ end) as [e1 x].
    assert (onStackItemPopped Undo item
              (Some (if pop_added (popUndo um (doc s))
                     then Manager (undoStack (pop_manager (popUndo um (doc s))))
                            (alter_last (onStackItemAdded (editorSelection s))
                               (redoStack (pop_manager (popUndo um (doc s)))))
                     else pop_manager (popUndo um (doc s)))) = Some sel) as Hpop.
    { unfold onStackItemPopped. simpl.
      assert (undoStack (if pop_added (popUndo um (doc s))
                then Manager (undoStack (pop_manager (popUndo um (doc s))))
                       (alter_last (onStackItemAdded (editorSelection s))
                          (redoStack (pop_manager (popUndo um (doc s)))))
                else pop_manager (popUndo um (doc s))) = below ++ [top]) as ->.
      { by destruct (pop_added _). }
      rewrite last_snoc. simpl. rewrite Htop. simpl. by rewrite Hc. }
    destruct x; [done|]. rewrite Hpop. simpl. by rewrite last_snoc.
  - intros Hitem Hx Hcaret.
    unfold redo in *. rewrite Hum in *. unfold dispatchPop in *.
    rewrite Hitem in *.
    destruct (match pop_update _ with Some u => _ | None => _ end) as [e1 x].
    assert (∀ mgr, onStackItemPopped Redo item mgr = Some sel) as Hpop.
    { intros mgr. unfold onStackItemPopped. simpl. rewrite Hcaret. simpl.
      by rewrite Hc. }
    destruct x; [done|]. rewrite Hpop. simpl. by rewrite last_snoc.
Qed.


End Document.

Section Peers.
Context {ydoc change D G : Type} `{!Primitives ydoc change} `{!NumberConversion}.
Variables optsA optsB : options ydoc D G.

Implicit Types (s : session ydoc change) (m : message).

(** X16. A local change made while ['on'] reaches a peer intact: the
    transaction's update [u] (non-empty, as every update of the
    primitive layer is) is broadcast as one ['syncUpdate'] message, and a
    peer that receives this message, in whatever state, applies exactly
    [u] to its document, sends nothing and does not record the change in
    its undo manager. *)
Theorem local_change_delivered data (sA sB : session ydoc change) u :
  state sA = On →
  transactionUpdate (doc sA) (opt_applyDataChanges optsA (doc sA) data) = Some u →
  u ≠ [] →
  ∃ m,
    emitted (applyDataChanges optsA data sA) = [Sent m]
    ∧ thrown (applyDataChanges optsA data sA) = None
    ∧ doc (next (receiveMessage optsB m sB)) = applyUpdate (doc sB) u
    ∧ undoManager (next (receiveMessage optsB m sB)) = undoManager sB
    ∧ ∀ m', Sent m' ∉ emitted (receiveMessage optsB m sB).
Proof.
  intros Hon Hu Hne. exists (syncUpdateMessage u).
  assert (emitted (applyDataChanges optsA data sA) = [Sent (syncUpdateMessage u)]
          ∧ thrown (applyDataChanges optsA data sA) = None) as [He Hx].
  { unfold applyDataChanges. rewrite decide_False by (intros Hn; by apply Hn).
    unfold afterTransaction. simpl doc. rewrite Hu.
    unfold onUpdate. simpl state. rewrite Hon.
    rewrite decide_True by done. rewrite !bool_decide_eq_true_2 by done.
    by destruct (undoManager _). }
  destruct (receiveMessage_syncUpdate_remote optsB (syncUpdateMessage u) sB
              (encodeArray u)) as (Hd & _ & Hum & Hsent & _); try done.
  rewrite decodeArray_encodeArray_bytes in Hd by done.
  by split_and!.
Qed.

(** X17. The exchange started by [connect]. Session A, not yet ['on'],
    connects and so broadcasts a ['sync1'] with its state vector; a peer
    B answers with a ['sync2'] addressed to A and a ['sync1'] of its own
    marked as a reply; on the ['sync2'] A applies B's update and turns
    ['on']; A answers B's ['sync1'] with one ['sync2'] addressed to B and
    no further request, so the exchange ends after four messages; on
    that ['sync2'] B is ['on'] as well. [getData] is assumed to return on
    both sides. *)
Theorem connect_handshake (sA sB : session ydoc change) :
  state sA ≠ On →
  (∀ d, ∃ g, opt_getData optsA d = Ok g) →
  (∀ d, ∃ g, opt_getData optsB d = Ok g) →
  let oA1 := connect optsA sA in
  let m1 := syncMessage optsA sA None None in
  let oB1 := receiveMessage optsB m1 sB in
  let m2 := sync2Message sB (encodeArray (encodeStateVector (doc sA)))
              (Some (identity optsA)) in
  let m3 := syncMessage optsB sB (Some (identity optsA)) (Some true) in
  let oA2 := receiveMessage optsA m2 (next oA1) in
  let oA3 := receiveMessage optsA m3 (next oA2) in
  let m4 := sync2Message (next oA2) (encodeArray (encodeStateVector (doc sB)))
              (Some (identity optsB)) in
  let oB2 := receiveMessage optsB m4 (next oB1) in
  (state (next oA1) = Connecting ∧ last (emitted oA1) = Some (Sent m1))
  ∧ (next oB1 = sB ∧ emitted oB1 = [Sent m2; Sent m3])
  ∧ (state (next oA2) = On ∧ thrown oA2 = None
     ∧ (∀ m', Sent m' ∉ emitted oA2)
     ∧ doc (next oA2)
       = applyUpdate (doc sA)
           (decodeArray (encodeArray
              (encodeStateAsUpdate (doc sB)
                 (decodeArray (encodeArray (encodeStateVector (doc sA))))))))
  ∧ (next oA3 = next oA2 ∧ emitted oA3 = [Sent m4])
  ∧ (state (next oB2) = On ∧ thrown oB2 = None ∧ ∀ m', Sent m' ∉ emitted oB2).
Proof.
  intros Hoff HgA HgB. cbv zeta.
  pose proof (λ s upd, receiveMessage_sync2_addressed optsA
                 (Message "yjs1" "sync2" None (Some (identity optsA)) None None
                    (Some upd)) s upd eq_refl eq_refl eq_refl eq_refl
                 (λ H, eq_ind None (λ o, if o is None then True else False) I _  H)
                 HgA) as HA.
  pose proof (λ s upd, receiveMessage_sync2_addressed optsB
                 (Message "yjs1" "sync2" None (Some (identity optsB)) None None
                    (Some upd)) s upd eq_refl eq_refl eq_refl eq_refl
                 (λ H, eq_ind None (λ o, if o is None then True else False) I _  H)
                 HgB) as HB.
  cbv zeta in HA, HB.
  split_and!.
  - unfold connect. by rewrite decide_False.
  - unfold connect. rewrite decide_False by done. simpl. by rewrite last_snoc.
  - unfold receiveMessage. simpl. reflexivity.
  - unfold receiveMessage. simpl. reflexivity.
  - apply HA.
  - apply HA.
  - apply HA.
  - destruct (HA (next (connect optsA sA))
                (encodeArray (encodeStateAsUpdate (doc sB)
                   (decodeArray (encodeArray (encodeStateVector (doc sA)))))))
      as (_ & _ & _ & Hd).
    unfold sync2Message. rewrite Hd.
    unfold connect. by rewrite decide_False.
  - unfold receiveMessage at 1. simpl.
    rewrite (bool_decide_eq_false_2 (Some (identity optsA) ≠ Some (identity optsA)))
      by (intros Hn; by apply Hn).
    by rewrite andb_false_r.
  - unfold receiveMessage at 1. simpl.
    rewrite (bool_decide_eq_false_2 (Some (identity optsA) ≠ Some (identity optsA)))
      by (intros Hn; by apply Hn).
    rewrite andb_false_r. simpl. unfold syncMessage, sync2Message. simpl.
    reflexivity.
  - apply HB.
  - apply HB.
  - apply HB.
Qed.

End Peers.

(** ** A primitive layer that records steps, for concrete instances *)

(** The document is the log of what was applied to it; every tracked
    transaction is recorded as a new step, and undo and redo move the
    top step between the stacks. *)
#[local] Instance logPrimitives : Primitives (list string) string := {|
  newDoc := [];
  encodeStateVector := λ d, [Byte.x01];
  encodeStateAsUpdate := λ d sv, [Byte.x02];
  applyUpdate := λ d u, d ++ ["remote"];
  transactionUpdate := λ before after,
    if decide (before = after) then None else Some [Byte.x03];
  captureTransaction := λ um before after,
    (Manager (undoStack um ++ [StackItem "step" None]) [], true);
  popUndo := λ um d,
    match reverse (undoStack um) with
    | [] => PopOutcome um d None false None
    | item :: rest =>
        PopOutcome (Manager (reverse rest) (redoStack um ++ [item]))
          (d ++ ["undone"]) (Some [Byte.x04]) true (Some item)
    end;
  popRedo := λ um d,
    match reverse (redoStack um) with
    | [] => PopOutcome um d None false None
    | item :: rest =>
        PopOutcome (Manager (undoStack um ++ [item]) (reverse rest))
          (d ++ ["redone"]) (Some [Byte.x05]) true (Some item)
    end;
|}.

#[local] Existing Instance zeroConversion.

Definition logOptions (identity : string)
  : options (list string) string (list string) :=
  Options identity (λ d x, d ++ [x]) (λ d, Ok d).

(** A fresh session, and a session that shared ["a"] with the caret in
    block ["b1"] and then changed ["b"] with the caret in block ["b2"]. *)
Definition fresh : session (list string) string := initial noSelection.
Definition shared : session (list string) string :=
  (history (logOptions "me") [MoveCaret (caretAt "b1" 1); StartSharing "a"] fresh).1.
Definition edited : session (list string) string :=
  (history (logOptions "me") [MoveCaret (caretAt "b2" 2); ApplyDataChanges "b"]
     shared).1.

Definition peerUpdate : message :=
  Message "yjs1" "syncUpdate" None None None None (Some "1,2").

Lemma on_has_undo_manager_witness :
  is_Some (undoManager
             (history (logOptions "me") [Connect; StartSharing "a"]
                (initial noSelection)).1).
Proof.
  apply (on_has_undo_manager (logOptions "me") [Connect; StartSharing "a"]
           noSelection).
  reflexivity.
Defined.

Lemma turns_on_only_witness :
  (∃ data, StartSharing "a" = StartSharing (D:=string) data)
  ∨ (∃ m, StartSharing "a" = ReceiveMessage m ∧ protocol m = "yjs1"
          ∧ messageType m = "sync2"
          ∧ destination m = Some (identity (logOptions "me"))
          ∧ is_Some (update m)).
Proof.
  apply (turns_on_only (logOptions "me") (StartSharing "a") fresh).
  - simpl. discriminate.
  - reflexivity.
Defined.

Lemma receiveMessage_remote_update_witness :
  let s := onRemoteDataChange 7 fresh in
  let after := applyUpdate (doc s) (decodeArray "1,2") in
  let o := receiveMessage (logOptions "me") peerUpdate s in
  doc (next o) = after
  ∧ state (next o) = state s
  ∧ undoManager (next o) = undoManager s
  ∧ (∀ m', Sent m' ∉ emitted o)
  ∧ (∀ upd data,
       transactionUpdate (doc s) after = Some upd →
       opt_getData (logOptions "me") after = Ok data →
       emitted o = map (λ l, RemoteData l data) (listeners s) ∧ thrown o = None).
Proof.
  apply (receiveMessage_remote_update (logOptions "me") peerUpdate
           (onRemoteDataChange 7 fresh) "1,2"); try reflexivity.
  simpl. discriminate.
Defined.

Lemma local_change_delivered_witness :
  ∃ m,
    emitted (applyDataChanges (logOptions "me") "b" shared) = [Sent m]
    ∧ thrown (applyDataChanges (logOptions "me") "b" shared) = None
    ∧ doc (next (receiveMessage (logOptions "peer") m fresh))
      = applyUpdate (doc fresh) [Byte.x03]
    ∧ undoManager (next (receiveMessage (logOptions "peer") m fresh))
      = undoManager fresh
    ∧ ∀ m', Sent m' ∉ emitted (receiveMessage (logOptions "peer") m fresh).
Proof.
  apply (local_change_delivered (logOptions "me") (logOptions "peer") "b"
           shared fresh [Byte.x03]).
  - reflexivity.
  - reflexivity.
  - discriminate.
Defined.

Lemma connect_handshake_witness :
  let optsA := logOptions "me" in
  let optsB := logOptions "peer" in
  let sA := fresh in
  let sB := shared in
  let oA1 := connect optsA sA in
  let m1 := syncMessage optsA sA None None in
  let oB1 := receiveMessage optsB m1 sB in
  let m2 := sync2Message sB (encodeArray (encodeStateVector (doc sA)))
              (Some (identity optsA)) in
  let m3 := syncMessage optsB sB (Some (identity optsA)) (Some true) in
  let oA2 := receiveMessage optsA m2 (next oA1) in
  let oA3 := receiveMessage optsA m3 (next oA2) in
  let m4 := sync2Message (next oA2) (encodeArray (encodeStateVector (doc sB)))
              (Some (identity optsB)) in
  let oB2 := receiveMessage optsB m4 (next oB1) in
  (state (next oA1) = Connecting ∧ last (emitted oA1) = Some (Sent m1))
  ∧ (next oB1 = sB ∧ emitted oB1 = [Sent m2; Sent m3])
  ∧ (state (next oA2) = On ∧ thrown oA2 = None
     ∧ (∀ m', Sent m' ∉ emitted oA2)
     ∧ doc (next oA2)
       = applyUpdate (doc sA)
           (decodeArray (encodeArray
              (encodeStateAsUpdate (doc sB)
                 (decodeArray (encodeArray (encodeStateVector (doc sA))))))))
  ∧ (next oA3 = next oA2 ∧ emitted oA3 = [Sent m4])
  ∧ (state (next oB2) = On ∧ thrown oB2 = None ∧ ∀ m', Sent m' ∉ emitted oB2).
Proof.
  apply (connect_handshake (logOptions "me") (logOptions "peer") fresh shared).
  - simpl. discriminate.
  - intros d. by exists d.
  - intros d. by exists d.
Defined.

Lemma disposed_listener_silent_witness :
  RemoteData 7 ["remote"]
  ∉ effects (logOptions "me") [ReceiveMessage peerUpdate; CallUndo]
      (removeRemoteDataChange 7 (onRemoteDataChange 7 shared)).
Proof.
  apply (disposed_listener_silent (logOptions "me")
           [ReceiveMessage peerUpdate; CallUndo] 7 (onRemoteDataChange 7 shared)
           ["remote"]).
  intros Hin. repeat (apply elem_of_cons in Hin as [Hin|Hin]; [discriminate|]).
  by apply elem_of_nil in Hin.
Defined.

Lemma applyDataChanges_records_selection_witness :
  undoManager
    (next (applyDataChanges (logOptions "me") "b"
             (with_editorSelection (caretAt "b2" 2) shared)))
  = Some (Manager [StackItem "step" (Some (caretAt "b1" 1));
                   StackItem "step" (Some (caretAt "b2" 2))] []).
Proof.
  refine (proj2 (applyDataChanges_records_selection (logOptions "me") "b"
                   (with_editorSelection (caretAt "b2" 2) shared)
                   (Manager [StackItem "step" (Some (caretAt "b1" 1))] [])
                   (Manager [StackItem "step" (Some (caretAt "b1" 1));
                             StackItem "step" None] [])
                   true _ _ _)
            [StackItem "step" (Some (caretAt "b1" 1))] (StackItem "step" None) _ _);
    reflexivity.
Defined.

Lemma undo_redo_restore_selection_witness :
  last (emitted (undo (logOptions "me") edited)) = Some (SelectionSet (caretAt "b1" 1))
  ∧ editorSelection (next (undo (logOptions "me") edited)) = caretAt "b1" 1.
Proof.
  refine (proj1 (undo_redo_restore_selection (logOptions "me") edited
                   (Manager [StackItem "step" (Some (caretAt "b1" 1));
                             StackItem "step" (Some (caretAt "b2" 2))] [])
                   (StackItem "step" (Some (caretAt "b2" 2))) (caretAt "b1" 1)
                   _ _) _ _ _).
  - reflexivity.
  - by eexists.
  - reflexivity.
  - reflexivity.
  - exists [], (StackItem "step" (Some (caretAt "b1" 1))). by split.
Defined.


End SessionMore.

(* ===================================================================== *)
(** * State notifications of the session *)
(* ===================================================================== *)

Module SessionStates.
Import Wire Session WireProps SessionProps SessionMore.

Section Document.
Context {ydoc change D G : Type} `{!Primitives ydoc change} `{!NumberConversion}.
Variable opts : options ydoc D G.

Implicit Types (s : session ydoc change) (m : message) (c : call (D:=D)).

(** ** State notifications *)

Lemma onUpdate_no_state s u o l st :
  StateChanged l st ∉ (onUpdate opts s u o).1.
Proof.
  unfold onUpdate.
  set (sent := if _ && _ then [Sent (syncUpdateMessage u)] else []).
  assert (StateChanged (G:=G) l st ∉ sent) as Hsent.
  { subst sent. destruct (_ && _); intros Hin.
    - apply list_elem_of_singleton in Hin. discriminate.
    - by apply elem_of_nil in Hin. }
  destruct (decide (o = _)); [done|].
  destruct (opt_getData opts (doc s)); simpl; try done.
  intros [Hin|Hin]%elem_of_app; [done|].
  apply list_elem_of_fmap in Hin as (l' & Hl & _). discriminate.
Qed.

Lemma afterTransaction_no_state o before s l st :
  StateChanged l st ∉ emitted (afterTransaction opts o before s).
Proof.
  unfold afterTransaction.
  destruct (transactionUpdate before (doc s)) as [u|].
  - pose proof (onUpdate_no_state
                  (with_undoManager
                     match undoManager s with
                     | Some um =>
                         if decide (o = OriginValue (Some (identity opts))) then
                           let '(um1, added) := captureTransaction um before (doc s) in
                           Some (if added
                                 then Manager (alter_last
                                                 (onStackItemAdded (editorSelection s))
                                                 (undoStack um1)) (redoStack um1)
                                 else um1)
                         else Some um
                     | None => None
                     end s) u o l st) as Hno.
    by destruct (onUpdate _ _ _ _).
  - simpl. apply not_elem_of_nil.
Qed.

Lemma applyDataChanges_no_state data s l st :
  StateChanged l st ∉ emitted (applyDataChanges opts data s).
Proof.
  unfold applyDataChanges. case_decide.
  - simpl. apply not_elem_of_nil.
  - apply afterTransaction_no_state.
Qed.

Lemma applyRemoteUpdate_no_state m s l st :
  StateChanged l st ∉ emitted (applyRemoteUpdate opts m s).
Proof.
  unfold applyRemoteUpdate. destruct (update m).
  - apply afterTransaction_no_state.
  - simpl. apply not_elem_of_nil.
Qed.

Lemma applyRemoteUpdate_stateListeners m s :
  stateListeners (next (applyRemoteUpdate opts m s)) = stateListeners s.
Proof.
  unfold applyRemoteUpdate. destruct (update m); [|done].
  unfold afterTransaction. destruct (transactionUpdate _ _); [|done].
  by destruct (onUpdate _ _ _ _).
Qed.

Lemma dispatchPop_no_state type po s l st :
  StateChanged l st ∉ emitted (dispatchPop opts type po s).
Proof.
  unfold dispatchPop.
  set (s1 := with_undoManager _ (with_doc (pop_doc po) s)).
  assert (StateChanged l st ∉
            (match pop_update po with
             | Some u => onUpdate opts s1 u OriginUndoManager
             | None => ([], None)
             end).1) as Hupd.
  { destruct (pop_update po); simpl.
    - apply onUpdate_no_state.
    - apply not_elem_of_nil. }
  destruct (match pop_update po with Some u => _ | None => _ end) as [e1 x].
  simpl in Hupd.
  destruct x; [done|]. destruct (pop_item po); [|done].
  destruct (onStackItemPopped _ _ _); [|done]. simpl.
  intros [Hin|Hin]%elem_of_app; [done|].
  apply list_elem_of_singleton in Hin. discriminate.
Qed.

Lemma setState_notifies st' s l st :
  StateChanged l st ∈ (setState (G:=G) st' s).2 → l ∈ stateListeners s ∧ st = st'.
Proof.
  simpl. intros (l' & [= -> ->] & Hl')%list_elem_of_fmap. done.
Qed.

(** X23. State notifications are truthful: whenever a call notifies a
    state listener, the listener is one that is subscribed through
    [onStateChange] and not disposed of, and the state it is told is the
    one [getState()] returns after the call. *)
Theorem state_notification_truthful c s l st :
  StateChanged l st ∈ emitted (perform opts c s) →
  l ∈ stateListeners s ∧ st = getState (next (perform opts c s)).
Proof.
  unfold getState.
  destruct c; simpl; try (intros Hin; by apply elem_of_nil in Hin).
  - intros Hin. by apply applyDataChanges_no_state in Hin.
  - unfold connect. case_decide; simpl.
    + intros Hin. by apply elem_of_nil in Hin.
    + intros [Hin|Hin]%elem_of_app.
      * by apply (setState_notifies Connecting s) in Hin.
      * apply list_elem_of_singleton in Hin. discriminate.
  - intros Hin. by apply (setState_notifies Off s) in Hin.
  - unfold startSharing. case_decide.
    + simpl. intros Hin. by apply elem_of_nil in Hin.
    + change (StateChanged l st ∈ (setState (G:=G) On s).2
                ++ emitted (applyDataChanges opts data (setState (G:=G) On s).1)
              → l ∈ stateListeners s
                ∧ st = state (next (applyDataChanges opts data
                                      (setState (G:=G) On s).1))).
      rewrite applyDataChanges_state.
      intros [Hin|Hin]%elem_of_app.
      * by apply (setState_notifies On s) in Hin.
      * by apply applyDataChanges_no_state in Hin.
  - unfold receiveMessage.
    destruct (decide (protocol m ≠ "yjs1"));
      [simpl; intros Hin; by apply elem_of_nil in Hin|].
    destruct (decide (messageType m = "sync1")).
    { destruct (_ && _); [simpl; intros Hin; by apply elem_of_nil in Hin|].
      destruct (stateVector m); simpl.
      - intros [Hin|Hin]%elem_of_cons; [discriminate|].
        destruct (negb _); [|by apply elem_of_nil in Hin].
        apply list_elem_of_singleton in Hin. discriminate.
      - intros Hin. by apply elem_of_nil in Hin. }
    destruct (decide (messageType m = "sync2")).
    { destruct (decide (destination m ≠ _));
        [simpl; intros Hin; by apply elem_of_nil in Hin|].
      destruct (thrown (applyRemoteUpdate opts m s)).
      - intros Hin. by apply applyRemoteUpdate_no_state in Hin.
      - change (StateChanged l st ∈ emitted (applyRemoteUpdate opts m s)
                  ++ (setState (G:=G) On (next (applyRemoteUpdate opts m s))).2
                → l ∈ stateListeners s ∧ st = On).
        intros [Hin|Hin]%elem_of_app.
        + by apply applyRemoteUpdate_no_state in Hin.
        + apply setState_notifies in Hin as [Hl ->].
          by rewrite applyRemoteUpdate_stateListeners in Hl. }
    destruct (decide (messageType m = "syncUpdate")).
    + intros Hin. by apply applyRemoteUpdate_no_state in Hin.
    + simpl. intros Hin. by apply elem_of_nil in Hin.
  - unfold undo. destruct (undoManager s).
    + intros Hin. by apply dispatchPop_no_state in Hin.
    + simpl. intros Hin. by apply elem_of_nil in Hin.
  - unfold redo. destruct (undoManager s).
    + intros Hin. by apply dispatchPop_no_state in Hin.
    + simpl. intros Hin. by apply elem_of_nil in Hin.
Qed.

End Document.

#[local] Existing Instance logPrimitives.
#[local] Existing Instance zeroConversion.

Lemma state_notification_truthful_witness :
  4 ∈ stateListeners (onStateChange 4 shared)
  ∧ Off = getState (next (perform (logOptions "me") Disconnect
                            (onStateChange 4 shared))).
Proof.
  apply (state_notification_truthful (logOptions "me") Disconnect
           (onStateChange 4 shared) 4 Off).
  simpl. apply list_elem_of_here.
Defined.

End SessionStates.

(* ===================================================================== *)
(** * Further properties of the textual byte-array encoding *)
(* ===================================================================== *)

Module WireMore.
Import Wire WireProps.

(** The number of commas of a string. *)
Fixpoint commas (s : string) : nat :=
  match s with
  | EmptyString => 0
  | String c s' => (if decide (c = ","%char) then 1 else 0) + commas s'
  end.

Lemma split_comma_nonempty s : split_comma s ≠ [].
Proof.
  destruct s as [|c s]; simpl; [done|].
  destruct (decide (c = ","%char)); [done|]. by destruct (split_comma s).
Qed.

Lemma split_comma_concat s1 s2 :
  split_comma (s1 +:+ "," +:+ s2) = split_comma s1 ++ split_comma s2.
Proof.
  induction s1 as [|c s1 IH]; simpl; [done|].
  destruct (decide (c = ","%char)); [by rewrite IH|].
  rewrite IH. pose proof (split_comma_nonempty s1) as Hne.
  by destruct (split_comma s1).
Qed.

Lemma length_split_comma s : length (split_comma s) = S (commas s).
Proof.
  induction s as [|c s IH]; simpl; [done|].
  destruct (decide (c = ","%char)); simpl; [by rewrite IH|].
  pose proof (split_comma_nonempty s) as Hne.
  destruct (split_comma s); [done|]. simpl in *. lia.
Qed.

Lemma byte_to_string_nonempty b : byte_to_string b ≠ "".
Proof. destruct b; discriminate. Qed.

Lemma encodeArray_nonempty b array : encodeArray (b :: array) ≠ "".
Proof.
  unfold encodeArray. simpl.
  pose proof (byte_to_string_nonempty b) as Hb.
  destruct (map byte_to_string array); [done|].
  by destruct (byte_to_string b).
Qed.

Section Decode.
Context `{NumberConversion}.

(** X11. [decodeArray] returns one byte per comma-separated piece, for
    every string, well-formed or not: decoding two strings joined by a
    comma yields the two decoded arrays one after the other, the result
    has one more element than the string has commas, and so no string at
    all decodes to the empty array. *)
Theorem decodeArray_pieces :
  (∀ s1 s2, decodeArray (s1 +:+ "," +:+ s2) = decodeArray s1 ++ decodeArray s2)
  ∧ (∀ s, length (decodeArray s) = S (commas s))
  ∧ (∀ s, decodeArray s ≠ []).
Proof.
  split_and!.
  - intros s1 s2. unfold decodeArray. by rewrite split_comma_concat, map_app.
  - intros s. unfold decodeArray. by rewrite length_map, length_split_comma.
  - intros s Hnil. apply (f_equal length) in Hnil.
    unfold decodeArray in Hnil. by rewrite length_map, length_split_comma in Hnil.
Qed.

End Decode.

(** X12. [encodeArray] is injective: two different byte arrays never have
    the same text, the empty array and the array [[0]] included. *)
Theorem encodeArray_injective (a b : list Byte.byte) :
  a ≠ b → encodeArray a ≠ encodeArray b.
Proof.
  intros Hne Heq. apply Hne.
  pose (nc := (λ _, Byte.x00) : NumberConversion).
  assert (∀ u, u ≠ [] → @decodeArray nc (encodeArray u) = u) as Hround.
  { intros u Hu. unfold decodeArray, encodeArray. rewrite split_join.
    - rewrite map_map. rewrite <- (map_id u) at 2.
      apply map_ext. intros x. apply piece_to_uint8_byte_to_string.
    - by destruct u.
    - apply Forall_map, Forall_forall. intros x _. apply byte_to_string_comma_free. }
  destruct a as [|x a], b as [|y b]; [done| | |].
  - symmetry in Heq. by apply encodeArray_nonempty in Heq.
  - by apply encodeArray_nonempty in Heq.
  - rewrite <- (Hround (x :: a)), <- (Hround (y :: b)) by done. by rewrite Heq.
Qed.

Lemma encodeArray_injective_witness : encodeArray [] ≠ encodeArray [Byte.x00].
Proof. apply (encodeArray_injective [] [Byte.x00]). discriminate. Defined.

End WireMore.

(* ===================================================================== *)
(** * Further properties of the editor-facing wiring *)
(* ===================================================================== *)

Module EditorMore.
Import Codec Wire Session YjsDoc Editor CodecProps SessionProps EditorProps.

Section InitYDoc.
Context {A ydoc change : Type} `{EqDecision A}.
Context `{!Primitives ydoc change} `{!NumberConversion} `{!PostMap A ydoc}.
Variable identity : string.
Variable fuel : nat.

(** What the document layer owes the codec: a fresh document has an
    empty 'post' map, and after a transaction the 'post' map holds what
    the transaction body left there. *)
Definition post_map_kept : Prop :=
  postMap (newDoc (ydoc:=ydoc)) = emptyDoc (A:=A)
  ∧ ∀ (d : ydoc) p w, postMap (commitPost d p w) = p.

(** X21. The first client of a channel. On a session that is not yet
    ['on'] and whose document is still the fresh one,
    [startSharing( { title: '', blocks } )] with blocks whose ids are
    pairwise distinct and non-empty turns the session ['on'] and leaves a
    document from which [getData] reads back the empty title and
    exactly these blocks; the state listeners are told ['on'], and the
    only other effect is the broadcast of the transaction's update, if
    it produced one. *)
Theorem enterChannel_first (blocks : list (block (A:=A))) (s : document ydoc) :
  post_map_kept → YjsDoc.state s ≠ On → YjsDoc.doc s = newDoc →
  well_formed blocks → forest_depth blocks < fuel →
  let o := enterChannel identity fuel true blocks s in
  YjsDoc.state (YjsDoc.next o) = On
  ∧ opt_getData (documentOptions identity fuel) (YjsDoc.doc (YjsDoc.next o))
    = Ok (PostObject "" (map to_decoded blocks))
  ∧ YjsDoc.emitted o
    = map (λ l, StateChanged l On) (YjsDoc.stateListeners s)
      ++ broadcast (transactionUpdate newDoc (YjsDoc.doc (YjsDoc.next o))).
Proof.
  intros [Hnew Hcommit] Hoff Hdoc Hwf Hfuel o. subst o.
  unfold enterChannel, YjsDoc.startSharing.
  rewrite decide_False by done.
  set (s1 := (YjsDoc.setState (G:=postObject (A:=A)) On s).1).
  change (let o := YjsDoc.applyDataChanges (documentOptions identity fuel)
                     (Post (Some "") (Some blocks) None) s1 in
          YjsDoc.state (YjsDoc.next o) = On
          ∧ opt_getData (documentOptions identity fuel) (YjsDoc.doc (YjsDoc.next o))
            = Ok (PostObject "" (map to_decoded blocks))
          ∧ map (λ l, StateChanged l On) (YjsDoc.stateListeners s)
              ++ YjsDoc.emitted o
            = map (λ l, StateChanged l On) (YjsDoc.stateListeners s)
              ++ broadcast (transactionUpdate newDoc (YjsDoc.doc (YjsDoc.next o)))).
  destruct (document_applyDataChanges_on (documentOptions identity fuel)
              (Post (Some "") (Some blocks) None) s1 eq_refl)
    as (Hd & Hst & _ & He).
  cbv zeta. rewrite Hst, He, Hd. split_and!; [done| |].
  - subst s1. simpl. rewrite Hdoc, Hnew.
    destruct (updatePostDoc emptyDoc (Post (Some "") (Some blocks) None))
      as [p w] eqn:Hp.
    rewrite Hcommit.
    replace p with (updatePostDoc emptyDoc (Post (Some "") (Some blocks) None)).1
      by by rewrite Hp.
    apply (postDocToObject_updatePostDoc_any emptyDoc
             (Post (Some "") (Some blocks) None) fuel); [done| |done].
    apply parents_kept_empty.
  - subst s1. simpl. by rewrite Hdoc.
Qed.


End InitYDoc.

#[local] Existing Instance plainPrimitives.
#[local] Existing Instance plainPostMap.
#[local] Existing Instance zeroConversion.

Lemma plain_post_map_kept : post_map_kept (A:=nat) (ydoc:=postDoc (A:=nat)).
Proof. by split. Qed.

Lemma enterChannel_first_witness :
  let o := enterChannel (A:=nat) "me" 3 true afterMove YjsDoc.initial in
  YjsDoc.state (YjsDoc.next o) = On
  ∧ opt_getData (documentOptions "me" 3) (YjsDoc.doc (YjsDoc.next o))
    = Ok (PostObject "" (map to_decoded afterMove))
  ∧ YjsDoc.emitted o
    = map (λ l, StateChanged l On) (YjsDoc.stateListeners YjsDoc.initial)
      ++ broadcast (transactionUpdate newDoc (YjsDoc.doc (YjsDoc.next o))).
Proof.
  apply (enterChannel_first (A:=nat) "me" 3 afterMove YjsDoc.initial).
  - exact plain_post_map_kept.
  - simpl. discriminate.
  - reflexivity.
  - exact afterMove_well_formed.
  - vm_compute. lia.
Defined.


End EditorMore.
